(** * uz_tts: the text normalisation pipeline and the text splitter

    A shallow embedding of the pure text functions of the bot

    - [bot/numbers.py]        (number words, numbers in text),
    - [bot/transliterate.py]  (Latin to Cyrillic),
    - [bot/acronyms.py]       (spelling of all-caps words),
    - [bot/text_processor.py] (script detection),
    - [bot/text_splitter.py]  (chunking of long messages),
    - [bot/tts_engine.py]     (the order of the three normalisation stages),

    followed by the properties proved about them.

    A Python [str] is a sequence of Unicode code points: it is modelled as a
    list of code points.  The library functions the code calls
    ([str.replace], [str.split], [str.strip], [re.sub], [re.split]) are
    modelled with their CPython behaviour. *)

From Equations Require Import Equations.
From Stdlib Require Import String Ascii.
From Stdlib Require Import ZArith NArith List Bool Lia.
Import ListNotations.

Set Implicit Arguments.

(* ===================================================================== *)
(** * Python strings *)
(* ===================================================================== *)

Module Py.

(** A character is its Unicode code point. *)
Definition char : Type := N.
Definition str : Type := list char.

Definition char_eqb (a b : char) : bool := N.eqb a b.

Fixpoint str_eqb (a b : str) : bool :=
  match a, b with
  | [], [] => true
  | x :: a', y :: b' => char_eqb x y && str_eqb a' b'
  | _, _ => false
  end.

(** Source literals are written as UTF-8 text and decoded to code points. *)
Fixpoint utf8 (bs : list N) : str :=
  match bs with
  | [] => []
  | b0 :: r0 =>
    if (b0 <? 0x80)%N then b0 :: utf8 r0
    else if (b0 <? 0xE0)%N then
      match r0 with
      | b1 :: r1 => ((b0 - 0xC0) * 64 + (b1 - 0x80))%N :: utf8 r1
      | _ => []
      end
    else if (b0 <? 0xF0)%N then
      match r0 with
      | b1 :: b2 :: r2 =>
        ((b0 - 0xE0) * 4096 + (b1 - 0x80) * 64 + (b2 - 0x80))%N :: utf8 r2
      | _ => []
      end
    else
      match r0 with
      | b1 :: b2 :: b3 :: r3 =>
        ((b0 - 0xF0) * 262144 + (b1 - 0x80) * 4096
         + (b2 - 0x80) * 64 + (b3 - 0x80))%N :: utf8 r3
      | _ => []
      end
  end.

Definition lit (s : string) : str :=
  utf8 (map N_of_ascii (list_ascii_of_string s)).

(** [len(s)] *)
Definition len (s : str) : Z := Z.of_nat (length s).

(** [str.isspace] on one character, also the class [\s] of [re] and the
    separators of [str.split()] and [str.strip()]. *)
Definition isspace (c : char) : bool :=
  ((0x09 <=? c) && (c <=? 0x0D) || (0x1C <=? c) && (c <=? 0x20)
   || (c =? 0x85) || (c =? 0xA0) || (c =? 0x1680)
   || (0x2000 <=? c) && (c <=? 0x200A)
   || (c =? 0x2028) || (c =? 0x2029) || (c =? 0x202F) || (c =? 0x205F)
   || (c =? 0x3000))%N.

Fixpoint drop_while (p : char -> bool) (s : str) : str :=
  match s with
  | [] => []
  | c :: s' => if p c then drop_while p s' else s
  end.

Fixpoint take_while (p : char -> bool) (s : str) : str :=
  match s with
  | [] => []
  | c :: s' => if p c then c :: take_while p s' else []
  end.

(** [s.lstrip()], [s.rstrip()], [s.strip()] *)
Definition lstrip (s : str) : str := drop_while isspace s.
Definition rstrip (s : str) : str := rev (drop_while isspace (rev s)).
Definition strip (s : str) : str := rstrip (lstrip s).

(** [s.split()]: the maximal runs of non-whitespace characters.
    [cur] is the word being read. *)
Fixpoint split_ws_from (cur : str) (s : str) : list str :=
  match s with
  | [] => match cur with [] => [] | _ => [cur] end
  | c :: s' =>
    if isspace c then
      match cur with
      | [] => split_ws_from [] s'
      | _ => cur :: split_ws_from [] s'
      end
    else split_ws_from (cur ++ [c]) s'
  end.

Definition split_ws (s : str) : list str := split_ws_from [] s.

(** [old] is a prefix of [s]. *)
Fixpoint startswith (s old : str) {struct old} : bool :=
  match old, s with
  | [], _ => true
  | x :: old', y :: s' => char_eqb x y && startswith s' old'
  | _ :: _, [] => false
  end.

(** [s.replace(old, new)] for a non-empty [old]: the occurrences of [old]
    are found from the left and do not overlap.  [skip] counts the
    characters of an occurrence that are still to be passed over. *)
Fixpoint replace_from (old new : str) (skip : nat) (s : str) : str :=
  match s with
  | [] => []
  | c :: s' =>
    match skip with
    | S k => replace_from old new k s'
    | O =>
      if startswith s old
      then new ++ replace_from old new (length old - 1) s'
      else c :: replace_from old new 0 s'
    end
  end.

Definition replace (s old new : str) : str := replace_from old new 0 s.

(** [s.split(sep)] for a non-empty [sep]. *)
Fixpoint split_sep_from (sep : str) (skip : nat) (cur : str) (s : str)
  : list str :=
  match s with
  | [] => [cur]
  | c :: s' =>
    match skip with
    | S k => split_sep_from sep k cur s'
    | O =>
      if startswith s sep
      then cur :: split_sep_from sep (length sep - 1) [] s'
      else split_sep_from sep 0 (cur ++ [c]) s'
    end
  end.

Definition split_sep (s sep : str) : list str := split_sep_from sep 0 [] s.

(** [sep.join(l)] *)
Fixpoint join (sep : str) (l : list str) : str :=
  match l with
  | [] => []
  | [x] => x
  | x :: l' => x ++ sep ++ join sep l'
  end.

(** [c in s] for a character [c] *)
Definition contains (c : char) (s : str) : bool := existsb (char_eqb c) s.

(** [s[i:j]] for [0 <= i <= j] *)
Definition slice (s : str) (i j : nat) : str := firstn (j - i) (skipn i s).

(** [s.replace(old, new)] for every [old]: an empty [old] is found before
    each character and at the end of [s]. *)
Definition replace_all (s old new : str) : str :=
  match old with
  | [] => new ++ flat_map (fun c => c :: new) s
  | _ => replace s old new
  end.

(** [sub in s] for a string [sub] *)
Fixpoint contains_str (s sub : str) : bool :=
  startswith s sub
  || match s with
     | [] => false
     | _ :: s' => contains_str s' sub
     end.

(** [if s:], the truth value of a string *)
Definition truth (s : str) : bool :=
  match s with [] => false | _ => true end.

(** [s.encode()], in UTF-8, of a string of code points up to U+10FFFF.
    [None] is [UnicodeEncodeError]: a surrogate (U+D800..U+DFFF) cannot be
    encoded. *)
Definition encode_char (c : char) : option (list N) :=
  if (c <? 0x80)%N then Some [c]
  else if (c <? 0x800)%N then
    Some [0xC0 + c / 0x40; 0x80 + c mod 0x40]%N
  else if ((0xD800 <=? c) && (c <=? 0xDFFF))%N then None
  else if (c <? 0x10000)%N then
    Some [0xE0 + c / 0x1000; 0x80 + (c / 0x40) mod 0x40;
          0x80 + c mod 0x40]%N
  else
    Some [0xF0 + c / 0x40000; 0x80 + (c / 0x1000) mod 0x40;
          0x80 + (c / 0x40) mod 0x40; 0x80 + c mod 0x40]%N.

Fixpoint encode (s : str) : option (list N) :=
  match s with
  | [] => Some []
  | c :: s' =>
    match encode_char c, encode s' with
    | Some b, Some bs => Some (b ++ bs)
    | _, _ => None
    end
  end.

(** A [for] loop whose body can raise: [None] is the exception, which
    ends the loop. *)
Fixpoint for_each (A B : Type) (body : A -> B -> option A) (l : list B)
  (a : A) : option A :=
  match l with
  | [] => Some a
  | b :: l' =>
    match body a b with
    | Some a' => for_each body l' a'
    | None => None
    end
  end.

End Py.

Import Py.

(* ===================================================================== *)
(** * The Unicode character database *)
(* ===================================================================== *)

(** [str.isalpha], [str.isalnum], [str.isupper], [str.lower], the class
    [\d] and [int()] read the character database of the interpreter.  The
    code depends on it through the functions below; the properties are
    proved for every database that classifies the basic Latin capitals and
    the Cyrillic block as Unicode does. *)

Module Unicode.

(** The capital letters the code names: [A-Z], [А-Я] and [ЁҚҒҲЎ]. *)
Definition capital (c : char) : bool :=
  ((0x41 <=? c) && (c <=? 0x5A) || (0x410 <=? c) && (c <=? 0x42F)
   || (c =? 0x401) || (c =? 0x49A) || (c =? 0x492) || (c =? 0x4B2)
   || (c =? 0x40E))%N.

Definition in_cyrillic_block (c : char) : bool :=
  ((0x400 <=? c) && (c <=? 0x4FF))%N.

Class Data : Type := {
  (** [c.isalpha()], [c.isalnum()] *)
  isalpha : char -> bool;
  isalnum : char -> bool;
  (** [c] is a cased character in upper case; in lower or title case *)
  isupper : char -> bool;
  islower : char -> bool;
  (** [c.lower()], which can be longer than one character *)
  lower : char -> str;
  (** the value of a decimal digit (general category Nd) *)
  decimal : char -> option Z;

  capital_isalpha : forall c, capital c = true -> isalpha c = true;
  capital_isalnum : forall c, capital c = true -> isalnum c = true;
  capital_isupper : forall c, capital c = true -> isupper c = true;
  capital_islower : forall c, capital c = true -> islower c = false;
  lower_cyrillic_capital :
    forall c, (0x410 <=? c)%N && (c <=? 0x42F)%N = true ->
              lower c = [(c + 0x20)%N];
  decimal_ascii :
    forall c, (c <? 0x80)%N = true ->
      decimal c = if ((0x30 <=? c) && (c <=? 0x39))%N
                  then Some (Z.of_N c - 0x30)%Z else None;
  decimal_cyrillic :
    forall c, in_cyrillic_block c = true -> decimal c = None
}.

Section Strings.
Context {U : Data}.

(** [s.isalpha()], [s.isupper()], [s.isdigit()], [s.lower()] *)
Definition str_isalpha (s : str) : bool :=
  match s with [] => false | _ => forallb isalpha s end.

Definition str_isupper (s : str) : bool :=
  forallb (fun c => negb (islower c)) s && existsb isupper s.

Definition is_decimal (c : char) : bool :=
  match decimal c with Some _ => true | None => false end.

(** [str.isdigit] is only applied to pieces of a match of [\d+[.,]?\d*],
    where a digit is a decimal digit. *)
Definition str_isdigit (s : str) : bool :=
  match s with [] => false | _ => forallb is_decimal s end.

Definition str_lower (s : str) : str := flat_map lower s.

(** [sys.int_info.default_max_str_digits]: [int(s)] raises [ValueError]
    for a string of more digits (leading zeros count).  The code does not
    change the limit of the interpreter. *)
Definition int_max_str_digits : nat := 4300.

(** [int(s)] for a string of decimal digits; [None] is [ValueError].
    (The signs, blanks and underscores [int] also accepts do not occur in
    a match of [\d+].) *)
Fixpoint int_digits (acc : Z) (s : str) : option Z :=
  match s with
  | [] => Some acc
  | c :: s' =>
    match decimal c with
    | Some d => int_digits (10 * acc + d) s'
    | None => None
    end
  end.

Definition int (s : str) : option Z :=
  match s with
  | [] => None
  | _ =>
    if (length s <=? int_max_str_digits)%nat then int_digits 0 s else None
  end.

(** [\w]: alphanumeric or underscore. *)
Definition is_word (c : char) : bool := isalnum c || (c =? 0x5F)%N.

End Strings.

(** The database on the basic Latin and Cyrillic blocks (U+0000..U+007F,
    U+0400..U+04FF), on which the examples are evaluated.  Code points
    outside these two blocks are left unclassified. *)
Definition basic_isalpha (c : char) : bool :=
  ((0x41 <=? c) && (c <=? 0x5A) || (0x61 <=? c) && (c <=? 0x7A)
   || (0x400 <=? c) && (c <=? 0x481) || (0x48A <=? c) && (c <=? 0x4FF))%N.

Definition basic_isalnum (c : char) : bool :=
  (basic_isalpha c || (0x30 <=? c) && (c <=? 0x39))%N.

Definition basic_isupper (c : char) : bool :=
  ((0x41 <=? c) && (c <=? 0x5A) || (0x400 <=? c) && (c <=? 0x42F)
   || (0x460 <=? c) && (c <=? 0x481) && N.even c
   || (0x48A <=? c) && (c <=? 0x4BF) && N.even c
   || (c =? 0x4C0)
   || (0x4C1 <=? c) && (c <=? 0x4CE) && N.odd c
   || (0x4D0 <=? c) && (c <=? 0x4FF) && N.even c)%N.

Definition basic_islower (c : char) : bool :=
  ((0x61 <=? c) && (c <=? 0x7A) || (0x430 <=? c) && (c <=? 0x45F)
   || (0x461 <=? c) && (c <=? 0x481) && N.odd c
   || (0x48B <=? c) && (c <=? 0x4BF) && N.odd c
   || (0x4C2 <=? c) && (c <=? 0x4CE) && N.even c
   || (c =? 0x4CF)
   || (0x4D1 <=? c) && (c <=? 0x4FF) && N.odd c)%N.

Definition basic_lower (c : char) : str :=
  (if (0x41 <=? c) && (c <=? 0x5A) then [c + 0x20]
   else if (0x400 <=? c) && (c <=? 0x40F) then [c + 0x50]
   else if (0x410 <=? c) && (c <=? 0x42F) then [c + 0x20]
   else if c =? 0x4C0 then [0x4CF]
   else if basic_isupper c then [c + 1]
   else [c])%N.

Definition basic_decimal (c : char) : option Z :=
  if ((0x30 <=? c) && (c <=? 0x39))%N then Some (Z.of_N c - 0x30)%Z
  else None.

(** [s.upper()], [s.lower()] and [s.capitalize()] of a whole string, which
    the database also decides (they are not character-wise in general). *)
Class Casing : Type := {
  to_upper : str -> str;
  to_lower : str -> str;
  to_capitalized : str -> str
}.

(** The three functions on ASCII strings, on which the examples are
    evaluated: letters outside [A-Za-z] are left as they are. *)
Definition ascii_upper_char (c : char) : char :=
  if ((0x61 <=? c) && (c <=? 0x7A))%N then (c - 0x20)%N else c.

Definition ascii_lower_char (c : char) : char :=
  if ((0x41 <=? c) && (c <=? 0x5A))%N then (c + 0x20)%N else c.

Definition ascii_capitalize (s : str) : str :=
  match s with
  | [] => []
  | c :: s' => ascii_upper_char c :: map ascii_lower_char s'
  end.

End Unicode.

Import Unicode.

(* ===================================================================== *)
(** * The regular expressions of [re] *)
(* ===================================================================== *)

Module Re.

(** A matcher is tried at a position of the subject: it reads the
    characters [s] from that position on, knows the character [prev]
    before the position (for [\b]) and returns the length of the match.
    Matchers are built backwards from the end of the pattern, each one
    taking the matcher of the rest of the pattern, so that a greedy
    repetition gives characters back until the rest matches. *)
Definition matcher : Type := option char -> str -> option nat.

(** the end of the pattern *)
Definition m_end : matcher := fun _ _ => Some 0.

(** one character of the class [p] *)
Definition m_char (p : char -> bool) (k : matcher) : matcher :=
  fun _ s =>
    match s with
    | c :: s' => if p c then option_map S (k (Some c) s') else None
    | [] => None
    end.

(** [p*], greedy *)
Fixpoint m_star (p : char -> bool) (k : matcher) (prev : option char)
  (s : str) : option nat :=
  match s with
  | c :: s' =>
    if p c then
      match m_star p k (Some c) s' with
      | Some n => Some (S n)
      | None => k prev s
      end
    else k prev s
  | [] => k prev s
  end.

(** [p+], greedy *)
Definition m_plus (p : char -> bool) (k : matcher) : matcher :=
  m_char p (m_star p k).

(** [p?], greedy *)
Definition m_opt (p : char -> bool) (k : matcher) : matcher :=
  fun prev s =>
    match m_char p k prev s with
    | Some n => Some n
    | None => k prev s
    end.

(** [\b]: exactly one of the two neighbours is a word character. *)
Definition m_boundary (is_word : char -> bool) (k : matcher) : matcher :=
  fun prev s =>
    let w (o : option char) :=
      match o with Some c => is_word c | None => false end in
    if xorb (w prev) (w (hd_error s)) then k prev s else None.

(** [re.sub(pattern, repl, text)] for a pattern that matches no empty
    string: the leftmost match is replaced and the search goes on after
    it.  [repl] receives the matched text, [skip] counts the characters of
    the last match still to be passed over. *)
Fixpoint sub_from (m : matcher) (repl : str -> str) (prev : option char)
  (skip : nat) (s : str) : str :=
  match s with
  | [] => []
  | c :: s' =>
    match skip with
    | S k => sub_from m repl (Some c) k s'
    | O =>
      match m prev s with
      | Some (S k) => repl (firstn (S k) s) ++ sub_from m repl (Some c) k s'
      | _ => c :: sub_from m repl (Some c) 0 s'
      end
    end
  end.

Definition sub (m : matcher) (repl : str -> str) (text : str) : str :=
  sub_from m repl None 0 text.

(** [re.sub] with a function [repl] that can raise: [None] is the
    exception of the first call of [repl] that raises, which ends the
    substitution. *)
Fixpoint sub_from_raising (m : matcher) (repl : str -> option str)
  (prev : option char) (skip : nat) (s : str) : option str :=
  match s with
  | [] => Some []
  | c :: s' =>
    match skip with
    | S k => sub_from_raising m repl (Some c) k s'
    | O =>
      match m prev s with
      | Some (S k) =>
        match repl (firstn (S k) s) with
        | Some r =>
          option_map (app r) (sub_from_raising m repl (Some c) k s')
        | None => None
        end
      | _ => option_map (cons c) (sub_from_raising m repl (Some c) 0 s')
      end
    end
  end.

Definition sub_raising (m : matcher) (repl : str -> option str)
  (text : str) : option str :=
  sub_from_raising m repl None 0 text.

(** [re.split(pattern, text)] for a pattern that is one capturing group
    and matches no empty string: the pieces between the matches, with the
    matched separators between them.  [cur] is the piece being read. *)
Fixpoint split_from (m : matcher) (prev : option char) (skip : nat)
  (cur : str) (s : str) : list str :=
  match s with
  | [] => [cur]
  | c :: s' =>
    match skip with
    | S k => split_from m (Some c) k cur s'
    | O =>
      match m prev s with
      | Some (S k) => cur :: firstn (S k) s :: split_from m (Some c) k [] s'
      | _ => split_from m (Some c) 0 (cur ++ [c]) s'
      end
    end
  end.

Definition split (m : matcher) (text : str) : list str :=
  split_from m None 0 [] text.

End Re.

(* ===================================================================== *)
(** * bot/numbers.py *)
(* ===================================================================== *)

Module Numbers.

(** A [dict] with integer keys, in insertion order. *)
Fixpoint dict_get (d : list (Z * str)) (k : Z) : option str :=
  match d with
  | [] => None
  | (k', v) :: d' => if Z.eqb k k' then Some v else dict_get d' k
  end.

(** [d[k]].  Every subscript of the module is on a key that is present
    ([ONES_present], [TENS_present] below), so the [KeyError] of a missing
    key, here the empty string, does not show. *)
Definition subscript (d : list (Z * str)) (k : Z) : str :=
  match dict_get d k with Some v => v | None => [] end.

Definition ONES : list (Z * str) := Eval vm_compute in
  [ (0, lit ""); (1, lit "бир"); (2, lit "икки"); (3, lit "уч");
    (4, lit "тўрт"); (5, lit "беш"); (6, lit "олти"); (7, lit "етти");
    (8, lit "саккиз"); (9, lit "тўққиз") ]%Z.

Definition TENS : list (Z * str) := Eval vm_compute in
  [ (10, lit "ўн"); (20, lit "йигирма"); (30, lit "ўттиз");
    (40, lit "қирқ"); (50, lit "эллик"); (60, lit "олтмиш");
    (70, lit "етмиш"); (80, lit "саксон"); (90, lit "тўқсон") ]%Z.

Definition SCALES : list (Z * str) := Eval vm_compute in
  [ (100, lit "юз"); (1000, lit "минг"); (1000000, lit "миллион");
    (1000000000, lit "миллиард") ]%Z.

(** [if remainder > 0: result += " " + words] *)
Definition add_remainder (result : str) (remainder : Z) (words : str) : str :=
  if (remainder >? 0)%Z then result ++ lit " " ++ words else result.

(** The recursive calls of [number_to_uzbek_words] are on [abs(num)] for a
    negative number, on a quotient or a remainder otherwise; they go down
    in this rank. *)
Definition ntw_rank (num : Z) : nat :=
  if (num <? 0)%Z then 6 + Z.to_nat (Z.log2 (Z.abs num))
  else if (num <? 100)%Z then 0
  else if (num <? 1000)%Z then 1
  else if (num <? 1000000)%Z then 2
  else if (num <? 1000000000)%Z then 3
  else 4 + Z.to_nat (Z.log2 num).

Lemma ntw_rank_small (num : Z) :
  (0 <= num < 1000000000)%Z -> ntw_rank num <= 3.
Proof.
  intros H. unfold ntw_rank.
  repeat match goal with
         | |- context [(?a <? ?b)%Z] => destruct (Z.ltb_spec a b)
         end; lia.
Qed.

Lemma ntw_rank_quotient (num : Z) :
  (1000000000 <= num)%Z ->
  ntw_rank (num / 1000000000) < 4 + Z.to_nat (Z.log2 num).
Proof.
  intros H.
  assert (Hq : (0 <= num / 1000000000)%Z) by (apply Z.div_pos; lia).
  destruct (Z_lt_dec (num / 1000000000) 1000000000) as [Hs|Hs].
  - pose proof (@ntw_rank_small (num / 1000000000)). lia.
  - unfold ntw_rank.
    repeat match goal with
           | |- context [(?a <? ?b)%Z] => destruct (Z.ltb_spec a b)
           end; try lia.
    assert (Hdbl : (2 * (num / 1000000000) <= num)%Z).
    { pose proof (Z.mul_div_le num 1000000000). lia. }
    apply Z.log2_le_mono in Hdbl.
    rewrite Z.log2_double in Hdbl by lia.
    pose proof (Z.log2_nonneg (num / 1000000000)). lia.
Qed.

Equations? number_to_uzbek_words (num : Z) : str by wf (ntw_rank num) lt :=
  number_to_uzbek_words num with Z.eq_dec num 0 => {
  | left _ := lit "нол"
  | right _ with Z_lt_dec num 0 => {
    | left _ := lit "минус " ++ number_to_uzbek_words (Z.abs num)
    | right _ with Z_ge_dec num 1000000000 => {
      | left _ :=
          add_remainder
            (number_to_uzbek_words (num / 1000000000) ++ lit " миллиард")
            (num mod 1000000000)
            (number_to_uzbek_words (num mod 1000000000))
      | right _ with Z_ge_dec num 1000000 => {
        | left _ :=
            add_remainder
              (number_to_uzbek_words (num / 1000000) ++ lit " миллион")
              (num mod 1000000)
              (number_to_uzbek_words (num mod 1000000))
        | right _ with Z_ge_dec num 1000 => {
          | left _ :=
              add_remainder
                (if (num / 1000 =? 1)%Z then lit "минг"
                 else number_to_uzbek_words (num / 1000) ++ lit " минг")
                (num mod 1000)
                (number_to_uzbek_words (num mod 1000))
          | right _ with Z_ge_dec num 100 => {
            | left _ :=
                add_remainder
                  (if (num / 100 =? 1)%Z then lit "юз"
                   else subscript ONES (num / 100) ++ lit " юз")
                  (num mod 100)
                  (number_to_uzbek_words (num mod 100))
            | right _ with Z_ge_dec num 10 => {
              | left _ :=
                  add_remainder
                    (subscript TENS ((num / 10) * 10))
                    (num mod 10)
                    (subscript ONES (num mod 10))
              | right _ := subscript ONES num } } } } } } }.
Proof.
  all: try match goal with
       | |- ntw_rank (_ / 1000000000) < _ =>
         let R := fresh in
         pose proof (@ntw_rank_quotient num ltac:(lia)) as R;
         unfold ntw_rank at 2;
         repeat match goal with
                | |- context [(?a <? ?b)%Z] => destruct (Z.ltb_spec a b)
                end; lia
       end.
  all: match goal with
       | |- ntw_rank ?x < _ =>
         let R := fresh in
         assert (R : ntw_rank x <= 4 + Z.to_nat (Z.log2 (Z.abs num)))
       end.
  all: try (unfold ntw_rank;
            repeat match goal with
                   | |- context [(?a <? ?b)%Z] => destruct (Z.ltb_spec a b)
                   end; lia).
  all: unfold ntw_rank in *.
  all: try match goal with
       | |- context [(?a mod ?b)%Z] =>
         pose proof (Z.mod_pos_bound a b ltac:(lia))
       end.
  all: try match goal with
       | |- context [(?a / ?b)%Z] =>
         pose proof (Z.div_lt_upper_bound a b 1000 ltac:(lia) ltac:(lia));
         pose proof (Z.div_pos a b ltac:(lia) ltac:(lia))
       end.
  all: repeat match goal with
       | |- context [(?a <? ?b)%Z] => destruct (Z.ltb_spec a b)
       end; try lia.
Qed.

(** ** The subscripts with their [KeyError] *)

(** [number_to_uzbek_words] once more, with [None] for the [KeyError] of a
    subscript on a missing key. *)
Definition add_remainder_checked (result : option str) (remainder : Z)
  (words : option str) : option str :=
  match result with
  | None => None
  | Some r =>
    if (remainder >? 0)%Z then
      match words with
      | Some w => Some (r ++ lit " " ++ w)
      | None => None
      end
    else Some r
  end.

Definition append_checked (result : option str) (suffix : str) : option str :=
  match result with
  | Some r => Some (r ++ suffix)
  | None => None
  end.

Equations? number_to_uzbek_words_checked (num : Z) : option str
  by wf (ntw_rank num) lt :=
  number_to_uzbek_words_checked num with Z.eq_dec num 0 => {
  | left _ := Some (lit "нол")
  | right _ with Z_lt_dec num 0 => {
    | left _ :=
        match number_to_uzbek_words_checked (Z.abs num) with
        | Some w => Some (lit "минус " ++ w)
        | None => None
        end
    | right _ with Z_ge_dec num 1000000000 => {
      | left _ :=
          add_remainder_checked
            (append_checked (number_to_uzbek_words_checked (num / 1000000000))
                            (lit " миллиард"))
            (num mod 1000000000)
            (number_to_uzbek_words_checked (num mod 1000000000))
      | right _ with Z_ge_dec num 1000000 => {
        | left _ :=
            add_remainder_checked
              (append_checked (number_to_uzbek_words_checked (num / 1000000))
                              (lit " миллион"))
              (num mod 1000000)
              (number_to_uzbek_words_checked (num mod 1000000))
        | right _ with Z_ge_dec num 1000 => {
          | left _ :=
              add_remainder_checked
                (if (num / 1000 =? 1)%Z then Some (lit "минг")
                 else append_checked
                        (number_to_uzbek_words_checked (num / 1000))
                        (lit " минг"))
                (num mod 1000)
                (number_to_uzbek_words_checked (num mod 1000))
          | right _ with Z_ge_dec num 100 => {
            | left _ :=
                add_remainder_checked
                  (if (num / 100 =? 1)%Z then Some (lit "юз")
                   else append_checked (dict_get ONES (num / 100))
                                       (lit " юз"))
                  (num mod 100)
                  (number_to_uzbek_words_checked (num mod 100))
            | right _ with Z_ge_dec num 10 => {
              | left _ :=
                  add_remainder_checked
                    (dict_get TENS ((num / 10) * 10))
                    (num mod 10)
                    (dict_get ONES (num mod 10))
              | right _ := dict_get ONES num } } } } } } }.
Proof.
  all: try match goal with
       | |- ntw_rank (_ / 1000000000) < _ =>
         let R := fresh in
         pose proof (@ntw_rank_quotient num ltac:(lia)) as R;
         unfold ntw_rank at 2;
         repeat match goal with
                | |- context [(?a <? ?b)%Z] => destruct (Z.ltb_spec a b)
                end; lia
       end.
  all: match goal with
       | |- ntw_rank ?x < _ =>
         let R := fresh in
         assert (R : ntw_rank x <= 4 + Z.to_nat (Z.log2 (Z.abs num)))
       end.
  all: try (unfold ntw_rank;
            repeat match goal with
                   | |- context [(?a <? ?b)%Z] => destruct (Z.ltb_spec a b)
                   end; lia).
  all: unfold ntw_rank in *.
  all: try match goal with
       | |- context [(?a mod ?b)%Z] =>
         pose proof (Z.mod_pos_bound a b ltac:(lia))
       end.
  all: try match goal with
       | |- context [(?a / ?b)%Z] =>
         pose proof (Z.div_lt_upper_bound a b 1000 ltac:(lia) ltac:(lia));
         pose proof (Z.div_pos a b ltac:(lia) ltac:(lia))
       end.
  all: repeat match goal with
       | |- context [(?a <? ?b)%Z] => destruct (Z.ltb_spec a b)
       end; try lia.
Qed.

Section InText.
Context {U : Unicode.Data}.

(** [(\d+)-] *)
Definition ordinal_re : Re.matcher :=
  Re.m_plus is_decimal (Re.m_char (char_eqb 0x2D%N) Re.m_end).

(** [\d+[.,]?\d*] *)
Definition is_separator (c : char) : bool :=
  char_eqb c 0x2E%N || char_eqb c 0x2C%N.

Definition number_re : Re.matcher :=
  Re.m_plus is_decimal (Re.m_opt is_separator (Re.m_star is_decimal Re.m_end)).

(** [match] is the text of group 0; group 1 is the match without the
    hyphen that ends it.  The [except] returns the match for a number of
    more digits than [int] accepts. *)
Definition replace_ordinal (match_ : str) : str :=
  let num_str := removelast match_ in
  match int num_str with
  | Some num => number_to_uzbek_words num ++ lit " инчи "
  | None => match_
  end.

(** The body of [for part in parts].  [int] is called outside any [try]
    here: [None] is its [ValueError], for a part of more digits than [int]
    accepts. *)
Definition decimal_part (result : list str) (part : str)
  : option (list str) :=
  if str_isdigit (strip part) then
    match int (strip part) with
    | Some num => Some (result ++ [number_to_uzbek_words num])
    | None => None
    end
  else if str_eqb part [] then Some (result ++ [lit "вергул"])
  else Some result.

(** [None] is the [ValueError] that leaves the branch of the decimals; in
    the branch of the integers the [except] returns the match. *)
Definition replace_number (match_ : str) : option str :=
  let num_str := match_ in
  if contains 0x2E%N num_str || contains 0x2C%N num_str then
    let num_str :=
      replace (replace num_str (lit ".") (lit " вергул "))
              (lit ",") (lit " вергул ") in
    let parts := split_sep num_str (lit " вергул ") in
    match for_each decimal_part parts [] with
    | Some result => Some (join (lit " ") result)
    | None => None
    end
  else
    match int num_str with
    | Some num => Some (number_to_uzbek_words num)
    | None => Some num_str
    end.

(** [None] is the [ValueError] of [replace_number], which nothing in the
    function catches. *)
Definition convert_numbers_in_text (text : str) : option str :=
  let result := Re.sub ordinal_re replace_ordinal text in
  let result := Re.sub_raising number_re replace_number result in
  result.

End InText.

End Numbers.

(* ===================================================================== *)
(** * bot/transliterate.py *)
(* ===================================================================== *)

Module Transliterate.

(** The dictionary, in insertion order (the order in which [items()]
    yields it). *)
Definition LATIN_TO_CYRILLIC : list (str * str) := Eval vm_compute in
  [ (lit "sh", lit "ш"); (lit "ch", lit "ч"); (lit "ng", lit "нг");
    (lit "gh", lit "ғ"); (lit "o'", lit "ў"); (lit "g'", lit "ғ");
    (lit "yo", lit "ё"); (lit "ya", lit "я"); (lit "ye", lit "е");
    (lit "Sh", lit "Ш"); (lit "Ch", lit "Ч"); (lit "Ng", lit "Нг");
    (lit "Gh", lit "Ғ"); (lit "O'", lit "Ў"); (lit "G'", lit "Ғ");
    (lit "Yo", lit "Ё"); (lit "Ya", lit "Я"); (lit "Ye", lit "Е");
    (lit "SH", lit "Ш"); (lit "CH", lit "Ч"); (lit "NG", lit "НГ");
    (lit "GH", lit "Ғ"); (lit "YO", lit "Ё"); (lit "YA", lit "Я");
    (lit "YE", lit "Е");
    (lit "a", lit "а"); (lit "b", lit "б"); (lit "d", lit "д");
    (lit "e", lit "е"); (lit "f", lit "ф"); (lit "g", lit "г");
    (lit "h", lit "ҳ"); (lit "i", lit "и"); (lit "j", lit "ж");
    (lit "k", lit "к"); (lit "l", lit "л"); (lit "m", lit "м");
    (lit "n", lit "н"); (lit "o", lit "о"); (lit "p", lit "п");
    (lit "q", lit "қ"); (lit "r", lit "р"); (lit "s", lit "с");
    (lit "t", lit "т"); (lit "u", lit "у"); (lit "v", lit "в");
    (lit "x", lit "х"); (lit "y", lit "й"); (lit "z", lit "з");
    (lit "A", lit "А"); (lit "B", lit "Б"); (lit "D", lit "Д");
    (lit "E", lit "Е"); (lit "F", lit "Ф"); (lit "G", lit "Г");
    (lit "H", lit "Ҳ"); (lit "I", lit "И"); (lit "J", lit "Ж");
    (lit "K", lit "К"); (lit "L", lit "Л"); (lit "M", lit "М");
    (lit "N", lit "Н"); (lit "O", lit "О"); (lit "P", lit "П");
    (lit "Q", lit "Қ"); (lit "R", lit "Р"); (lit "S", lit "С");
    (lit "T", lit "Т"); (lit "U", lit "У"); (lit "V", lit "В");
    (lit "X", lit "Х"); (lit "Y", lit "Й"); (lit "Z", lit "З") ].

(** The list of the source holds U+0027 three times, then U+0060, U+02BB
    and U+02BC. *)
Definition apostrophe_variants : list str :=
  [ [0x27]; [0x27]; [0x27]; [0x60]; [0x2BB]; [0x2BC] ]%N.

Definition normalize_apostrophes (text : str) : str :=
  fold_left (fun result variant => replace result variant (lit "'"))
            apostrophe_variants text.

Definition replace_multi (result : str) (entry : str * str) : str :=
  let (latin, cyrillic) := entry in
  if (1 <? length latin)%nat then replace result latin cyrillic else result.

Definition replace_single (result : str) (entry : str * str) : str :=
  let (latin, cyrillic) := entry in
  if (length latin =? 1)%nat then replace result latin cyrillic else result.

Definition latin_to_cyrillic (text : str) : str :=
  let result := text in
  let result := normalize_apostrophes result in
  let result := fold_left replace_multi LATIN_TO_CYRILLIC result in
  let result := fold_left replace_single LATIN_TO_CYRILLIC result in
  result.

(** Lexicographic [a <= b] on strings. *)
Fixpoint str_le (a b : str) : bool :=
  match a, b with
  | [], _ => true
  | _ :: _, [] => false
  | x :: a', y :: b' => (x <? y)%N || (x =? y)%N && str_le a' b'
  end.

Section Detect.
Context {U : Unicode.Data}.

(** ['Ѐ' <= c <= 'ӿ'] *)
Definition is_cyrillic (c : char) : bool :=
  ((0x400 <=? c) && (c <=? 0x4FF))%N.

(** [c.isalpha() and ('a' <= c.lower() <= 'z')] *)
Definition is_latin (c : char) : bool :=
  isalpha c && (str_le (lit "a") (lower c) && str_le (lower c) (lit "z")).

(** [sum(1 for c in text if p(c))] *)
Definition count (p : char -> bool) (text : str) : Z :=
  Z.of_nat (length (filter p text)).

Definition transliterate_if_latin (text : str) : str * bool :=
  let cyrillic_count := count is_cyrillic text in
  let latin_count := count is_latin text in
  if (latin_count >? cyrillic_count)%Z then
    let transliterated := latin_to_cyrillic text in
    (transliterated, true)
  else (text, false).

End Detect.

End Transliterate.

(* ===================================================================== *)
(** * bot/text_processor.py *)
(* ===================================================================== *)

Module TextProcessor.
Import Transliterate.

Section Detect.
Context {U : Unicode.Data}.

Definition detect_script (text : str) : str :=
  let cyrillic_count := count is_cyrillic text in
  let latin_count := count is_latin text in
  if (cyrillic_count >? latin_count)%Z then lit "Cyrillic"
  else if (latin_count >? 0)%Z then lit "Latin"
  else lit "Unknown".

End Detect.


Section Clean.
Context {U : Unicode.Data} {C : Unicode.Casing}.

(** [while '..' in result: result = result.replace('..', '.')].  A round
    shortens [result], so that [fuel = len(result)] rounds are enough
    ([collapse_periods_done] below). *)
Fixpoint collapse_periods (fuel : nat) (result : str) : str :=
  match fuel with
  | O => result
  | S fuel' =>
    if contains_str result (lit "..")
    then collapse_periods fuel' (replace result (lit "..") (lit "."))
    else result
  end.

Definition remove_hashtag (text hashtag : str) : str :=
  let result := replace_all text hashtag [] in
  let result := replace_all result (to_upper hashtag) [] in
  let result := replace_all result (to_lower hashtag) [] in
  let result := replace_all result (to_capitalized hashtag) [] in
  let result := replace result [0x0A%N] (lit ". ") in
  let result := replace result [0x0D%N] (lit ". ") in
  let result := join (lit " ") (split_ws result) in
  let result := collapse_periods (length result) result in
  let result := replace result (lit ". . ") (lit ". ") in
  strip result.

Definition validate_text (text : str) : bool :=
  if negb (truth text) || negb (truth (strip text)) then false
  else if negb (existsb isalpha text) then false
  else true.

(** [None] is the [None] of the source. *)
Definition process_text (text hashtag : str) : option str :=
  let cleaned := remove_hashtag text hashtag in
  if negb (validate_text cleaned) then None
  else Some cleaned.

End Clean.

End TextProcessor.

(* ===================================================================== *)
(** * bot/acronyms.py *)
(* ===================================================================== *)

Module Acronyms.

(** A [dict] whose keys are single characters. *)
Fixpoint letter_get (d : list (char * str)) (k : char) : option str :=
  match d with
  | [] => None
  | (k', v) :: d' => if char_eqb k k' then Some v else letter_get d' k
  end.

Definition letters (keys : string) (names : list string) : list (char * str) :=
  combine (lit keys) (map lit names).

Definition LETTER_NAMES_CYRILLIC : list (char * str) := Eval vm_compute in
  letters "АБВГДЕЁЖЗИЙКЛМНОПРСТУФХҲЦЧШЪЬЭЮЯҒҚЎ"
    [ "а"; "бе"; "ве"; "ге"; "де"; "е"; "ё"; "же"; "зе"; "и"; "й"; "ка";
      "эл"; "эм"; "эн"; "о"; "пе"; "эр"; "эс"; "те"; "у"; "эф"; "ха";
      "ҳа"; "це"; "че"; "ша"; "ъ"; "ь"; "э"; "ю"; "я"; "ға"; "қа";
      "ў" ]%string.

Definition LETTER_NAMES_LATIN : list (char * str) := Eval vm_compute in
  letters "ABCDEFGHIJKLMNOPQRSTUVWXYZ"
    [ "а"; "бе"; "се"; "де"; "е"; "эф"; "ге"; "аш"; "и"; "же"; "ка";
      "эл"; "эм"; "эн"; "о"; "пе"; "қа"; "эр"; "эс"; "те"; "у"; "ве";
      "дабл ю"; "экс"; "уай"; "зе" ]%string.

Section Spell.
Context {U : Unicode.Data}.

(** The body of [for char in word]. *)
Definition letter_name (char_ : char) : str :=
  match letter_get LETTER_NAMES_CYRILLIC char_ with
  | Some name => name
  | None =>
    match letter_get LETTER_NAMES_LATIN char_ with
    | Some name => name
    | None => lower char_
    end
  end.

Definition spell_out_acronym (word : str) : str :=
  let letters := map letter_name word in
  join (lit "-") letters.

(** [[A-ZА-ЯЁҚҒҲЎ]] *)
Definition acronym_class (c : char) : bool :=
  ((0x41 <=? c) && (c <=? 0x5A) || (0x410 <=? c) && (c <=? 0x42F)
   || char_eqb c 0x401 || char_eqb c 0x49A || char_eqb c 0x492
   || char_eqb c 0x4B2 || char_eqb c 0x40E)%N.

(** [\b[A-ZА-ЯЁҚҒҲЎ]+\b] *)
Definition acronym_re : Re.matcher :=
  Re.m_boundary is_word
    (Re.m_plus acronym_class (Re.m_boundary is_word Re.m_end)).

Definition replace_acronym (word : str) : str :=
  if (len word >=? 2)%Z && str_isupper word && str_isalpha word then
    let spelled := spell_out_acronym word in
    spelled
  else word.

Definition process_acronyms_in_text (text : str) : str :=
  Re.sub acronym_re replace_acronym text.

End Spell.

End Acronyms.

(* ===================================================================== *)
(** * bot/tts_engine.py: the order of the stages *)
(* ===================================================================== *)

Module TtsEngine.
Import Numbers Transliterate Acronyms.

Section Normalize.
Context {U : Unicode.Data}.

(** Steps 1 to 3 of [_generate_speech]: the text handed to the lower-casing
    and the tokenizer, with the flag [was_latin].  [None] is the
    [ValueError] of step 2, which [_generate_speech] does not catch. *)
Definition normalize (text : str) : option (str * bool) :=
  let text_with_acronyms := process_acronyms_in_text text in
  match convert_numbers_in_text text_with_acronyms with
  | Some text_with_words => Some (transliterate_if_latin text_with_words)
  | None => None
  end.

End Normalize.

End TtsEngine.

(* ===================================================================== *)
(** * bot/text_splitter.py *)
(* ===================================================================== *)

Module TextSplitter.

(** [if s:] on a string *)
Definition nonempty (s : str) : bool :=
  match s with [] => false | _ => true end.

(** [range(start, stop, step)] for a positive [step]; [stop] steps are
    enough to pass [stop]. *)
Fixpoint range_from (fuel : nat) (i stop step : nat) : list nat :=
  match fuel with
  | O => []
  | S fuel' =>
    if (i <? stop)%nat then i :: range_from fuel' (i + step) stop step
    else []
  end.

Definition range (start stop step : nat) : list nat :=
  range_from stop start stop step.

(** [for i in range(0, len(word), max_length):
       chunks.append(word[i:i + max_length])] *)
Definition char_slices (word : str) (max_length : Z) : list str :=
  let m := Z.to_nat max_length in
  map (fun i => slice word i (i + m)) (range 0 (length word) m).

(** The state of both loops: the chunks so far and the current chunk. *)
Definition state : Type := list str * str.

Definition flush (chunks : list str) (current_chunk : str) : list str :=
  if nonempty current_chunk then chunks ++ [strip current_chunk] else chunks.

(** The body of [for word in words]. *)
Definition word_step (max_length : Z) (st : state) (word : str) : state :=
  let (chunks, current_chunk) := st in
  if (len word >? max_length)%Z then
    (flush chunks current_chunk ++ char_slices word max_length, [])
  else if (len current_chunk + len word + 1 >? max_length)%Z then
    (flush chunks current_chunk, word)
  else if nonempty current_chunk then (chunks, current_chunk ++ lit " " ++ word)
  else (chunks, word).

(** [max_length] is the clamped ceiling, at least 2000, at the only call. *)
Definition _split_by_words (text : str) (max_length : Z) : list str :=
  let words := split_ws text in
  let (chunks, current_chunk) :=
    fold_left (word_step max_length) words ([], []) in
  flush chunks current_chunk.

(** [[.!?]+\s+], the only group of the pattern of [re.split] *)
Definition is_terminal (c : char) : bool :=
  char_eqb c 0x2E%N || char_eqb c 0x21%N || char_eqb c 0x3F%N.

Definition sentence_re : Re.matcher :=
  Re.m_plus is_terminal (Re.m_plus isspace Re.m_end).

(** [for i in range(0, len(sentences) - 1, 2)]: [i + 1 < len(sentences)]
    holds at every [i] of the range, the [else] branch is not taken. *)
Fixpoint pair_up (sentences : list str) : list str :=
  match sentences with
  | a :: b :: rest => (a ++ b) :: pair_up rest
  | _ => []
  end.

Definition reconstruct (sentences : list str) : list str :=
  pair_up sentences
  ++ (if Nat.odd (length sentences) then [last sentences []] else []).

(** [reconstructed_sentences] *)
Definition sentence_units (text : str) : list str :=
  reconstruct (Re.split sentence_re text).

(** The body of [for sentence in reconstructed_sentences]. *)
Definition sentence_step (max_length : Z) (st : state) (sentence : str)
  : state :=
  let (chunks, current_chunk) := st in
  if (len sentence >? max_length)%Z then
    (chunks ++ _split_by_words sentence max_length, [])
  else if (len current_chunk + len sentence >? max_length)%Z then
    if nonempty current_chunk && (len current_chunk >=? 2000)%Z then
      (chunks ++ [strip current_chunk], sentence)
    else (chunks, current_chunk ++ sentence)
  else (chunks, current_chunk ++ sentence).

Definition clamp (max_length : Z) : Z :=
  if (max_length <? 2000)%Z then 2000%Z else max_length.

Definition split_text (text : str) (max_length : Z) : list str :=
  let max_length := clamp max_length in
  if negb (nonempty text) || negb (nonempty (strip text)) then []
  else if (len text <=? max_length)%Z then [text]
  else
    let (chunks, current_chunk) :=
      fold_left (sentence_step max_length) (sentence_units text) ([], []) in
    let chunks := flush chunks current_chunk in
    filter (fun chunk => nonempty (strip chunk)) chunks.

End TextSplitter.

(* ===================================================================== *)
(** * Evaluation on the basic Latin and Cyrillic blocks *)
(* ===================================================================== *)

(* ===================================================================== *)
(** * bot/cache.py *)
(* ===================================================================== *)

Module Cache.

Section AudioCache.

(** The audio bytes, and [hashlib.sha256(data).hexdigest()], taken as it
    is. *)
Variable bytes : Type.
Variable sha256_hexdigest : list N -> str.

(** [None] is the [UnicodeEncodeError] of [text.encode()]. *)
Definition _get_hash (text : str) : option str :=
  option_map sha256_hexdigest (encode text).

(** The fields of an [AudioCache]; [cache] is a [dict], kept in insertion
    order. *)
Record t : Type := {
  max_size : Z;
  cache : list (str * bytes);
  access_order : list str
}.

(** [AudioCache(max_size)] *)
Definition init (max_size : Z) : t :=
  {| max_size := max_size; cache := []; access_order := [] |}.

(** [k in d], [d[k]] *)
Fixpoint lookup (d : list (str * bytes)) (k : str) : option bytes :=
  match d with
  | [] => None
  | (k', v) :: d' => if str_eqb k k' then Some v else lookup d' k
  end.

Definition has_key (d : list (str * bytes)) (k : str) : bool :=
  match lookup d k with Some _ => true | None => false end.

(** [d[k] = v]: the value of a present key is replaced where it stands, a
    new key goes to the end. *)
Fixpoint assign (d : list (str * bytes)) (k : str) (v : bytes)
  : list (str * bytes) :=
  match d with
  | [] => [(k, v)]
  | (k', v') :: d' =>
    if str_eqb k k' then (k', v) :: d' else (k', v') :: assign d' k v
  end.

(** [del d[k]]; [None] is [KeyError]. *)
Fixpoint delete (d : list (str * bytes)) (k : str)
  : option (list (str * bytes)) :=
  match d with
  | [] => None
  | (k', v') :: d' =>
    if str_eqb k k' then Some d'
    else match delete d' k with
         | Some r => Some ((k', v') :: r)
         | None => None
         end
  end.

(** [l.remove(k)]: the first occurrence goes; [None] is [ValueError]. *)
Fixpoint list_remove (l : list str) (k : str) : option (list str) :=
  match l with
  | [] => None
  | k' :: l' =>
    if str_eqb k k' then Some l'
    else match list_remove l' k with
         | Some r => Some (k' :: r)
         | None => None
         end
  end.

(** [k in l] *)
Definition list_has (l : list str) (k : str) : bool := existsb (str_eqb k) l.

(** [get]: the cache after the call and the returned value, [None] inside
    for a miss; [None] outside is an exception. *)
Definition get (self : t) (text : str) : option (t * option bytes) :=
  match _get_hash text with
  | None => None
  | Some text_hash =>
    if has_key self.(cache) text_hash then
      match list_remove self.(access_order) text_hash with
      | None => None
      | Some order =>
        Some ({| max_size := self.(max_size);
                 cache := self.(cache);
                 access_order := order ++ [text_hash] |},
              lookup self.(cache) text_hash)
      end
    else Some (self, None)
  end.

(** The eviction of [set]: [access_order.pop(0)], [None] being
    [IndexError], then [del self.cache[evicted_hash]]. *)
Definition evict (self : t) : option t :=
  match self.(access_order) with
  | [] => None
  | evicted_hash :: order =>
    match delete self.(cache) evicted_hash with
    | None => None
    | Some d =>
      Some {| max_size := self.(max_size); cache := d;
              access_order := order |}
    end
  end.

Definition set (self : t) (text : str) (audio_bytes : bytes) : option t :=
  match _get_hash text with
  | None => None
  | Some text_hash =>
    let evicted :=
      if (Z.of_nat (length self.(cache)) >=? self.(max_size))%Z
         && negb (has_key self.(cache) text_hash)
      then evict self else Some self in
    match evicted with
    | None => None
    | Some self =>
      let d := assign self.(cache) text_hash audio_bytes in
      let order :=
        if list_has self.(access_order) text_hash
        then list_remove self.(access_order) text_hash
        else Some self.(access_order) in
      match order with
      | None => None
      | Some order =>
        Some {| max_size := self.(max_size); cache := d;
                access_order := order ++ [text_hash] |}
      end
    end
  end.

Definition clear (self : t) : t :=
  {| max_size := self.(max_size); cache := []; access_order := [] |}.

End AudioCache.

End Cache.

(* ===================================================================== *)
(** * bot/states.py *)
(* ===================================================================== *)

Module States.

(** [_user_states], a [dict] from user ids to state names. *)
Definition states : Type := list (Z * str).

Fixpoint state_get (d : states) (user_id : Z) : option str :=
  match d with
  | [] => None
  | (k, v) :: d' => if Z.eqb user_id k then Some v else state_get d' user_id
  end.

Fixpoint state_assign (d : states) (user_id : Z) (state : str) : states :=
  match d with
  | [] => [(user_id, state)]
  | (k, v) :: d' =>
    if Z.eqb user_id k then (k, state) :: d'
    else (k, v) :: state_assign d' user_id state
  end.

Fixpoint state_delete (d : states) (user_id : Z) : states :=
  match d with
  | [] => []
  | (k, v) :: d' =>
    if Z.eqb user_id k then d' else (k, v) :: state_delete d' user_id
  end.

Definition set_user_state (_user_states : states) (user_id : Z) (state : str)
  : states :=
  state_assign _user_states user_id state.

(** [_user_states.get(user_id, 'tts_mode')] *)
Definition get_user_state (_user_states : states) (user_id : Z) : str :=
  match state_get _user_states user_id with
  | Some state => state
  | None => lit "tts_mode"
  end.

(** [if user_id in _user_states: del _user_states[user_id]] *)
Definition clear_user_state (_user_states : states) (user_id : Z) : states :=
  match state_get _user_states user_id with
  | Some _ => state_delete _user_states user_id
  | None => _user_states
  end.

End States.

Module Finite.

(** A property of code points checked on all code points below [n]. *)
Definition below (n : nat) (P : char -> bool) : bool :=
  forallb (fun i => P (N.of_nat i)) (seq 0 n).

Lemma below_spec (n : nat) (P : char -> bool) :
  below n P = true -> forall c, (c < N.of_nat n)%N -> P c = true.
Proof.
  unfold below. rewrite forallb_forall. intros H c Hc.
  rewrite <- (N2Nat.id c). apply H. apply in_seq. lia.
Qed.

End Finite.

Import Finite.

Module Basic.
Import Unicode.

Ltac to_prop H :=
  unfold char_eqb in H;
  repeat rewrite ?orb_true_iff, ?andb_true_iff, ?N.leb_le, ?N.ltb_lt,
    ?N.eqb_eq in H.

Lemma capital_below (c : char) : capital c = true -> (c < N.of_nat 0x500)%N.
Proof. unfold capital. intros H. to_prop H. lia. Qed.

Lemma capital_implies (P : char -> bool) :
  below 0x500 (fun c => implb (capital c) (P c)) = true ->
  forall c, capital c = true -> P c = true.
Proof.
  intros H c Hc. pose proof (@below_spec _ _ H c (@capital_below c Hc)) as Hi.
  simpl in Hi. rewrite Hc in Hi. exact Hi.
Qed.

Lemma basic_capital_isalpha c : capital c = true -> basic_isalpha c = true.
Proof. revert c. apply capital_implies. vm_compute. reflexivity. Qed.

Lemma basic_capital_isalnum c : capital c = true -> basic_isalnum c = true.
Proof. revert c. apply capital_implies. vm_compute. reflexivity. Qed.

Lemma basic_capital_isupper c : capital c = true -> basic_isupper c = true.
Proof. revert c. apply capital_implies. vm_compute. reflexivity. Qed.

Lemma basic_capital_islower c : capital c = true -> basic_islower c = false.
Proof.
  intros H. apply negb_true_iff. revert c H.
  apply (capital_implies (fun c => negb (basic_islower c))).
  vm_compute. reflexivity.
Qed.

Lemma basic_lower_cyrillic_capital c :
  (0x410 <=? c)%N && (c <=? 0x42F)%N = true -> basic_lower c = [(c + 0x20)%N].
Proof.
  intros H. unfold basic_lower. rewrite H. to_prop H.
  destruct (N.leb_spec 0x41 c); destruct (N.leb_spec c 0x5A);
    destruct (N.leb_spec 0x400 c); destruct (N.leb_spec c 0x40F);
    simpl; try reflexivity; lia.
Qed.

Lemma basic_decimal_ascii c :
  (c <? 0x80)%N = true ->
  basic_decimal c = if ((0x30 <=? c) && (c <=? 0x39))%N
                    then Some (Z.of_N c - 0x30)%Z else None.
Proof. reflexivity. Qed.

Lemma basic_decimal_cyrillic c :
  in_cyrillic_block c = true -> basic_decimal c = None.
Proof.
  unfold in_cyrillic_block. intros H. to_prop H. unfold basic_decimal.
  destruct (N.leb_spec 0x30 c); destruct (N.leb_spec c 0x39);
    simpl; try reflexivity; lia.
Qed.

#[export] Instance data : Unicode.Data := {|
  isalpha := basic_isalpha;
  isalnum := basic_isalnum;
  isupper := basic_isupper;
  islower := basic_islower;
  lower := basic_lower;
  decimal := basic_decimal;
  capital_isalpha := basic_capital_isalpha;
  capital_isalnum := basic_capital_isalnum;
  capital_isupper := basic_capital_isupper;
  capital_islower := basic_capital_islower;
  lower_cyrillic_capital := basic_lower_cyrillic_capital;
  decimal_ascii := basic_decimal_ascii;
  decimal_cyrillic := basic_decimal_cyrillic
|}.

End Basic.

(** The casing of ASCII strings. *)
Module AsciiCasing.

#[export] Instance casing : Unicode.Casing := {|
  to_upper := map ascii_upper_char;
  to_lower := map ascii_lower_char;
  to_capitalized := ascii_capitalize
|}.

End AsciiCasing.

Import Numbers Transliterate TextProcessor Acronyms TtsEngine TextSplitter.
Import States.


(* ===================================================================== *)
(** * Properties: Python strings *)
(* ===================================================================== *)

Section PyFacts.

Lemma char_eqb_eq (a b : char) : char_eqb a b = true <-> a = b.
Proof. apply N.eqb_eq. Qed.

Lemma char_eqb_neq (a b : char) : char_eqb a b = false <-> a <> b.
Proof. apply N.eqb_neq. Qed.

Lemma char_eqb_refl (a : char) : char_eqb a a = true.
Proof. apply N.eqb_refl. Qed.

Lemma str_eqb_eq (a b : str) : str_eqb a b = true <-> a = b.
Proof.
  revert b. induction a as [|x a IH]; intros [|y b]; simpl;
    try (split; [discriminate | discriminate]); [tauto|].
  rewrite andb_true_iff, char_eqb_eq, IH.
  split; [intros [-> ->]; reflexivity | intros E; inversion E; auto].
Qed.

(** Replacing a single character is a character-wise substitution. *)
Definition subst_char (a : char) (new : str) (c : char) : str :=
  if char_eqb a c then new else [c].

Lemma replace_char (s : str) (a : char) (new : str) :
  replace s [a] new = flat_map (subst_char a new) s.
Proof.
  unfold replace. induction s as [|c s IH]; [reflexivity|].
  simpl. unfold subst_char at 1. rewrite andb_true_r.
  destruct (char_eqb a c); simpl; rewrite IH; reflexivity.
Qed.

(** Replacing a pair of characters, read two characters at a time. *)
Lemma replace_from_one (old new : str) (c : char) (s : str) :
  replace_from old new 1 (c :: s) = replace_from old new 0 s.
Proof. reflexivity. Qed.

(** An occurrence of [p q] cannot start on the last character of [pre] nor
    on [x]: the replacement works on [pre] and [post] apart. *)
Lemma replace_pair_around (p q x : char) (new pre post : str) :
  q <> x ->
  (p = x -> hd_error post <> Some q) ->
  replace (pre ++ x :: post) [p; q] new
  = replace pre [p; q] new ++ x :: replace post [p; q] new.
Proof.
  intros Hq Hp. unfold replace.
  assert (G : forall skip, skip <= length pre ->
    replace_from [p; q] new skip (pre ++ x :: post)
    = replace_from [p; q] new skip pre
      ++ x :: replace_from [p; q] new 0 post).
  2: { apply G. lia. }
  induction pre as [|c pre IH]; intros skip Hs.
  - assert (skip = 0) by (simpl in Hs; lia). subst skip. simpl.
    destruct (char_eqb p x) eqn:E; simpl; [|reflexivity].
    apply char_eqb_eq in E. specialize (Hp E).
    destruct post as [|h post]; simpl; [reflexivity|].
    destruct (char_eqb q h) eqn:E2; simpl; [|reflexivity].
    apply char_eqb_eq in E2. subst h. simpl in Hp. congruence.
  - destruct skip as [|k].
    + simpl. destruct (char_eqb p c) eqn:E; simpl.
      * destruct pre as [|d pre]; simpl.
        -- destruct (char_eqb q x) eqn:E2; simpl.
           ++ apply char_eqb_eq in E2. contradiction.
           ++ f_equal. apply (IH 0). simpl. lia.
        -- destruct (char_eqb q d) eqn:E2; simpl.
           ++ rewrite <- app_assoc. f_equal. apply (IH 1). simpl. lia.
           ++ f_equal. apply (IH 0). simpl. lia.
      * f_equal. apply IH. lia.
    + simpl. apply IH. simpl in Hs. lia.
Qed.

(** The first character of the result of a replacement is the first
    character of the subject or of the new text. *)
Lemma replace_pair_hd (p q : char) (new s : str) (h : char) :
  new <> [] ->
  hd_error (replace s [p; q] new) = Some h ->
  hd_error s = Some h \/ hd_error new = Some h.
Proof.
  intros Hn. unfold replace. destruct s as [|c s]; simpl; [discriminate|].
  destruct (startswith (c :: s) [p; q]) eqn:E; simpl in E; rewrite E; simpl.
  - destruct new as [|n new]; [contradiction|]. simpl. auto.
  - auto.
Qed.

Lemma flat_map_subst_hd (a : char) (new s : str) (h : char) :
  new <> [] ->
  hd_error (flat_map (subst_char a new) s) = Some h ->
  hd_error s = Some h \/ hd_error new = Some h.
Proof.
  intros Hn. destruct s as [|c s]; simpl; [discriminate|].
  unfold subst_char at 1. destruct (char_eqb a c); simpl; [|auto].
  destruct new as [|n new]; [contradiction|]. simpl. auto.
Qed.

(** A property of the state that every step of a loop keeps holds after
    the loop. *)
Lemma fold_left_invariant (A B : Type) (f : A -> B -> A) (I : A -> Prop)
  (l : list B) (a : A) :
  I a -> (forall a b, I a -> In b l -> I (f a b)) -> I (fold_left f l a).
Proof.
  revert a. induction l as [|b l IH]; intros a Ha Hstep; simpl; [exact Ha|].
  apply IH.
  - apply Hstep; [exact Ha | left; reflexivity].
  - intros a' b' Ha' Hb'. apply Hstep; [exact Ha' | right; exact Hb'].
Qed.

End PyFacts.

(* ===================================================================== *)
(** * Properties: number words *)
(* ===================================================================== *)

Section NumberWords.

(** [number_to_uzbek_words] satisfies the equation its source text reads as:
    the chain of [if]s with the recursive calls. *)
Lemma number_to_uzbek_words_unfold (num : Z) :
  number_to_uzbek_words num =
  if (num =? 0)%Z then lit "нол"
  else if (num <? 0)%Z then lit "минус " ++ number_to_uzbek_words (Z.abs num)
  else if (num >=? 1000000000)%Z then
    add_remainder
      (number_to_uzbek_words (num / 1000000000) ++ lit " миллиард")
      (num mod 1000000000) (number_to_uzbek_words (num mod 1000000000))
  else if (num >=? 1000000)%Z then
    add_remainder
      (number_to_uzbek_words (num / 1000000) ++ lit " миллион")
      (num mod 1000000) (number_to_uzbek_words (num mod 1000000))
  else if (num >=? 1000)%Z then
    add_remainder
      (if (num / 1000 =? 1)%Z then lit "минг"
       else number_to_uzbek_words (num / 1000) ++ lit " минг")
      (num mod 1000) (number_to_uzbek_words (num mod 1000))
  else if (num >=? 100)%Z then
    add_remainder
      (if (num / 100 =? 1)%Z then lit "юз"
       else subscript ONES (num / 100) ++ lit " юз")
      (num mod 100) (number_to_uzbek_words (num mod 100))
  else if (num >=? 10)%Z then
    add_remainder (subscript TENS (num / 10 * 10)) (num mod 10)
                  (subscript ONES (num mod 10))
  else subscript ONES num.
Proof.
  rewrite number_to_uzbek_words_equation_1.
  destruct (Z.eqb_spec num 0) as [E|E];
    destruct (Z.eq_dec num 0) as [E'|E']; try contradiction; [reflexivity|].
  cbn [number_to_uzbek_words_unfold_clause_1].
  destruct (Z.ltb_spec num 0); destruct (Z_lt_dec num 0); try lia;
    [reflexivity|].
  cbn [number_to_uzbek_words_unfold_clause_1_clause_2].
  rewrite !Z.geb_leb.
  repeat match goal with
         | |- context [Z_ge_dec ?a ?b] =>
           destruct (Z_ge_dec a b); destruct (Z.leb_spec b a); try lia;
           cbn; try reflexivity
         end.
Qed.

(** The subscripts of [ONES] and [TENS] are on keys that are present. *)
Lemma ONES_present (k : Z) :
  (0 <= k <= 9)%Z -> dict_get ONES k <> None.
Proof.
  intros H.
  assert (D : (k = 0 \/ k = 1 \/ k = 2 \/ k = 3 \/ k = 4 \/ k = 5 \/ k = 6
               \/ k = 7 \/ k = 8 \/ k = 9)%Z) by lia.
  repeat (destruct D as [-> | D]; [discriminate|]). subst. discriminate.
Qed.

Lemma TENS_present (num : Z) :
  (10 <= num < 100)%Z -> dict_get TENS (num / 10 * 10) <> None.
Proof.
  intros H.
  assert (B : (1 <= num / 10 <= 9)%Z).
  { pose proof (Z.div_le_lower_bound num 10 1 ltac:(lia) ltac:(lia)).
    pose proof (Z.div_lt_upper_bound num 10 10 ltac:(lia) ltac:(lia)). lia. }
  assert (D : (num / 10 = 1 \/ num / 10 = 2 \/ num / 10 = 3 \/ num / 10 = 4
               \/ num / 10 = 5 \/ num / 10 = 6 \/ num / 10 = 7
               \/ num / 10 = 8 \/ num / 10 = 9)%Z) by lia.
  repeat (destruct D as [-> | D]; [discriminate|]). rewrite D. discriminate.
Qed.

(** C9.  The reference values of [number_to_uzbek_words]: zero is "нол"; a
    negative number [-n] is "минус " followed by the words of [n]; 1000 is
    "минг" and 100 is "юз", without a word for "one"; 42 is "қирқ икки" and
    2023 is "икки минг йигирма уч". *)
Theorem number_to_words_reference (n : Z) (Hn : (0 < n)%Z) :
  number_to_uzbek_words 0 = lit "нол"
  /\ number_to_uzbek_words (- n) = lit "минус " ++ number_to_uzbek_words n
  /\ number_to_uzbek_words 1000 = lit "минг"
  /\ number_to_uzbek_words 100 = lit "юз"
  /\ number_to_uzbek_words 42 = lit "қирқ икки"
  /\ number_to_uzbek_words 2023 = lit "икки минг йигирма уч".
Proof.
  split; [vm_compute; reflexivity|].
  split.
  - rewrite (number_to_uzbek_words_unfold (- n)).
    destruct (Z.eqb_spec (- n) 0); [lia|].
    destruct (Z.ltb_spec (- n) 0); [|lia].
    rewrite Z.abs_opp, Z.abs_eq by lia. reflexivity.
  - repeat split; vm_compute; reflexivity.
Qed.

Lemma number_to_words_reference_witness :
  (0 < 7)%Z
  /\ number_to_uzbek_words (- 7) = lit "минус " ++ number_to_uzbek_words 7.
Proof.
  assert (H : (0 < 7)%Z) by reflexivity.
  exact (conj H (proj1 (proj2 (number_to_words_reference H)))).
Defined.

End NumberWords.

(* ===================================================================== *)
(** * Properties: matching and substitution *)
(* ===================================================================== *)

Section ReFacts.

(** ** What a match covers *)







(** ** Matchers that cannot fail *)

Definition total (m : Re.matcher) : Prop :=
  forall prev s, m prev s <> None.

Lemma total_end : total Re.m_end.
Proof. intros prev s. discriminate. Qed.

Lemma total_star (p : char -> bool) (k : Re.matcher) :
  total k -> total (Re.m_star p k).
Proof.
  intros Hk prev s. revert prev. induction s as [|c s IH]; intros prev; simpl.
  - apply Hk.
  - destruct (p c); [|apply Hk].
    destruct (Re.m_star p k (Some c) s); [discriminate | apply Hk].
Qed.



Lemma plus_needs (p : char -> bool) (k : Re.matcher) (prev : option char)
  (c : char) (s : str) :
  p c = false -> Re.m_plus p k prev (c :: s) = None.
Proof. intros Hc. unfold Re.m_plus, Re.m_char. rewrite Hc. reflexivity. Qed.

(** ** The characters of a substitution *)

(** The result of [re.sub] is made of characters of replacements and of
    characters at which no match starts. *)
Lemma sub_from_forall (P : char -> Prop) (m : Re.matcher) (repl : str -> str) :
  (forall prev c s n, m prev (c :: s) = Some (S n) ->
     Forall P (repl (firstn (S n) (c :: s)))) ->
  (forall prev c s, m prev (c :: s) = None \/ m prev (c :: s) = Some 0 ->
     P c) ->
  forall s prev skip, Forall P (Re.sub_from m repl prev skip s).
Proof.
  intros Hrepl Hkeep. induction s as [|c s IH]; intros prev skip; simpl.
  - constructor.
  - destruct skip as [|k]; [|apply IH].
    destruct (m prev (c :: s)) as [[|n]|] eqn:E.
    + constructor; [eapply Hkeep; eauto | apply IH].
    + apply Forall_app. split; [eapply Hrepl; eauto | apply IH].
    + constructor; [eapply Hkeep; eauto | apply IH].
Qed.

(** ** A substitution on a text in two parts *)

(** The last character of [pre], or [prev] before an empty [pre]. *)
Fixpoint last_char (prev : option char) (pre : str) : option char :=
  match pre with
  | [] => prev
  | c :: pre' => last_char (Some c) pre'
  end.

(** Matching in a suffix of [pre] does not look into [s]. *)
Definition local_in (m : Re.matcher) (pre s : str) : Prop :=
  forall a b prev, pre = a ++ b -> b <> [] ->
    m prev (b ++ s) = m prev b
    /\ (forall n, m prev b = Some n -> n <= length b).

Lemma local_in_tail (m : Re.matcher) (c : char) (pre s : str) :
  local_in m (c :: pre) s -> local_in m pre s.
Proof.
  intros H a b prev -> Hb. apply (H (c :: a) b prev); [reflexivity | exact Hb].
Qed.

Lemma sub_from_app (m : Re.matcher) (repl : str -> str) (pre s : str) :
  local_in m pre s ->
  forall prev skip, skip <= length pre ->
    Re.sub_from m repl prev skip (pre ++ s)
    = Re.sub_from m repl prev skip pre
      ++ Re.sub_from m repl (last_char prev pre) 0 s.
Proof.
  induction pre as [|c pre IH]; intros Hloc prev skip Hs.
  - simpl in Hs. assert (skip = 0) by lia. subst. reflexivity.
  - specialize (IH (local_in_tail Hloc)).
    destruct skip as [|k].
    + destruct (Hloc [] (c :: pre) prev eq_refl ltac:(discriminate))
        as [E L].
      cbn [Re.sub_from app]. cbn [app] in E. rewrite E.
      destruct (m prev (c :: pre)) as [[|n]|] eqn:Em.
      * cbn [last_char]. rewrite IH by lia. reflexivity.
      * specialize (L _ eq_refl). simpl in L.
        rewrite IH by lia. rewrite app_assoc. f_equal.
        change (c :: pre ++ s) with ((c :: pre) ++ s).
        rewrite firstn_app.
        replace (S n - length (c :: pre)) with 0 by (simpl; lia).
        rewrite firstn_0, app_nil_r. reflexivity.
      * cbn [last_char]. rewrite IH by lia. reflexivity.
    + cbn [Re.sub_from app last_char]. apply IH. simpl in Hs. lia.
Qed.

(** Passing over the rest of a match. *)
Lemma sub_from_skip (m : Re.matcher) (repl : str -> str) (a s : str)
  (prev : option char) :
  Re.sub_from m repl prev (length a) (a ++ s)
  = Re.sub_from m repl (last_char prev a) 0 s.
Proof.
  revert prev. induction a as [|c a IH]; intros prev; [reflexivity|].
  cbn [length app Re.sub_from last_char]. apply IH.
Qed.

End ReFacts.

Section RaisingFacts.


(** A text in which no match starts is returned. *)
Lemma sub_from_raising_none (P : char -> bool) (m : Re.matcher)
  (repl : str -> option str) :
  (forall prev c s, P c = true -> m prev (c :: s) = None) ->
  forall s prev, forallb P s = true ->
    Re.sub_from_raising m repl prev 0 s = Some s.
Proof.
  intros Hm. induction s as [|c s IH]; intros prev Hs; [reflexivity|].
  simpl in Hs. apply andb_true_iff in Hs. destruct Hs as [Hc Hs].
  cbn [Re.sub_from_raising]. rewrite (Hm prev c s Hc), (IH (Some c) Hs).
  reflexivity.
Qed.

(** The part of the text before the first character at which a match can
    start is kept, and an exception in the rest is an exception of the
    whole. *)
Lemma sub_from_raising_prefix (P : char -> bool) (m : Re.matcher)
  (repl : str -> option str) :
  (forall prev c s, P c = true -> m prev (c :: s) = None) ->
  forall pre s prev, forallb P pre = true ->
    Re.sub_from_raising m repl prev 0 (pre ++ s)
    = option_map (app pre)
        (Re.sub_from_raising m repl (last_char prev pre) 0 s).
Proof.
  intros Hm. induction pre as [|c pre IH]; intros s prev Hs.
  - simpl. destruct (Re.sub_from_raising m repl prev 0 s); reflexivity.
  - simpl in Hs. apply andb_true_iff in Hs. destruct Hs as [Hc Hs].
    cbn [app Re.sub_from_raising last_char].
    rewrite (Hm prev c (pre ++ s) Hc), (IH s (Some c) Hs).
    destruct (Re.sub_from_raising m repl (last_char (Some c) pre) 0 s);
      reflexivity.
Qed.

(** Passing over the rest of a match. *)
Lemma sub_from_raising_skip (m : Re.matcher) (repl : str -> option str)
  (a s : str) (prev : option char) :
  Re.sub_from_raising m repl prev (length a) (a ++ s)
  = Re.sub_from_raising m repl (last_char prev a) 0 s.
Proof.
  revert prev. induction a as [|c a IH]; intros prev; [reflexivity|].
  cbn [length app Re.sub_from_raising last_char]. apply IH.
Qed.

End RaisingFacts.

(* ===================================================================== *)
(** * Properties: numbers in text *)
(* ===================================================================== *)

Section NumberWordsPlain.

(** The characters of the number words: Cyrillic letters and the blank. *)
Definition plain (c : char) : bool :=
  in_cyrillic_block c || char_eqb c 0x20%N.

Definition all_plain (s : str) : bool := forallb plain s.

Lemma all_plain_app (a b : str) :
  all_plain (a ++ b) = all_plain a && all_plain b.
Proof. apply forallb_app. Qed.

Lemma dict_get_in (d : list (Z * str)) (k : Z) (v : str) :
  dict_get d k = Some v -> In v (map snd d).
Proof.
  induction d as [|[k' v'] d IH]; simpl; [discriminate|].
  destruct (Z.eqb k k'); [intros H; inversion H; auto | auto].
Qed.

Lemma subscript_plain (d : list (Z * str)) (k : Z) :
  forallb all_plain (map snd d) = true -> all_plain (subscript d k) = true.
Proof.
  intros H. unfold subscript. destruct (dict_get d k) eqn:E; [|reflexivity].
  rewrite forallb_forall in H. apply H. eapply dict_get_in; eauto.
Qed.

Lemma add_remainder_plain (result : str) (remainder : Z) (words : str) :
  all_plain result = true -> all_plain words = true ->
  all_plain (add_remainder result remainder words) = true.
Proof.
  intros Hr Hw. unfold add_remainder. destruct (remainder >? 0)%Z; [|exact Hr].
  rewrite !all_plain_app, Hr, Hw. reflexivity.
Qed.

(** The words of a number hold Cyrillic letters and blanks only. *)
Lemma number_to_uzbek_words_plain (num : Z) :
  all_plain (number_to_uzbek_words num) = true.
Proof.
  funelim (number_to_uzbek_words num);
    repeat match goal with
           | |- all_plain (add_remainder _ _ _) = true =>
             apply add_remainder_plain
           | |- all_plain (if ?b then _ else _) = true => destruct b
           | |- all_plain (_ ++ _) = true =>
             rewrite all_plain_app; apply andb_true_iff; split
           | |- all_plain (subscript _ _) = true =>
             apply subscript_plain; vm_compute; reflexivity
           | |- all_plain (number_to_uzbek_words _) = true => assumption
           | |- all_plain (lit _) = true => vm_compute; reflexivity
           end.
Qed.

End NumberWordsPlain.

Section NumbersInText.
Context {U : Unicode.Data}.

Lemma plain_not_decimal (c : char) : plain c = true -> is_decimal c = false.
Proof.
  unfold plain, is_decimal. intros H. apply orb_true_iff in H.
  destruct H as [H|H].
  - rewrite (decimal_cyrillic c H). reflexivity.
  - apply char_eqb_eq in H. subst c. rewrite decimal_ascii; reflexivity.
Qed.




(** ** Runs of digits within the limit of [int] *)

Definition no_digit (s : str) : bool :=
  forallb (fun c => negb (is_decimal c)) s.

Lemma no_digit_app (a b : str) : no_digit (a ++ b) = no_digit a && no_digit b.
Proof. apply forallb_app. Qed.

Lemma plain_no_digit (s : str) : all_plain s = true -> no_digit s = true.
Proof.
  unfold all_plain, no_digit. rewrite !forallb_forall.
  intros H c Hc. apply negb_true_iff, plain_not_decimal, H, Hc.
Qed.

(** No run of decimal digits of the text is longer than the limit of
    [int]; [run] digits stand just before the text. *)
Fixpoint digit_runs_from (run : nat) (s : str) : bool :=
  match s with
  | [] => true
  | c :: s' =>
    if is_decimal c
    then (S run <=? int_max_str_digits)%nat && digit_runs_from (S run) s'
    else digit_runs_from 0 s'
  end.








Lemma no_digit_runs (a : str) (run : nat) :
  no_digit a = true -> digit_runs_from run a = true.
Proof.
  revert run. induction a as [|c a IH]; intros run H; [reflexivity|].
  simpl in H. apply andb_true_iff in H. destruct H as [Hc H].
  apply negb_true_iff in Hc. cbn [digit_runs_from]. rewrite Hc.
  apply IH, H.
Qed.









Lemma separator_not_decimal (c : char) :
  is_separator c = true -> is_decimal c = false.
Proof.
  unfold is_separator. rewrite orb_true_iff, !char_eqb_eq.
  intros [-> | ->]; unfold is_decimal; rewrite decimal_ascii; reflexivity.
Qed.





Lemma hyphen_not_decimal : is_decimal 0x2D%N = false.
Proof. unfold is_decimal. rewrite decimal_ascii; reflexivity. Qed.




End NumbersInText.

Section NumbersInTextExamples.
Import Basic.

(** C3 (the code at the failing input).  The separator of "3.5" is
    replaced by " вергул " and the string is split at that very text, so
    the comma word is gone when both sides hold digits: the result is
    "уч беш".  The word only shows for an empty side, as in "3.". *)
Theorem decimal_comma_word_dropped :
  convert_numbers_in_text (lit "3.5") = Some (lit "уч беш")
  /\ convert_numbers_in_text (lit "3.5") <> Some (lit "уч вергул беш")
  /\ convert_numbers_in_text (lit "3,5") = Some (lit "уч беш")
  /\ convert_numbers_in_text (lit "3.") = Some (lit "уч вергул").
Proof.
  split; [vm_compute; reflexivity|].
  split; [vm_compute; discriminate|].
  split; vm_compute; reflexivity.
Qed.

End NumbersInTextExamples.

(* ===================================================================== *)
(** * Properties: transliteration *)
(* ===================================================================== *)

Section TransliterateFacts.

(** ** The characters around which the passes work apart *)

(** [x] is a character that no entry of the table ends with, and [bad]
    tells the characters that, right after [x], make an entry of the
    table. *)
Variable x : char.
Variable bad : char -> bool.

Definition head_ok (s : str) : bool :=
  match s with h :: _ => negb (bad h) | [] => true end.

Definition multi_ok (entry : str * str) : bool :=
  match fst entry with
  | [p; q] =>
    negb (char_eqb q x) && implb (char_eqb p x) (bad q)
    && nonempty (snd entry) && head_ok (snd entry)
  | [_] => true
  | _ => false
  end.

Definition single_ok (entry : str * str) : bool :=
  match fst entry with
  | [a] => negb (char_eqb a x)
  | _ => true
  end.

Lemma replace_multi_head_ok (entry : str * str) (s : str) :
  multi_ok entry = true -> head_ok s = true ->
  head_ok (replace_multi s entry) = true.
Proof.
  destruct entry as [latin cyrillic]. unfold multi_ok, replace_multi. simpl.
  destruct latin as [|p [|q [|r latin]]]; try discriminate; simpl; auto.
  rewrite !andb_true_iff. intros [[_ Hne] Hh] Hs.
  destruct (replace s [p; q] cyrillic) as [|h r] eqn:E; [reflexivity|].
  assert (Hd : hd_error (replace s [p; q] cyrillic) = Some h)
    by (rewrite E; reflexivity).
  apply replace_pair_hd in Hd.
  - destruct Hd as [Hd|Hd].
    + destruct s; simpl in Hd; [discriminate|]. inversion Hd; subst. exact Hs.
    + destruct cyrillic; simpl in Hd; [discriminate|].
      inversion Hd; subst. exact Hh.
  - destruct cyrillic; [discriminate|]. discriminate.
Qed.

Lemma replace_multi_around (entry : str * str) (pre post : str) :
  multi_ok entry = true -> head_ok post = true ->
  replace_multi (pre ++ x :: post) entry
  = replace_multi pre entry ++ x :: replace_multi post entry.
Proof.
  destruct entry as [latin cyrillic]. unfold multi_ok, replace_multi. simpl.
  destruct latin as [|p [|q [|r latin]]]; try discriminate; simpl; auto.
  rewrite !andb_true_iff. intros [[[Hq Hp] _] _] Hs.
  apply replace_pair_around.
  - apply negb_true_iff, char_eqb_neq in Hq. exact Hq.
  - intros ->. rewrite char_eqb_refl in Hp. simpl in Hp.
    destruct post as [|h post]; simpl; [discriminate|].
    intros E. inversion E; subst. simpl in Hs. rewrite Hp in Hs. discriminate.
Qed.

Lemma fold_multi_around (table : list (str * str)) (pre post : str) :
  forallb multi_ok table = true -> head_ok post = true ->
  fold_left replace_multi table (pre ++ x :: post)
  = fold_left replace_multi table pre
    ++ x :: fold_left replace_multi table post
  /\ head_ok (fold_left replace_multi table post) = true.
Proof.
  revert pre post. induction table as [|entry table IH]; intros pre post.
  - simpl. auto.
  - simpl. rewrite andb_true_iff. intros [He Ht] Hs.
    rewrite replace_multi_around by assumption.
    apply IH; [assumption|]. apply replace_multi_head_ok; assumption.
Qed.

Lemma replace_single_around (entry : str * str) (pre post : str) :
  single_ok entry = true ->
  replace_single (pre ++ x :: post) entry
  = replace_single pre entry ++ x :: replace_single post entry.
Proof.
  destruct entry as [latin cyrillic]. unfold single_ok, replace_single. simpl.
  destruct latin as [|a [|q latin]]; simpl; auto.
  intros Ha. rewrite !replace_char, flat_map_app. simpl.
  unfold subst_char at 2. apply negb_true_iff in Ha. rewrite Ha. reflexivity.
Qed.

Lemma fold_single_around (table : list (str * str)) (pre post : str) :
  forallb single_ok table = true ->
  fold_left replace_single table (pre ++ x :: post)
  = fold_left replace_single table pre
    ++ x :: fold_left replace_single table post.
Proof.
  revert pre post. induction table as [|entry table IH]; intros pre post.
  - reflexivity.
  - simpl. rewrite andb_true_iff. intros [He Ht].
    rewrite replace_single_around by assumption. apply IH. assumption.
Qed.

Definition variant_ok (variant : str) : bool :=
  match variant with
  | [a] => negb (char_eqb a x)
  | _ => false
  end.

Lemma fold_variants_around (variants : list str) (pre post : str) :
  forallb variant_ok variants = true ->
  bad 0x27%N = false -> head_ok post = true ->
  let norm := fold_left (fun result variant => replace result variant (lit "'"))
                        variants in
  norm (pre ++ x :: post) = norm pre ++ x :: norm post
  /\ head_ok (norm post) = true.
Proof.
  intros Hv Hb. simpl. revert pre post Hv.
  induction variants as [|v variants IH]; intros pre post Hv Hs.
  - simpl. auto.
  - simpl in Hv. apply andb_true_iff in Hv. destruct Hv as [Hv Hvs].
    destruct v as [|a [|b v]]; try discriminate. simpl in Hv.
    apply negb_true_iff in Hv.
    cbn [fold_left]. rewrite !replace_char, flat_map_app. simpl.
    unfold subst_char at 2. rewrite Hv. simpl.
    apply IH; [assumption|].
    destruct (flat_map (subst_char a (lit "'")) post) as [|h r] eqn:E;
      [reflexivity|].
    assert (Hd : hd_error (flat_map (subst_char a (lit "'")) post) = Some h)
      by (rewrite E; reflexivity).
    apply flat_map_subst_hd in Hd; [|discriminate].
    destruct Hd as [Hd|Hd].
    + destruct post; simpl in Hd; [discriminate|]. inversion Hd; subst.
      exact Hs.
    + vm_compute in Hd. inversion Hd; subst. simpl. rewrite Hb. reflexivity.
Qed.

(** [latin_to_cyrillic] works on both sides of [x] apart and leaves [x] in
    place. *)
Lemma latin_to_cyrillic_around (pre post : str) :
  forallb variant_ok apostrophe_variants = true ->
  forallb multi_ok LATIN_TO_CYRILLIC = true ->
  forallb single_ok LATIN_TO_CYRILLIC = true ->
  bad 0x27%N = false ->
  head_ok post = true ->
  latin_to_cyrillic (pre ++ x :: post)
  = latin_to_cyrillic pre ++ x :: latin_to_cyrillic post.
Proof.
  intros Hv Hm Hs Hb Hp. unfold latin_to_cyrillic, normalize_apostrophes.
  destruct (@fold_variants_around apostrophe_variants pre post Hv Hb Hp)
    as [-> Hp1].
  destruct (@fold_multi_around LATIN_TO_CYRILLIC
              (fold_left (fun result variant => replace result variant (lit "'"))
                         apostrophe_variants pre) _ Hm Hp1) as [-> _].
  apply fold_single_around. exact Hs.
Qed.

End TransliterateFacts.

Section KeptLetters.

(** The letter after [x] that makes a multi-character entry with it:
    [ch], [Ch] and [CH]. *)
Definition makes_digraph (x next : char) : bool :=
  char_eqb x 0x63%N && char_eqb next 0x68%N
  || char_eqb x 0x43%N && (char_eqb next 0x68%N || char_eqb next 0x48%N).

(** [x] is one of [c], [w], [C], [W] and is not the first letter of an
    occurrence of a multi-character entry. *)
Definition kept (x : char) (post : str) : Prop :=
  In x (lit "cwCW")
  /\ match post with h :: _ => makes_digraph x h = false | [] => True end.

(** C10.  [latin_to_cyrillic] leaves the Latin letters [c], [w], [C] and
    [W] in place whenever they are not consumed by a multi-character entry:
    the single-character table has no entry for them, and the text before
    and the text after such a letter are converted as if they stood alone.
    The output for "doc" is "доc", which still holds the Latin [c].  (The
    function is total: the embedding has no error case, a [str.replace]
    cannot raise.) *)
Theorem latin_to_cyrillic_keeps_c_w (pre post : str) (x : char)
  (H : kept x post) :
  latin_to_cyrillic (pre ++ x :: post)
  = latin_to_cyrillic pre ++ x :: latin_to_cyrillic post
  /\ (forall cyrillic, ~ In ([x], cyrillic) LATIN_TO_CYRILLIC)
  /\ latin_to_cyrillic (lit "doc") = lit "доc"
  /\ In 0x63%N (latin_to_cyrillic (lit "doc")).
Proof.
  destruct H as [Hx Hp].
  assert (Hh : head_ok (makes_digraph x) post = true).
  { destruct post; simpl; [reflexivity|]. rewrite Hp. reflexivity. }
  split; [|split; [|split]].
  - vm_compute in Hx.
    destruct Hx as [<-|[<-|[<-|[<-|[]]]]];
      match goal with
      | |- latin_to_cyrillic (_ ++ ?c :: _) = _ =>
        apply (@latin_to_cyrillic_around c (makes_digraph c))
      end; solve [vm_compute; reflexivity | exact Hh].
  - intros cyrillic Hin. vm_compute in Hx.
    destruct Hx as [<-|[<-|[<-|[<-|[]]]]]; vm_compute in Hin;
      repeat (destruct Hin as [Hin|Hin]; [discriminate|]); exact Hin.
  - vm_compute. reflexivity.
  - vm_compute. auto.
Qed.

Lemma latin_to_cyrillic_keeps_c_w_witness :
  kept 0x63%N (lit "")
  /\ latin_to_cyrillic (lit "do" ++ 0x63%N :: lit "")
     = latin_to_cyrillic (lit "do") ++ 0x63%N :: latin_to_cyrillic (lit "").
Proof.
  assert (H : kept 0x63%N (lit "")).
  { split; [vm_compute; auto | exact I]. }
  exact (conj H (proj1 (@latin_to_cyrillic_keeps_c_w (lit "do") _ _ H))).
Defined.

(** C5 (the code at the failing input).  The list of apostrophe variants
    holds the ASCII apostrophe three times and not the quotation marks
    U+2018 and U+2019: "o‘zbek", written with U+2018, keeps its quotation
    mark and its [o], while "o'zbek" gives "ўзбек". *)
Theorem latin_to_cyrillic_left_quotation_mark :
  latin_to_cyrillic (lit "o'zbek") = lit "ўзбек"
  /\ latin_to_cyrillic (lit "o‘zbek") = lit "о‘збек"
  /\ latin_to_cyrillic (lit "o‘zbek") <> latin_to_cyrillic (lit "o'zbek")
  /\ ~ In [0x2018%N] apostrophe_variants.
Proof.
  repeat split; try (vm_compute; reflexivity).
  - vm_compute. discriminate.
  - vm_compute. intros H.
    repeat (destruct H as [H|H]; [discriminate|]). exact H.
Qed.

End KeptLetters.

(* ===================================================================== *)
(** * Properties: script detection *)
(* ===================================================================== *)

Section ScriptDetection.
Context {U : Unicode.Data}.

Lemma count_nonneg (p : char -> bool) (text : str) : (0 <= count p text)%Z.
Proof. unfold count. lia. Qed.

(** C4, as the code has it.  Both operations count the characters of the
    Cyrillic block against the Latin letters.  [transliterate_if_latin]
    transliterates exactly when the Latin letters outnumber the Cyrillic
    ones: on a tie, also one with Latin letters, the text is returned as it
    is and reported as not Latin.  [detect_script] returns "Unknown" for a
    text without letters of either kind and "Latin" on a tie with at least
    one Latin letter.  The two operations differ exactly on such a tie. *)
Theorem script_tie_break (text : str) :
  let latin_count := count is_latin text in
  let cyrillic_count := count is_cyrillic text in
  (latin_count = cyrillic_count ->
     transliterate_if_latin text = (text, false))
  /\ (latin_count = cyrillic_count -> (0 < latin_count)%Z ->
     detect_script text = lit "Latin")
  /\ (latin_count = 0%Z -> cyrillic_count = 0%Z ->
     detect_script text = lit "Unknown")
  /\ ((cyrillic_count < latin_count)%Z ->
     transliterate_if_latin text = (latin_to_cyrillic text, true)
     /\ detect_script text = lit "Latin")
  /\ ((latin_count < cyrillic_count)%Z ->
     transliterate_if_latin text = (text, false)
     /\ detect_script text = lit "Cyrillic").
Proof.
  cbv zeta. unfold transliterate_if_latin, detect_script.
  pose proof (count_nonneg is_latin text) as Hl.
  pose proof (count_nonneg is_cyrillic text) as Hc.
  revert Hl Hc.
  generalize (count is_latin text), (count is_cyrillic text).
  intros latin_count cyrillic_count Hl Hc. rewrite !Z.gtb_ltb.
  repeat (split || intro);
    repeat match goal with
           | |- context [(?a <? ?b)%Z] => destruct (Z.ltb_spec a b)
           end; try reflexivity; lia.
Qed.

End ScriptDetection.

Section ScriptDetectionExamples.
Import Basic.

(** "aа": a Latin [a] and a Cyrillic [а]. *)
Definition tie_text : str := [0x61; 0x430]%N.

(** "aа" is a tie, "12" has no letter, "abа" has a Latin and "aбв" a
    Cyrillic majority. *)
Lemma script_tie_break_witness :
  (count is_latin tie_text = count is_cyrillic tie_text
   /\ (0 < count is_latin tie_text)%Z
   /\ transliterate_if_latin tie_text = (tie_text, false)
   /\ detect_script tie_text = lit "Latin")
  /\ detect_script (lit "12") = lit "Unknown"
  /\ transliterate_if_latin (lit "abа") = (latin_to_cyrillic (lit "abа"), true)
  /\ detect_script (lit "aбв") = lit "Cyrillic".
Proof.
  assert (H1 : count is_latin tie_text = count is_cyrillic tie_text)
    by (vm_compute; reflexivity).
  assert (H2 : (0 < count is_latin tie_text)%Z) by (vm_compute; reflexivity).
  assert (H3 : count is_latin (lit "12") = 0%Z) by (vm_compute; reflexivity).
  assert (H4 : count is_cyrillic (lit "12") = 0%Z)
    by (vm_compute; reflexivity).
  assert (H5 : (count is_cyrillic (lit "abа") < count is_latin (lit "abа"))%Z)
    by (vm_compute; reflexivity).
  assert (H6 : (count is_latin (lit "aбв") < count is_cyrillic (lit "aбв"))%Z)
    by (vm_compute; reflexivity).
  pose proof (@script_tie_break Basic.data tie_text) as T.
  pose proof (@script_tie_break Basic.data (lit "12")) as T2.
  pose proof (@script_tie_break Basic.data (lit "abа")) as T3.
  pose proof (@script_tie_break Basic.data (lit "aбв")) as T4.
  exact (conj (conj H1 (conj H2 (conj (proj1 T H1) (proj1 (proj2 T) H1 H2))))
        (conj (proj1 (proj2 (proj2 T2)) H3 H4)
        (conj (proj1 (proj1 (proj2 (proj2 (proj2 T3))) H5))
              (proj2 (proj2 (proj2 (proj2 (proj2 T4))) H6))))).
Defined.

(** C4 as stated fails: on a tie with a Latin letter,
    [transliterate_if_latin] does not treat the text as Latin, although
    transliterating would change it. *)
Lemma tie_is_not_transliterated :
  count is_latin tie_text = count is_cyrillic tie_text
  /\ (0 < count is_latin tie_text)%Z
  /\ transliterate_if_latin tie_text = (tie_text, false)
  /\ transliterate_if_latin tie_text <> (latin_to_cyrillic tie_text, true).
Proof.
  repeat split; try (vm_compute; reflexivity).
  vm_compute. discriminate.
Qed.

End ScriptDetectionExamples.

(* ===================================================================== *)
(** * Properties: the normalisation pipeline *)
(* ===================================================================== *)

Section ReplaceCharacters.

(** The characters of [s.replace(old, new)] are characters of [s] or of
    [new]. *)
Lemma replace_from_forall (P : char -> Prop) (old new : str) :
  Forall P new ->
  forall s skip, Forall P s -> Forall P (replace_from old new skip s).
Proof.
  intros Hn. induction s as [|c s IH]; intros skip Hs; simpl; [constructor|].
  inversion Hs; subst. destruct skip as [|k]; [|apply IH; assumption].
  destruct (startswith (c :: s) old).
  - apply Forall_app. split; [exact Hn | apply IH; assumption].
  - constructor; [assumption | apply IH; assumption].
Qed.

Lemma replace_forall (P : char -> Prop) (s old new : str) :
  Forall P new -> Forall P s -> Forall P (replace s old new).
Proof. intros. apply replace_from_forall; assumption. Qed.


(** ** The single-character pass removes its keys *)

(** The keys of the single-character entries. *)
Definition single_keys (table : list (str * str)) : list char :=
  flat_map (fun entry => match fst entry with [a] => [a] | _ => [] end) table.

(** No value of a single-character entry holds a character of [keys]. *)
Definition values_avoid (keys : list char) (table : list (str * str)) : bool :=
  forallb (fun entry =>
             match fst entry with
             | [_] => forallb (fun c => negb (existsb (char_eqb c) keys))
                              (snd entry)
             | _ => true
             end) table.

Lemma not_in_existsb (c : char) (keys : list char) :
  existsb (char_eqb c) keys = false <-> ~ In c keys.
Proof.
  split.
  - intros H Hin. assert (E : existsb (char_eqb c) keys = true).
    { apply existsb_exists. exists c. split; [exact Hin | apply char_eqb_refl]. }
    congruence.
  - intros H. destruct (existsb (char_eqb c) keys) eqn:E; [|reflexivity].
    apply existsb_exists in E. destruct E as [d [Hd E]].
    apply char_eqb_eq in E. subst d. contradiction.
Qed.

Lemma fold_single_removes (keys : list char) (table : list (str * str)) :
  values_avoid keys table = true ->
  forall (done : list char) (s : str),
    incl done keys -> incl (single_keys table) keys ->
    Forall (fun c => ~ In c done) s ->
    Forall (fun c => ~ In c done /\ ~ In c (single_keys table))
           (fold_left replace_single table s).
Proof.
  induction table as [|[latin cyr] table IH]; intros Hv done s Hd Hk Hs.
  - simpl. eapply Forall_impl; [|exact Hs]. simpl. tauto.
  - simpl in Hv. apply andb_true_iff in Hv. destruct Hv as [He Hv].
    cbn [fold_left].
    destruct latin as [|a [|b latin]].
    + simpl in *. apply IH; assumption.
    + change (single_keys (([a], cyr) :: table))
        with (a :: single_keys table) in *.
      assert (Ha : In a keys) by (apply Hk; left; reflexivity).
      assert (Hk' : incl (single_keys table) keys).
      { intros c Hc. apply Hk. right. exact Hc. }
      assert (Hstep : Forall (fun c => ~ In c (a :: done))
                             (replace_single s ([a], cyr))).
      { unfold replace_single. simpl. rewrite replace_char.
        apply Forall_flat_map. eapply Forall_impl; [|exact Hs].
        intros c Hc. unfold subst_char.
        destruct (char_eqb a c) eqn:E.
        - simpl in He. rewrite forallb_forall in He.
          apply Forall_forall. intros d Hin.
          specialize (He d Hin). apply negb_true_iff, not_in_existsb in He.
          intros [<-|Hdd]; [apply He, Ha | apply He, Hd, Hdd].
        - constructor; [|constructor]. apply char_eqb_neq in E.
          intros [Hac|Hdd]; [congruence | contradiction]. }
      specialize (IH Hv (a :: done) _
                     ltac:(intros c [<-|Hc]; [exact Ha | apply Hd, Hc])
                     Hk' Hstep).
      eapply Forall_impl; [|exact IH]. simpl. tauto.
    + simpl in *. apply IH; assumption.
Qed.

(** [A-Za-z] *)
Definition ascii_letter (c : char) : bool :=
  ((0x41 <=? c) && (c <=? 0x5A) || (0x61 <=? c) && (c <=? 0x7A))%N.

(** After [latin_to_cyrillic] the only ASCII letters left are [c], [w],
    [C] and [W]. *)
Lemma latin_to_cyrillic_letters (text : str) :
  Forall (fun c => ascii_letter c = true -> In c (lit "cwCW"))
         (latin_to_cyrillic text).
Proof.
  unfold latin_to_cyrillic.
  set (s := fold_left replace_multi LATIN_TO_CYRILLIC _).
  pose proof (@fold_single_removes (single_keys LATIN_TO_CYRILLIC)
                LATIN_TO_CYRILLIC ltac:(vm_compute; reflexivity) [] s
                ltac:(intros c []) (incl_refl _)
                ltac:(apply Forall_forall; intros c _ [])) as H.
  eapply Forall_impl; [|exact H]. intros c [_ Hc] Hl.
  assert (B : (c < N.of_nat 128)%N).
  { unfold ascii_letter in Hl.
    repeat rewrite ?orb_true_iff, ?andb_true_iff, ?N.leb_le in Hl. lia. }
  apply not_in_existsb in Hc.
  pose proof (@below_spec 128
    (fun c => implb (ascii_letter c
                     && negb (existsb (char_eqb c)
                                      (single_keys LATIN_TO_CYRILLIC)))
                    (existsb (char_eqb c) (lit "cwCW")))
    ltac:(vm_compute; reflexivity) c B) as G.
  cbv beta in G. rewrite Hl, Hc in G. cbn [andb negb implb] in G.
  apply existsb_exists in G. destruct G as [d [Hd E]].
  apply char_eqb_eq in E. subst d. exact Hd.
Qed.

End ReplaceCharacters.

Section Pipeline.
Context {U : Unicode.Data}.


End Pipeline.

(* ===================================================================== *)
(** * Properties: acronyms *)
(* ===================================================================== *)

Section AcronymFacts.
Context {U : Unicode.Data}.

Lemma acronym_class_capital (c : char) :
  acronym_class c = true -> capital c = true.
Proof. intros H. exact H. Qed.

Lemma acronym_class_word (c : char) :
  acronym_class c = true -> is_word c = true.
Proof.
  intros H. unfold is_word.
  rewrite (capital_isalnum c (acronym_class_capital c H)). reflexivity.
Qed.

(** ** The matches of [\b[A-ZА-ЯЁҚҒҲЎ]+\b] *)

(** No word character before the position; none at the head of [rest]. *)
Definition left_delimited (prev : option char) : bool :=
  match prev with Some p => negb (is_word p) | None => true end.

Definition right_delimited (rest : str) : bool :=
  match rest with h :: _ => negb (is_word h) | [] => true end.

(** [rest] does not go on with a letter of the class. *)
Definition starts_outside (rest : str) : Prop :=
  match rest with h :: _ => acronym_class h = false | [] => True end.

Lemma star_run (run rest : str) (p : char) :
  forallb acronym_class run = true -> is_word p = true ->
  starts_outside rest ->
  Re.m_star acronym_class (Re.m_boundary is_word Re.m_end) (Some p)
            (run ++ rest)
  = if right_delimited rest then Some (length run) else None.
Proof.
  revert p. induction run as [|r run IH]; intros p Hrun Hp Hrest.
  - simpl. destruct rest as [|h rest]; simpl.
    + unfold Re.m_boundary. simpl. rewrite Hp. reflexivity.
    + simpl in Hrest. rewrite Hrest. unfold Re.m_boundary. simpl.
      rewrite Hp. destruct (is_word h); reflexivity.
  - simpl in Hrun. apply andb_true_iff in Hrun. destruct Hrun as [Hr Hrun].
    simpl. rewrite Hr.
    rewrite (IH r Hrun (acronym_class_word r Hr) Hrest).
    destruct (right_delimited rest); [reflexivity|].
    unfold Re.m_boundary. simpl.
    rewrite Hp, (acronym_class_word r Hr). reflexivity.
Qed.

(** At the first letter of a maximal run of the class the pattern matches
    the whole run when the run is delimited on both sides, and nothing
    otherwise. *)
Lemma acronym_re_run (prev : option char) (r : char) (run rest : str) :
  acronym_class r = true -> forallb acronym_class run = true ->
  starts_outside rest ->
  acronym_re prev (r :: run ++ rest)
  = if left_delimited prev && right_delimited rest
    then Some (S (length run)) else None.
Proof.
  intros Hr Hrun Hrest. unfold acronym_re, Re.m_boundary at 1.
  cbn [hd_error]. rewrite (acronym_class_word r Hr).
  assert (E : xorb match prev with Some c => is_word c | None => false end
                   true = left_delimited prev).
  { destruct prev as [p|]; simpl; [destruct (is_word p)|]; reflexivity. }
  rewrite E. destruct (left_delimited prev); [|reflexivity].
  unfold Re.m_plus, Re.m_char. rewrite Hr.
  rewrite (star_run run rest r Hrun (acronym_class_word r Hr) Hrest).
  simpl. destruct (right_delimited rest); reflexivity.
Qed.

Lemma acronym_re_outside (prev : option char) (s : str) :
  starts_outside s -> acronym_re prev s = None.
Proof.
  intros Hs. unfold acronym_re, Re.m_boundary at 1.
  destruct (xorb _ _); [|reflexivity].
  unfold Re.m_plus, Re.m_char. destruct s as [|h s]; [reflexivity|].
  simpl in Hs. rewrite Hs. reflexivity.
Qed.

(** ** The substitution along a run *)

Variable repl : str -> str.

Lemma sub_outside (prev prev' : option char) (s : str) :
  starts_outside s ->
  Re.sub_from acronym_re repl prev 0 s
  = Re.sub_from acronym_re repl prev' 0 s.
Proof.
  intros Hs. destruct s as [|h s]; [reflexivity|].
  cbn [Re.sub_from].
  rewrite (acronym_re_outside prev (h :: s) Hs),
          (acronym_re_outside prev' (h :: s) Hs). reflexivity.
Qed.

Lemma sub_run_inside (run rest : str) (p : char) :
  forallb acronym_class run = true -> is_word p = true ->
  starts_outside rest ->
  Re.sub_from acronym_re repl (Some p) 0 (run ++ rest)
  = run ++ Re.sub_from acronym_re repl (last_char (Some p) run) 0 rest.
Proof.
  revert p. induction run as [|r run IH]; intros p Hrun Hp Hrest.
  - reflexivity.
  - simpl in Hrun. apply andb_true_iff in Hrun. destruct Hrun as [Hr Hrun].
    cbn [app Re.sub_from last_char].
    rewrite (acronym_re_run (Some p) r run rest Hr Hrun Hrest).
    simpl left_delimited. rewrite Hp. simpl.
    rewrite (IH r Hrun (acronym_class_word r Hr) Hrest). reflexivity.
Qed.

Lemma sub_run (prev : option char) (r : char) (run rest : str) :
  acronym_class r = true -> forallb acronym_class run = true ->
  starts_outside rest ->
  Re.sub_from acronym_re repl prev 0 (r :: run ++ rest)
  = (if left_delimited prev && right_delimited rest
     then repl (r :: run) else r :: run)
    ++ Re.sub_from acronym_re repl (last_char (Some r) run) 0 rest.
Proof.
  intros Hr Hrun Hrest. cbn [Re.sub_from].
  rewrite (acronym_re_run prev r run rest Hr Hrun Hrest).
  destruct (left_delimited prev && right_delimited rest).
  - rewrite sub_from_skip.
    change (r :: run ++ rest) with ((r :: run) ++ rest).
    rewrite firstn_app.
    replace (S (length run) - length (r :: run)) with 0 by (simpl; lia).
    rewrite firstn_0, app_nil_r, firstn_all2 by (simpl; lia). reflexivity.
  - rewrite (sub_run_inside run rest r Hrun (acronym_class_word r Hr) Hrest).
    reflexivity.
Qed.

(** ** Matching before a character outside the class *)

(** [pre] does not end with a letter of the class. *)
Definition stops_outside (pre : str) : Prop :=
  forall pre' c, pre = pre' ++ [c] -> acronym_class c = false.

Lemma take_while_stop (b s : str) (c : char) :
  acronym_class c = false ->
  take_while acronym_class ((b ++ [c]) ++ s)
  = take_while acronym_class (b ++ [c])
  /\ drop_while acronym_class ((b ++ [c]) ++ s)
     = drop_while acronym_class (b ++ [c]) ++ s
  /\ drop_while acronym_class (b ++ [c]) <> [].
Proof.
  intros Hc. induction b as [|d b IH]; simpl.
  - rewrite Hc. repeat split. discriminate.
  - destruct (acronym_class d).
    + destruct IH as (-> & -> & H). repeat split. exact H.
    + repeat split. discriminate.
Qed.

Lemma take_drop_while (p : char -> bool) (s : str) :
  s = take_while p s ++ drop_while p s
  /\ forallb p (take_while p s) = true
  /\ match drop_while p s with h :: _ => p h = false | [] => True end.
Proof.
  induction s as [|c s IH]; simpl; [auto|].
  destruct (p c) eqn:E; simpl.
  - destruct IH as (H1 & H2 & H3). rewrite E, H2, <- H1. auto.
  - rewrite E. auto.
Qed.

Lemma acronym_re_local (pre s : str) :
  stops_outside pre -> local_in acronym_re pre s.
Proof.
  intros Hpre a b prev -> Hb.
  destruct (exists_last Hb) as (b' & c & ->).
  assert (Hc : acronym_class c = false).
  { apply (Hpre (a ++ b') c). rewrite app_assoc. reflexivity. }
  destruct (take_while_stop b' s c Hc) as (Et & Ed & Hn).
  destruct (take_drop_while acronym_class (b' ++ [c])) as (Eb & Ht & Hd).
  destruct (take_drop_while acronym_class ((b' ++ [c]) ++ s))
    as (Eb' & _ & Hd').
  rewrite Et, Ed in Eb'. rewrite Ed in Hd'.
  set (run := take_while acronym_class (b' ++ [c])) in *.
  set (rest := drop_while acronym_class (b' ++ [c])) in *.
  assert (Hrest' : starts_outside (rest ++ s)).
  { destruct rest; [contradiction | exact Hd']. }
  assert (Hrd : right_delimited (rest ++ s) = right_delimited rest).
  { destruct rest; [contradiction | reflexivity]. }
  assert (Hrest : starts_outside rest).
  { destruct rest; [exact I | exact Hd]. }
  rewrite Eb', Eb. clearbody run rest. clear Eb Eb' Et Ed.
  destruct run as [|r run].
  - simpl. rewrite !acronym_re_outside by assumption.
    split; [reflexivity | discriminate].
  - simpl in Ht. apply andb_true_iff in Ht. destruct Ht as [Hr Hrun].
    cbn [app].
    rewrite !acronym_re_run by assumption. rewrite Hrd.
    split; [reflexivity|].
    intros n Hn'. cbn [length]. rewrite length_app.
    destruct (left_delimited prev && right_delimited rest);
      [|discriminate].
    inversion Hn'. lia.
Qed.

End AcronymFacts.

Section AcronymSpelling.
Context {U : Unicode.Data}.

(** A run of letters of the class is alphabetic and in upper case. *)
Lemma replace_acronym_run (run : str) :
  run <> [] -> forallb acronym_class run = true ->
  replace_acronym run
  = if (2 <=? length run)%nat then spell_out_acronym run else run.
Proof.
  intros Hne Hrun. unfold replace_acronym.
  assert (Hup : str_isupper run = true).
  { unfold str_isupper. apply andb_true_iff. split.
    - rewrite forallb_forall in *. intros c Hc.
      rewrite (capital_islower c (acronym_class_capital c (Hrun c Hc))).
      reflexivity.
    - destruct run as [|r run]; [contradiction|]. simpl in *.
      apply andb_true_iff in Hrun. destruct Hrun as [Hr _].
      rewrite (capital_isupper r (acronym_class_capital r Hr)). reflexivity. }
  assert (Hal : str_isalpha run = true).
  { unfold str_isalpha. destruct run as [|r run]; [contradiction|].
    rewrite forallb_forall in *. intros c Hc.
    apply capital_isalpha, acronym_class_capital, Hrun, Hc. }
  rewrite Hup, Hal, !andb_true_r. unfold len.
  destruct (Nat.leb_spec 2 (length run));
    destruct (Z.geb_spec (Z.of_nat (length run)) 2); try reflexivity; lia.
Qed.

(** ** Hyphens *)

Definition hyphens (s : str) : nat := length (filter (char_eqb 0x2D%N) s).

Lemma hyphens_app (a b : str) : hyphens (a ++ b) = hyphens a + hyphens b.
Proof. unfold hyphens. rewrite filter_app, length_app. reflexivity. Qed.

Lemma hyphens_join (names : list str) :
  Forall (fun name => hyphens name = 0) names ->
  hyphens (join (lit "-") names) = length names - 1.
Proof.
  induction names as [|a names IH]; intros H; [reflexivity|].
  inversion H as [|? ? Ha Hn]; subst. specialize (IH Hn).
  destruct names as [|b names]; [simpl; rewrite Ha; reflexivity|].
  change (join (lit "-") (a :: b :: names))
    with (a ++ lit "-" ++ join (lit "-") (b :: names)).
  rewrite !hyphens_app, Ha, IH. simpl. lia.
Qed.

(** The name of a letter of the class: a value of one of the two tables,
    or the lower-case letter for [Щ] and [Ы], which have no entry. *)
Definition name_checked (c : char) : bool :=
  implb (acronym_class c)
    match letter_get LETTER_NAMES_CYRILLIC c with
    | Some name => Nat.eqb (hyphens name) 0
    | None =>
      match letter_get LETTER_NAMES_LATIN c with
      | Some name => Nat.eqb (hyphens name) 0
      | None => ((0x410 <=? c) && (c <=? 0x42F))%N
      end
    end.

Lemma letter_name_no_hyphen (c : char) :
  acronym_class c = true -> hyphens (letter_name c) = 0.
Proof.
  intros Hc.
  pose proof (@below_spec 0x500 name_checked ltac:(vm_compute; reflexivity) c
                (@Basic.capital_below c (acronym_class_capital c Hc))) as H.
  unfold name_checked in H. rewrite Hc in H. cbn [implb] in H.
  unfold letter_name.
  destruct (letter_get LETTER_NAMES_CYRILLIC c);
    [apply Nat.eqb_eq; exact H|].
  destruct (letter_get LETTER_NAMES_LATIN c);
    [apply Nat.eqb_eq; exact H|].
  rewrite (lower_cyrillic_capital c H). unfold hyphens. cbn [filter].
  apply andb_true_iff in H. destruct H as [H _]. apply N.leb_le in H.
  destruct (char_eqb 0x2D%N (c + 0x20)%N) eqn:E; [|reflexivity].
  apply char_eqb_eq in E. lia.
Qed.

Lemma spell_out_acronym_hyphens (run : str) :
  forallb acronym_class run = true ->
  hyphens (spell_out_acronym run) = length run - 1.
Proof.
  intros Hrun. unfold spell_out_acronym.
  rewrite hyphens_join, length_map; [reflexivity|].
  apply Forall_map, Forall_forall. intros c Hc.
  rewrite forallb_forall in Hrun. apply letter_name_no_hyphen, Hrun, Hc.
Qed.

(** ** The runs of a text *)

(** [run] stands between [pre] and [post] with no word character on
    either side. *)
Definition delimited (pre post : str) : bool :=
  left_delimited (last_char None pre) && right_delimited post.

(** C8, as the code has it.  A maximal run of letters of the class
    [[A-ZА-ЯЁҚҒҲЎ]] is replaced exactly when it has two letters or more and
    stands between word boundaries, a word character being a letter, a
    digit or the underscore of any script: a run next to a digit, to an
    underscore or to a lower-case letter is left unchanged, and so is a run
    of one letter.  The texts before and after the run are processed as if
    they stood alone.  The replacement is the letters' names joined by
    single hyphens and holds one hyphen less than the run has letters; the
    name of a letter is looked up in the Cyrillic table, then in the Latin
    table, and is else the letter in lower case. *)
Theorem process_acronyms_run (pre run post : str) :
  stops_outside pre -> starts_outside post ->
  run <> [] -> forallb acronym_class run = true ->
  process_acronyms_in_text (pre ++ run ++ post)
  = process_acronyms_in_text pre
    ++ (if (2 <=? length run)%nat && delimited pre post
        then spell_out_acronym run else run)
    ++ process_acronyms_in_text post
  /\ spell_out_acronym run = join (lit "-") (map letter_name run)
  /\ hyphens (spell_out_acronym run) = length run - 1
  /\ (forall c, letter_name c
               = match letter_get LETTER_NAMES_CYRILLIC c with
                 | Some name => name
                 | None =>
                   match letter_get LETTER_NAMES_LATIN c with
                   | Some name => name
                   | None => lower c
                   end
                 end).
Proof.
  intros Hpre Hpost Hne Hrun.
  split; [|split; [reflexivity|split; [|reflexivity]]].
  - unfold process_acronyms_in_text, Re.sub.
    rewrite (@sub_from_app acronym_re replace_acronym pre (run ++ post)
               (acronym_re_local (run ++ post) Hpre) None 0 ltac:(lia)).
    f_equal.
    destruct run as [|r run']; [contradiction|].
    pose proof Hrun as Hrun0.
    simpl in Hrun. apply andb_true_iff in Hrun. destruct Hrun as [Hr Hrun'].
    cbn [app].
    rewrite (sub_run replace_acronym (last_char None pre) r run' post
               Hr Hrun' Hpost).
    rewrite (sub_outside replace_acronym (last_char (Some r) run') None post
               Hpost).
    f_equal. unfold delimited.
    rewrite (replace_acronym_run Hne Hrun0).
    destruct (2 <=? length (r :: run'))%nat;
      destruct (left_delimited (last_char None pre) && right_delimited post);
      reflexivity.
  - apply spell_out_acronym_hyphens, Hrun.
Qed.

End AcronymSpelling.

Section AcronymExamples.
Import Basic.

Lemma process_acronyms_run_witness :
  stops_outside (lit "Men ") /\ starts_outside (lit " da")
  /\ lit "USA" <> [] /\ forallb acronym_class (lit "USA") = true
  /\ process_acronyms_in_text (lit "Men " ++ lit "USA" ++ lit " da")
     = lit "Men у-эс-а da".
Proof.
  assert (H1 : stops_outside (lit "Men ")).
  { intros pre' c E. apply (f_equal (@rev char)) in E.
    rewrite rev_app_distr in E. vm_compute in E. inversion E; subst.
    reflexivity. }
  assert (H2 : starts_outside (lit " da")) by reflexivity.
  assert (H3 : lit "USA" <> []) by (vm_compute; discriminate).
  assert (H4 : forallb acronym_class (lit "USA") = true) by reflexivity.
  repeat (split; [assumption|]).
  rewrite (proj1 (@process_acronyms_run Basic.data _ _ _ H1 H2 H3 H4)).
  vm_compute. reflexivity.
Defined.

(** C8 as stated fails: the run "USA" of three capitals stands next to a
    digit, which is not a letter, and is not replaced. *)
Lemma run_next_to_digit_unchanged :
  process_acronyms_in_text (lit "USA2") = lit "USA2"
  /\ process_acronyms_in_text (lit "USA 2") = lit "у-эс-а 2"
  /\ process_acronyms_in_text (lit "USA2") <> lit "у-эс-а2".
Proof.
  split; [vm_compute; reflexivity|].
  split; [vm_compute; reflexivity|].
  vm_compute. discriminate.
Qed.

End AcronymExamples.

(* ===================================================================== *)
(** * Properties: the output of the three stages *)
(* ===================================================================== *)

Section PipelineOutput.
Context {U : Unicode.Data}.











End PipelineOutput.

Section PipelineExamples.
Import Basic.



End PipelineExamples.

(* ===================================================================== *)
(** * Properties: the text splitter *)
(* ===================================================================== *)

Section StripFacts.

Lemma drop_while_length (p : char -> bool) (s : str) :
  length (drop_while p s) <= length s.
Proof.
  induction s as [|c s IH]; simpl; [lia|]. destruct (p c); simpl; lia.
Qed.

Lemma drop_while_idem (p : char -> bool) (s : str) :
  drop_while p (drop_while p s) = drop_while p s.
Proof.
  induction s as [|c s IH]; simpl; [reflexivity|].
  destruct (p c) eqn:E; [exact IH|]. simpl. rewrite E. reflexivity.
Qed.

Lemma drop_while_snoc (p : char -> bool) (s : str) (c : char) :
  p c = false -> drop_while p (s ++ [c]) = drop_while p s ++ [c].
Proof.
  intros Hc. induction s as [|d s IH]; simpl.
  - rewrite Hc. reflexivity.
  - destruct (p d); [exact IH | reflexivity].
Qed.

Lemma drop_while_none (p : char -> bool) (s : str) :
  forallb (fun c => negb (p c)) s = true -> drop_while p s = s.
Proof.
  destruct s as [|c s]; simpl; [reflexivity|].
  rewrite andb_true_iff, negb_true_iff. intros [-> _]. reflexivity.
Qed.

Lemma len_strip (s : str) : (len (strip s) <= len s)%Z.
Proof.
  unfold len, strip, rstrip, lstrip. rewrite length_rev.
  pose proof (drop_while_length isspace (rev (drop_while isspace s))) as H.
  rewrite length_rev in H.
  pose proof (drop_while_length isspace s). lia.
Qed.

Lemma strip_idem (s : str) : strip (strip s) = strip s.
Proof.
  unfold strip, rstrip, lstrip.
  set (t := drop_while isspace s).
  assert (Ht : drop_while isspace t = t) by apply drop_while_idem.
  destruct t as [|c t']; [reflexivity|].
  assert (Hc : isspace c = false).
  { simpl in Ht. destruct (isspace c); [|reflexivity].
    pose proof (drop_while_length isspace t') as L. rewrite Ht in L.
    simpl in L. lia. }
  assert (R : forall l : str,
             rev (drop_while isspace (rev (c :: l)))
             = c :: rev (drop_while isspace (rev l))).
  { intros l. simpl rev at 2.
    rewrite drop_while_snoc by exact Hc. rewrite rev_app_distr. reflexivity. }
  rewrite R. simpl drop_while at 2. rewrite Hc. rewrite R.
  rewrite rev_involutive, drop_while_idem. reflexivity.
Qed.

(** A string without whitespace is its own [strip]. *)
Definition solid (s : str) : bool := forallb (fun c => negb (isspace c)) s.

Lemma strip_solid (s : str) : solid s = true -> strip s = s.
Proof.
  intros H. unfold strip, rstrip, lstrip.
  rewrite (@drop_while_none _ _ H).
  rewrite drop_while_none, rev_involutive; [reflexivity|].
  unfold solid in H. rewrite forallb_forall in *.
  intros c Hc. apply H. apply in_rev. exact Hc.
Qed.

Lemma solid_app (a b : str) : solid (a ++ b) = solid a && solid b.
Proof. apply forallb_app. Qed.

Lemma solid_firstn (n : nat) (s : str) :
  solid s = true -> solid (firstn n s) = true.
Proof.
  rewrite <- (firstn_skipn n s) at 1. rewrite solid_app, andb_true_iff. tauto.
Qed.

Lemma solid_skipn (n : nat) (s : str) :
  solid s = true -> solid (skipn n s) = true.
Proof.
  rewrite <- (firstn_skipn n s) at 1. rewrite solid_app, andb_true_iff. tauto.
Qed.

(** The words of [s.split()] hold no whitespace. *)
Lemma split_ws_from_solid (s cur : str) :
  solid cur = true ->
  Forall (fun word => solid word = true) (split_ws_from cur s).
Proof.
  revert cur. induction s as [|c s IH]; intros cur Hcur; simpl.
  - destruct cur; constructor; [exact Hcur | constructor].
  - destruct (isspace c) eqn:E.
    + destruct cur; [apply IH; reflexivity|].
      constructor; [exact Hcur | apply IH; reflexivity].
    + apply IH. rewrite solid_app, Hcur. simpl. rewrite E. reflexivity.
Qed.

Lemma split_ws_solid (s : str) :
  Forall (fun word => solid word = true) (split_ws s).
Proof. apply split_ws_from_solid. reflexivity. Qed.

End StripFacts.

Section Loops.

(** [P] is a property of the chunks, [Q] of the current chunk. *)
Variable P : str -> Prop.
Variable Q : str -> Prop.

Definition state_ok (st : state) : Prop := Forall P (fst st) /\ Q (snd st).

Lemma flush_ok (chunks : list str) (current_chunk : str) :
  Forall P chunks -> P (strip current_chunk) ->
  Forall P (flush chunks current_chunk).
Proof.
  intros Hc Hs. unfold flush. destruct (nonempty current_chunk); [|exact Hc].
  apply Forall_app. split; [exact Hc|]. constructor; [exact Hs | constructor].
Qed.

(** The chunks of [_split_by_words] satisfy [P] when the slices of a long
    word do and [Q], which the current chunk keeps, gives [P] after
    [strip]. *)
Lemma _split_by_words_ok (text : str) (max_length : Z) :
  Q [] ->
  (forall cur, Q cur -> P (strip cur)) ->
  (forall word, solid word = true ->
     Forall P (char_slices word max_length)) ->
  (forall word, solid word = true -> (len word <= max_length)%Z -> Q word) ->
  (forall cur word, Q cur -> solid word = true ->
     (len cur + len word + 1 <= max_length)%Z ->
     Q (cur ++ lit " " ++ word)) ->
  Forall P (_split_by_words text max_length).
Proof.
  intros HQ0 Hflush Hslices Hword Happ. unfold _split_by_words.
  pose proof (split_ws_solid text) as Hw. rewrite Forall_forall in Hw.
  assert (Hinv : state_ok
            (fold_left (word_step max_length) (split_ws text) ([], []))).
  { apply fold_left_invariant; [split; [constructor | exact HQ0]|].
    intros [chunks cur] word [Hst Hcur] Hin. unfold state_ok in *.
    simpl in Hst, Hcur. specialize (Hw word Hin). unfold word_step.
    destruct (Z.gtb_spec (len word) max_length).
    - simpl. split; [|exact HQ0]. apply Forall_app. split.
      + apply flush_ok; auto.
      + apply Hslices. exact Hw.
    - destruct (Z.gtb_spec (len cur + len word + 1) max_length).
      + simpl. split; [apply flush_ok; auto|]. apply Hword; [exact Hw | lia].
      + destruct (nonempty cur); simpl; (split; [exact Hst|]).
        * apply Happ; [exact Hcur | exact Hw | lia].
        * apply Hword; [exact Hw | lia]. }
  destruct (fold_left (word_step max_length) (split_ws text) ([], []))
    as [chunks cur].
  destruct Hinv as [Hc Hq]. apply flush_ok; [exact Hc | apply Hflush, Hq].
Qed.

End Loops.

Section Trimmed.

(** C6, as the code has it.  An input that is not empty after trimming and
    that fits in the (clamped) ceiling is returned as the only chunk, as it
    is: it is not trimmed.  An empty or whitespace-only input gives no
    chunk.  Every chunk of every output is non-empty, also after trimming;
    and when the input is longer than the ceiling every chunk is trimmed. *)
Theorem split_text_short_and_trimmed (text : str) (max_length : Z) :
  (strip text <> [] -> (len text <= clamp max_length)%Z ->
     split_text text max_length = [text])
  /\ (strip text = [] -> split_text text max_length = [])
  /\ (forall chunk, In chunk (split_text text max_length) ->
        chunk <> [] /\ strip chunk <> [])
  /\ ((clamp max_length < len text)%Z ->
        forall chunk, In chunk (split_text text max_length) ->
          strip chunk = chunk).
Proof.
  unfold split_text.
  assert (Hne : forall s : str, nonempty s = true <-> s <> []).
  { intros [|c s]; simpl; split; congruence. }
  assert (Hstrip_nil : forall s : str, strip s <> [] -> s <> []).
  { intros s H ->. apply H. reflexivity. }
  destruct (nonempty (strip text)) eqn:Es.
  - assert (Hs : strip text <> []) by (apply Hne; exact Es).
    assert (Ht : nonempty text = true) by (apply Hne, Hstrip_nil, Hs).
    rewrite Ht. simpl.
    destruct (Z.leb_spec (len text) (clamp max_length)) as [Hle|Hgt].
    + repeat split; try tauto; try lia.
      * destruct H as [<-|[]]. apply Hstrip_nil, Hs.
      * destruct H as [<-|[]]. exact Hs.
    + split; [lia|]. split; [tauto|].
      destruct (fold_left _ _ _) as [chunks cur] eqn:Ef.
      split.
      * intros chunk Hin. apply filter_In in Hin. destruct Hin as [_ Hin].
        apply Hne in Hin. split; [apply Hstrip_nil|]; exact Hin.
      * intros _ chunk Hin. apply filter_In in Hin. destruct Hin as [Hin _].
        revert chunk Hin. apply Forall_forall.
        assert (Hinv : Forall (fun c => strip c = c)
                  (fst (fold_left (sentence_step (clamp max_length))
                                  (sentence_units text) ([], [])))).
        { apply fold_left_invariant; [constructor|].
          intros [chunks' cur'] sentence Hst _.
          simpl in Hst. unfold sentence_step.
          destruct (len sentence >? clamp max_length)%Z.
          - simpl. apply Forall_app. split; [exact Hst|].
            apply _split_by_words_ok with (Q := fun _ => True); auto;
              [intros; apply strip_idem|].
            intros word Hw. unfold char_slices. apply Forall_forall.
            intros c Hc. apply in_map_iff in Hc. destruct Hc as [i [<- _]].
            apply strip_solid. apply solid_firstn, solid_skipn, Hw.
          - destruct (len cur' + len sentence >? clamp max_length)%Z;
              [|exact Hst].
            destruct (nonempty cur' && (len cur' >=? 2000)%Z); [|exact Hst].
            simpl. apply Forall_app. split; [exact Hst|].
            constructor; [apply strip_idem | constructor]. }
        rewrite Ef in Hinv. apply flush_ok; [exact Hinv | apply strip_idem].
  - assert (Hs : strip text = []).
    { destruct (strip text); [reflexivity | discriminate]. }
    rewrite orb_true_r. simpl.
    repeat split; try tauto; try contradiction.
Qed.

(** C6 as stated fails: a short input with a leading blank is returned
    with its blank, not trimmed. *)
Lemma short_input_not_trimmed :
  (len (lit " a") <= clamp 3000)%Z
  /\ strip (lit " a") = lit "a"
  /\ split_text (lit " a") 3000 = [lit " a"]
  /\ split_text (lit " a") 3000 <> [strip (lit " a")].
Proof.
  repeat split; try (vm_compute; reflexivity); vm_compute; discriminate.
Qed.

End Trimmed.

Section ChunkLength.

Lemma len_app (a b : str) : len (a ++ b) = (len a + len b)%Z.
Proof. unfold len. rewrite length_app. lia. Qed.

Lemma len_nonneg (s : str) : (0 <= len s)%Z.
Proof. unfold len. lia. Qed.

Lemma clamp_floor (max_length : Z) : (2000 <= clamp max_length)%Z.
Proof. unfold clamp. destruct (Z.ltb_spec max_length 2000); lia. Qed.

(** The chunks of the word-level splitting stay within the ceiling. *)
Lemma _split_by_words_within (text : str) (max_length : Z) :
  (0 <= max_length)%Z ->
  Forall (fun chunk => (len chunk <= max_length)%Z)
         (_split_by_words text max_length).
Proof.
  intros Hm.
  apply _split_by_words_ok with (Q := fun cur => (len cur <= max_length)%Z).
  - exact Hm.
  - intros cur Hcur. pose proof (len_strip cur). lia.
  - intros word _. unfold char_slices. apply Forall_forall.
    intros c Hc. apply in_map_iff in Hc. destruct Hc as [i [<- _]].
    unfold slice, len. rewrite length_firstn. lia.
  - auto.
  - intros cur word Hcur _ H. rewrite !len_app.
    change (len (lit " ")) with 1%Z. lia.
Qed.

(** A chunk that the sentence loop let grow past the ceiling: a sentence
    unit within the ceiling, added to an accumulation below the floor of
    2000 characters. *)
Definition below_floor (ceiling : Z) (units : list str) (cur : str) : Prop :=
  exists accumulated sentence,
    cur = accumulated ++ sentence
    /\ (len accumulated < 2000)%Z
    /\ (len sentence <= ceiling)%Z
    /\ In sentence units.

(** C7, as the code has it.  The chunks of the word-level splitting of an
    over-long sentence, forced slices of an over-long word included, stay
    within the (clamped) ceiling.  A chunk of [split_text] is within the
    ceiling unless it was assembled while the accumulated chunk was below
    the floor of 2000 characters: such a chunk is the trimmed
    concatenation of an accumulation shorter than 2000 characters and one
    more sentence unit within the ceiling, and it is shorter than the
    ceiling plus 2000. *)
Theorem split_text_chunk_bound (text : str) (max_length : Z) :
  let ceiling := clamp max_length in
  (forall sentence chunk,
      In chunk (_split_by_words sentence ceiling) ->
      (len chunk <= ceiling)%Z)
  /\ (forall chunk,
      In chunk (split_text text max_length) ->
      ((len chunk <= ceiling)%Z
       \/ exists cur, chunk = strip cur
                      /\ below_floor ceiling (sentence_units text) cur)
      /\ (len chunk < ceiling + 2000)%Z).
Proof.
  intros ceiling. pose proof (clamp_floor max_length) as Hc.
  fold ceiling in Hc.
  assert (Hwords : forall sentence chunk,
             In chunk (_split_by_words sentence ceiling) ->
             (len chunk <= ceiling)%Z).
  { intros sentence. apply Forall_forall.
    apply _split_by_words_within. lia. }
  split; [exact Hwords|].
  set (P := fun chunk : str =>
              (len chunk <= ceiling)%Z
              \/ exists cur, chunk = strip cur
                   /\ below_floor ceiling (sentence_units text) cur).
  set (Q := fun cur : str =>
              (len cur <= ceiling)%Z
              \/ below_floor ceiling (sentence_units text) cur).
  assert (HQP : forall cur, Q cur -> P (strip cur)).
  { intros cur [H|H]; [left | right; eauto].
    pose proof (len_strip cur). lia. }
  assert (Hbound : forall chunk, P chunk -> (len chunk < ceiling + 2000)%Z).
  { intros chunk [H|(cur & -> & a & s & -> & Ha & Hs & _)]; [lia|].
    pose proof (len_strip (a ++ s)) as L. rewrite len_app in L. lia. }
  assert (Hall : Forall P (split_text text max_length)).
  { unfold split_text. fold ceiling.
    destruct (negb (nonempty text) || negb (nonempty (strip text)));
      [constructor|].
    destruct (Z.leb_spec (len text) ceiling).
    { constructor; [left; assumption | constructor]. }
    assert (Hinv : state_ok P Q
              (fold_left (sentence_step ceiling) (sentence_units text)
                         ([], []))).
    { apply fold_left_invariant.
      { split; [constructor | left; simpl; change (len []) with 0%Z; lia]. }
      intros [chunks cur] sentence [Hst Hcur] Hin. unfold state_ok in *.
      simpl in Hst, Hcur. unfold sentence_step.
      destruct (Z.gtb_spec (len sentence) ceiling).
      - simpl. split; [|left; change (len []) with 0%Z; lia].
        apply Forall_app. split; [exact Hst|].
        apply Forall_forall. intros c Hin'. left. eapply Hwords, Hin'.
      - destruct (Z.gtb_spec (len cur + len sentence) ceiling).
        + destruct (nonempty cur && (len cur >=? 2000)%Z) eqn:E; simpl.
          * split; [|left; assumption].
            apply Forall_app. split; [exact Hst|].
            constructor; [apply HQP, Hcur | constructor].
          * split; [exact Hst|]. right. exists cur, sentence.
            repeat split; try assumption.
            apply andb_false_iff in E. destruct E as [E|E].
            -- destruct cur; [change (len []) with 0%Z; lia | discriminate].
            -- rewrite Z.geb_leb in E. apply Z.leb_gt in E. exact E.
        + simpl. split; [exact Hst|]. left. rewrite len_app. lia. }
    destruct (fold_left _ _ _) as [chunks cur]. destruct Hinv as [H1 H2].
    apply Forall_forall. intros chunk Hin. apply filter_In in Hin.
    destruct Hin as [Hin _]. revert chunk Hin. apply Forall_forall.
    apply flush_ok; [exact H1 | apply HQP, H2]. }
  rewrite Forall_forall in Hall.
  intros chunk Hin. specialize (Hall chunk Hin). split; [exact Hall|].
  apply Hbound, Hall.
Qed.

(** Two sentence units of 1902 and 1901 characters. *)
Definition two_sentences : str :=
  repeat 0x61%N 1900 ++ lit ". " ++ repeat 0x62%N 1900 ++ lit ".".

(** " a" fits in the ceiling, "  " is blank, [two_sentences] is longer
    than the ceiling. *)
Lemma split_text_short_and_trimmed_witness :
  split_text (lit " a") 3000 = [lit " a"]
  /\ split_text (lit "  ") 3000 = []
  /\ (two_sentences <> [] /\ strip two_sentences <> [])
  /\ strip two_sentences = two_sentences.
Proof.
  assert (H1 : strip (lit " a") <> []) by (vm_compute; discriminate).
  assert (H2 : (len (lit " a") <= clamp 3000)%Z) by (vm_compute; discriminate).
  assert (H3 : strip (lit "  ") = []) by (vm_compute; reflexivity).
  assert (H4 : In two_sentences (split_text two_sentences 3000))
    by (vm_compute; left; reflexivity).
  assert (H5 : (clamp 3000 < len two_sentences)%Z) by (vm_compute; reflexivity).
  pose proof (@split_text_short_and_trimmed (lit " a") 3000) as T1.
  pose proof (@split_text_short_and_trimmed (lit "  ") 3000) as T2.
  pose proof (@split_text_short_and_trimmed two_sentences 3000) as T3.
  exact (conj (proj1 T1 H1 H2)
        (conj (proj1 (proj2 T2) H3)
        (conj (proj1 (proj2 (proj2 T3)) _ H4)
              (proj2 (proj2 (proj2 T3)) H5 _ H4)))).
Defined.

Lemma split_text_chunk_bound_witness :
  In two_sentences (split_text two_sentences 3000)
  /\ (len two_sentences < clamp 3000 + 2000)%Z
  /\ In (lit "ab cd e") (_split_by_words (lit " ab  cd e ") (clamp 3000))
  /\ (len (lit "ab cd e") <= clamp 3000)%Z.
Proof.
  assert (H1 : In two_sentences (split_text two_sentences 3000))
    by (vm_compute; left; reflexivity).
  assert (H2 : In (lit "ab cd e")
                  (_split_by_words (lit " ab  cd e ") (clamp 3000)))
    by (vm_compute; left; reflexivity).
  pose proof (@split_text_chunk_bound two_sentences 3000) as T.
  cbv zeta in T.
  exact (conj H1 (conj (proj2 (proj2 T _ H1))
        (conj H2 (proj1 T _ _ H2)))).
Defined.

(** C7 as stated fails: two sentence units, each within the ceiling of
    3000, are assembled into one chunk of 3803 characters. *)
Lemma assembled_chunk_exceeds_ceiling :
  map len (sentence_units two_sentences) = [1902; 1901]%Z
  /\ split_text two_sentences 3000 = [two_sentences]
  /\ len two_sentences = 3803%Z
  /\ ~ (forall chunk, In chunk (split_text two_sentences 3000) ->
          (len chunk <= clamp 3000)%Z).
Proof.
  assert (E : split_text two_sentences 3000 = [two_sentences])
    by (vm_compute; reflexivity).
  split; [vm_compute; reflexivity|].
  split; [exact E|].
  split; [vm_compute; reflexivity|].
  intros H. specialize (H two_sentences). rewrite E in H.
  specialize (H (or_introl eq_refl)). vm_compute in H. apply H. reflexivity.
Qed.

End ChunkLength.

Section Content.

(** The non-whitespace content of a string, in order. *)
Definition content (s : str) : str := filter (fun c => negb (isspace c)) s.

(** "Hi. " followed by a sentence unit of 3001 letters. *)
Definition lost_text : str := lit "Hi. " ++ repeat 0x61%N 3001.

(** C1 (the code at the failing input).  When a sentence unit longer than
    the ceiling comes while a chunk is being accumulated, the loop sets
    the current chunk to the empty string without appending it: "Hi." is
    accumulated, then lost, and the chunks hold the letters only. *)
Theorem split_text_loses_accumulated_chunk :
  sentence_units lost_text = [lit "Hi. "; repeat 0x61%N 3001]
  /\ split_text lost_text 3000 = [repeat 0x61%N 3000; [0x61%N]]
  /\ content (join (lit " ") (split_text lost_text 3000))
     = repeat 0x61%N 3001
  /\ content lost_text = lit "Hi." ++ repeat 0x61%N 3001
  /\ content (join (lit " ") (split_text lost_text 3000))
     <> content lost_text.
Proof.
  split; [vm_compute; reflexivity|].
  split; [vm_compute; reflexivity|].
  split; [vm_compute; reflexivity|].
  split; [vm_compute; reflexivity|].
  vm_compute. discriminate.
Qed.

End Content.

(* ===================================================================== *)
(** * More properties: number words *)
(* ===================================================================== *)

Section NumberWordsShape.

(** Words separated by single blanks: the string is not empty, does not
    begin or end with a blank and holds no two blanks in a row.
    [after_blank] tells that a blank is not allowed next. *)
Fixpoint spaced_from (after_blank : bool) (s : str) : bool :=
  match s with
  | [] => negb after_blank
  | c :: s' =>
    if char_eqb c 0x20%N then negb after_blank && spaced_from true s'
    else spaced_from false s'
  end.

Definition well_spaced (s : str) : bool := spaced_from true s.

Lemma spaced_from_app (a b : str) (p : bool) :
  spaced_from p a = true -> well_spaced b = true ->
  spaced_from p (a ++ 0x20%N :: b) = true.
Proof.
  revert p. induction a as [|c a IH]; intros p Ha Hb.
  - simpl in *. rewrite Ha. exact Hb.
  - simpl in *. destruct (char_eqb c 0x20%N).
    + apply andb_true_iff in Ha. destruct Ha as [-> Ha]. simpl.
      apply IH; assumption.
    + apply IH; assumption.
Qed.

Lemma well_spaced_app (a b : str) :
  well_spaced a = true -> well_spaced b = true ->
  well_spaced (a ++ lit " " ++ b) = true.
Proof. apply spaced_from_app. Qed.

Lemma ONES_spaced (k : Z) :
  (1 <= k <= 9)%Z -> well_spaced (subscript ONES k) = true.
Proof.
  intros H.
  assert (D : (k = 1 \/ k = 2 \/ k = 3 \/ k = 4 \/ k = 5 \/ k = 6
               \/ k = 7 \/ k = 8 \/ k = 9)%Z) by lia.
  repeat (destruct D as [-> | D]; [reflexivity|]). subst. reflexivity.
Qed.

Lemma TENS_spaced (num : Z) :
  (10 <= num < 100)%Z -> well_spaced (subscript TENS (num / 10 * 10)) = true.
Proof.
  intros H.
  pose proof (Z.div_le_lower_bound num 10 1 ltac:(lia) ltac:(lia)).
  pose proof (Z.div_lt_upper_bound num 10 10 ltac:(lia) ltac:(lia)).
  assert (D : (num / 10 = 1 \/ num / 10 = 2 \/ num / 10 = 3 \/ num / 10 = 4
               \/ num / 10 = 5 \/ num / 10 = 6 \/ num / 10 = 7
               \/ num / 10 = 8 \/ num / 10 = 9)%Z) by lia.
  repeat (destruct D as [-> | D]; [reflexivity|]). rewrite D. reflexivity.
Qed.

Lemma add_remainder_spaced (result : str) (remainder : Z) (words : str) :
  well_spaced result = true ->
  ((0 < remainder)%Z -> well_spaced words = true) ->
  well_spaced (add_remainder result remainder words) = true.
Proof.
  intros Hr Hw. unfold add_remainder.
  destruct (Z.gtb_spec remainder 0); [|exact Hr].
  apply well_spaced_app; [exact Hr | apply Hw; lia].
Qed.

Lemma scale_spaced (a : str) (scale : string) :
  well_spaced a = true -> well_spaced (lit scale) = true ->
  well_spaced (a ++ lit " " ++ lit scale) = true.
Proof. apply well_spaced_app. Qed.

(** X1.  For every integer the words of [number_to_uzbek_words] are a
    non-empty string of words separated by single blanks: there is no
    leading, trailing or doubled blank. *)
Theorem number_to_uzbek_words_spaced (num : Z) :
  number_to_uzbek_words num <> []
  /\ well_spaced (number_to_uzbek_words num) = true.
Proof.
  assert (G : well_spaced (number_to_uzbek_words num) = true).
  { funelim (number_to_uzbek_words num).
    - reflexivity.
    - change (lit "минус ") with (lit "минус" ++ lit " ").
      rewrite <- app_assoc. apply well_spaced_app; [reflexivity | assumption].
    - apply add_remainder_spaced; [|intros; assumption].
      apply (@scale_spaced _ "миллиард"); [assumption | reflexivity].
    - apply add_remainder_spaced; [|intros; assumption].
      apply (@scale_spaced _ "миллион"); [assumption | reflexivity].
    - apply add_remainder_spaced; [|intros; assumption].
      destruct (num / 1000 =? 1)%Z; [reflexivity|].
      apply (@scale_spaced _ "минг"); [assumption | reflexivity].
    - apply add_remainder_spaced; [|intros; assumption].
      destruct (Z.eqb_spec (num / 100) 1); [reflexivity|].
      apply (@scale_spaced _ "юз"); [|reflexivity].
      apply ONES_spaced.
      pose proof (Z.div_le_lower_bound num 100 1 ltac:(lia) ltac:(lia)).
      pose proof (Z.div_lt_upper_bound num 100 10 ltac:(lia) ltac:(lia)).
      lia.
    - apply add_remainder_spaced; [apply TENS_spaced; lia|].
      intros Hr. apply ONES_spaced.
      pose proof (Z.mod_pos_bound num 10 ltac:(lia)). lia.
    - apply ONES_spaced. lia. }
  split; [|exact G].
  intros E. rewrite E in G. discriminate.
Qed.

(** ** No [KeyError] *)

Lemma dict_get_subscript (d : list (Z * str)) (k : Z) :
  dict_get d k <> None -> dict_get d k = Some (subscript d k).
Proof.
  unfold subscript. destruct (dict_get d k); [reflexivity | contradiction].
Qed.

Lemma number_to_uzbek_words_checked_unfold (num : Z) :
  number_to_uzbek_words_checked num =
  if (num =? 0)%Z then Some (lit "нол")
  else if (num <? 0)%Z then
    match number_to_uzbek_words_checked (Z.abs num) with
    | Some w => Some (lit "минус " ++ w)
    | None => None
    end
  else if (num >=? 1000000000)%Z then
    add_remainder_checked
      (append_checked (number_to_uzbek_words_checked (num / 1000000000))
                      (lit " миллиард"))
      (num mod 1000000000)
      (number_to_uzbek_words_checked (num mod 1000000000))
  else if (num >=? 1000000)%Z then
    add_remainder_checked
      (append_checked (number_to_uzbek_words_checked (num / 1000000))
                      (lit " миллион"))
      (num mod 1000000) (number_to_uzbek_words_checked (num mod 1000000))
  else if (num >=? 1000)%Z then
    add_remainder_checked
      (if (num / 1000 =? 1)%Z then Some (lit "минг")
       else append_checked (number_to_uzbek_words_checked (num / 1000))
                           (lit " минг"))
      (num mod 1000) (number_to_uzbek_words_checked (num mod 1000))
  else if (num >=? 100)%Z then
    add_remainder_checked
      (if (num / 100 =? 1)%Z then Some (lit "юз")
       else append_checked (dict_get ONES (num / 100)) (lit " юз"))
      (num mod 100) (number_to_uzbek_words_checked (num mod 100))
  else if (num >=? 10)%Z then
    add_remainder_checked (dict_get TENS (num / 10 * 10)) (num mod 10)
                          (dict_get ONES (num mod 10))
  else dict_get ONES num.
Proof.
  rewrite number_to_uzbek_words_checked_equation_1.
  destruct (Z.eqb_spec num 0) as [E|E];
    destruct (Z.eq_dec num 0) as [E'|E']; try contradiction; [reflexivity|].
  cbn [number_to_uzbek_words_checked_unfold_clause_1].
  destruct (Z.ltb_spec num 0); destruct (Z_lt_dec num 0); try lia;
    [reflexivity|].
  cbn [number_to_uzbek_words_checked_unfold_clause_1_clause_2].
  rewrite !Z.geb_leb.
  repeat match goal with
         | |- context [Z_ge_dec ?a ?b] =>
           destruct (Z_ge_dec a b); destruct (Z.leb_spec b a); try lia;
           cbn; try reflexivity
         end.
Qed.

(** X2.  No subscript of [ONES] or [TENS] in [number_to_uzbek_words] is on
    a missing key: the function with its [KeyError] made explicit returns
    the words for every integer. *)
Theorem number_to_uzbek_words_no_key_error (num : Z) :
  number_to_uzbek_words_checked num = Some (number_to_uzbek_words num).
Proof.
  funelim (number_to_uzbek_words num);
    rewrite number_to_uzbek_words_checked_unfold;
    rewrite ?Z.geb_leb;
    repeat match goal with
           | |- context [(?a =? 0)%Z] =>
             destruct (Z.eqb_spec a 0); try lia
           | |- context [(?a <? 0)%Z] =>
             destruct (Z.ltb_spec a 0); try lia
           | |- context [(?b <=? num)%Z] =>
             destruct (Z.leb_spec b num); try lia
           end;
    repeat match goal with
           | IH : number_to_uzbek_words_checked _ = Some _ |- _ =>
             rewrite IH; clear IH
           end;
    try reflexivity.
  - unfold add_remainder_checked, add_remainder, append_checked.
    destruct (num mod 1000000000 >? 0)%Z; reflexivity.
  - unfold add_remainder_checked, add_remainder, append_checked.
    destruct (num mod 1000000 >? 0)%Z; reflexivity.
  - unfold add_remainder_checked, add_remainder, append_checked.
    destruct (num / 1000 =? 1)%Z; destruct (num mod 1000 >? 0)%Z;
      reflexivity.
  - unfold add_remainder_checked, add_remainder, append_checked.
    assert (B : (0 <= num / 100 <= 9)%Z).
    { pose proof (Z.div_le_lower_bound num 100 1 ltac:(lia) ltac:(lia)).
      pose proof (Z.div_lt_upper_bound num 100 10 ltac:(lia) ltac:(lia)).
      lia. }
    rewrite (dict_get_subscript ONES (num / 100) (ONES_present B)).
    destruct (num / 100 =? 1)%Z; destruct (num mod 100 >? 0)%Z;
      reflexivity.
  - unfold add_remainder_checked, add_remainder.
    rewrite (dict_get_subscript TENS _ (@TENS_present num ltac:(lia))).
    pose proof (Z.mod_pos_bound num 10 ltac:(lia)) as B.
    rewrite (dict_get_subscript ONES (num mod 10)
               (@ONES_present (num mod 10) ltac:(lia))).
    destruct (num mod 10 >? 0)%Z; reflexivity.
  - apply dict_get_subscript, ONES_present. lia.
Qed.

End NumberWordsShape.

(* ===================================================================== *)
(** * More properties: numbers in text *)
(* ===================================================================== *)

Section SubstitutionFacts.

(** A character at which no match starts is kept. *)
Lemma sub_from_none (P : char -> bool) (m : Re.matcher) (repl : str -> str) :
  (forall prev c s, P c = true -> m prev (c :: s) = None) ->
  forall s prev, forallb P s = true -> Re.sub_from m repl prev 0 s = s.
Proof.
  intros Hm. induction s as [|c s IH]; intros prev Hs; [reflexivity|].
  simpl in Hs. apply andb_true_iff in Hs. destruct Hs as [Hc Hs].
  cbn [Re.sub_from]. rewrite (Hm prev c s Hc). f_equal. apply IH, Hs.
Qed.

(** A pattern without [\b] does not look at the character before. *)
Definition blind (m : Re.matcher) : Prop :=
  forall prev prev' s, m prev s = m prev' s.

Lemma sub_from_blind (m : Re.matcher) (repl : str -> str) :
  blind m ->
  forall s prev prev' skip,
    Re.sub_from m repl prev skip s = Re.sub_from m repl prev' skip s.
Proof.
  intros Hm. induction s as [|c s IH]; intros prev prev' skip; [reflexivity|].
  cbn [Re.sub_from]. destruct skip as [|k]; [|apply IH].
  rewrite (Hm prev prev'). reflexivity.
Qed.

Lemma blind_plus (p : char -> bool) (k : Re.matcher) : blind (Re.m_plus p k).
Proof. intros prev prev' s. reflexivity. Qed.

Lemma sub_from_raising_blind (m : Re.matcher) (repl : str -> option str) :
  blind m ->
  forall s prev prev' skip,
    Re.sub_from_raising m repl prev skip s
    = Re.sub_from_raising m repl prev' skip s.
Proof.
  intros Hm. induction s as [|c s IH]; intros prev prev' skip; [reflexivity|].
  cbn [Re.sub_from_raising]. destruct skip as [|k]; [|apply IH].
  rewrite (Hm prev prev'). reflexivity.
Qed.

(** The part of the text before the first character of [P] is kept, and
    the substitution goes on after it. *)
Lemma sub_from_prefix (P : char -> bool) (m : Re.matcher) (repl : str -> str)
  (pre s : str) :
  blind m ->
  (forall prev c s, P c = true -> m prev (c :: s) = None) ->
  forallb P pre = true ->
  Re.sub m repl (pre ++ s) = pre ++ Re.sub m repl s.
Proof.
  intros Hb Hm Hpre. unfold Re.sub.
  rewrite (@sub_from_app m repl pre s); [|..|lia].
  - rewrite (sub_from_none P m repl Hm pre None Hpre).
    f_equal. apply sub_from_blind, Hb.
  - intros a b prev -> Hne. destruct b as [|c b]; [contradiction|].
    rewrite forallb_app in Hpre. apply andb_true_iff in Hpre.
    destruct Hpre as [_ Hb']. simpl in Hb'. apply andb_true_iff in Hb'.
    destruct Hb' as [Hc _]. cbn [app].
    rewrite !(Hm prev c _ Hc). split; [reflexivity | discriminate].
Qed.

Lemma firstn_length_app (a b : str) : firstn (length a) (a ++ b) = a.
Proof.
  rewrite firstn_app, Nat.sub_diag, firstn_0, app_nil_r.
  apply firstn_all.
Qed.

(** A greedy run followed by a match of the rest of the pattern. *)
Lemma star_run_some (p : char -> bool) (k : Re.matcher) (run rest : str)
  (prev : option char) (n : nat) :
  forallb p run = true ->
  match rest with h :: _ => p h = false | [] => True end ->
  k (last_char prev run) rest = Some n ->
  Re.m_star p k prev (run ++ rest) = Some (length run + n).
Proof.
  revert prev. induction run as [|r run IH]; intros prev Hrun Hrest Hk.
  - simpl in *. destruct rest as [|h rest]; simpl; [exact Hk|].
    rewrite Hrest. exact Hk.
  - simpl in Hrun. apply andb_true_iff in Hrun. destruct Hrun as [Hr Hrun].
    cbn [app Re.m_star length]. rewrite Hr.
    rewrite (IH (Some r) Hrun Hrest Hk). reflexivity.
Qed.

(** A greedy run after which the rest of the pattern matches nowhere. *)
Lemma star_run_none (p : char -> bool) (k : Re.matcher) (run rest : str)
  (prev : option char) :
  forallb p run = true ->
  (forall prev' c s, p c = true -> k prev' (c :: s) = None) ->
  (forall prev', k prev' rest = None) ->
  match rest with h :: _ => p h = false | [] => True end ->
  Re.m_star p k prev (run ++ rest) = None.
Proof.
  revert prev. induction run as [|r run IH]; intros prev Hrun Hk Hrest Hh.
  - simpl. destruct rest as [|h rest]; simpl; [apply Hrest|].
    rewrite Hh. apply Hrest.
  - simpl in Hrun. apply andb_true_iff in Hrun. destruct Hrun as [Hr Hrun].
    cbn [app Re.m_star]. rewrite Hr, (IH (Some r) Hrun Hk Hrest Hh).
    apply Hk, Hr.
Qed.

End SubstitutionFacts.

Section NumbersInText2.
Context {U : Unicode.Data}.

Lemma ordinal_re_needs_digit (prev : option char) (c : char) (s : str) :
  negb (is_decimal c) = true -> ordinal_re prev (c :: s) = None.
Proof. intros H. apply plus_needs. apply negb_true_iff, H. Qed.

Lemma number_re_needs_digit (prev : option char) (c : char) (s : str) :
  negb (is_decimal c) = true -> number_re prev (c :: s) = None.
Proof. intros H. apply plus_needs. apply negb_true_iff, H. Qed.

(** X3.  A text without decimal digits is returned as it is. *)
Theorem convert_numbers_without_digits (text : str) :
  no_digit text = true -> convert_numbers_in_text text = Some text.
Proof.
  intros H. unfold convert_numbers_in_text, Re.sub, Re.sub_raising.
  rewrite (sub_from_none _ ordinal_re replace_ordinal
             ordinal_re_needs_digit text None H).
  apply (sub_from_raising_none _ number_re replace_number
           number_re_needs_digit text None H).
Qed.

Lemma int_digits_decimal (s : str) (acc n : Z) :
  int_digits acc s = Some n -> forallb is_decimal s = true.
Proof.
  revert acc. induction s as [|c s IH]; intros acc; simpl; [reflexivity|].
  unfold is_decimal at 1. destruct (decimal c); [|discriminate].
  intros H. apply (IH _ H).
Qed.

Lemma int_decimal (s : str) (n : Z) :
  int s = Some n -> s <> [] /\ forallb is_decimal s = true.
Proof.
  unfold int. destruct s as [|c s]; [discriminate|].
  destruct (length (c :: s) <=? int_max_str_digits)%nat; [|discriminate].
  intros H. split; [discriminate | eapply int_digits_decimal; eauto].
Qed.

(** The second pass after a part without digits. *)
Lemma number_pass_prefix (pre s : str) :
  no_digit pre = true ->
  Re.sub_raising number_re replace_number (pre ++ s)
  = option_map (app pre) (Re.sub_raising number_re replace_number s).
Proof.
  intros H. unfold Re.sub_raising.
  rewrite (sub_from_raising_prefix _ number_re replace_number
             number_re_needs_digit pre s None H).
  rewrite (@sub_from_raising_blind number_re replace_number
             (@blind_plus _ _) s (last_char None pre) None 0).
  reflexivity.
Qed.

Lemma ordinal_pass_prefix (pre s : str) :
  no_digit pre = true ->
  Re.sub ordinal_re replace_ordinal (pre ++ s)
  = pre ++ Re.sub ordinal_re replace_ordinal s.
Proof.
  apply sub_from_prefix; [apply blind_plus | apply ordinal_re_needs_digit].
Qed.

(** X4.  A run of decimal digits that a hyphen follows, after a text
    without digits, is read as an ordinal: the digits and the hyphen give
    the words of the number and " инчи ", and the rest of the text is
    converted as if it stood alone. *)
Theorem ordinal_in_text (pre digits rest : str) (n : Z) :
  no_digit pre = true -> int digits = Some n ->
  convert_numbers_in_text (pre ++ digits ++ lit "-" ++ rest)
  = option_map
      (fun converted =>
         pre ++ number_to_uzbek_words n ++ lit " инчи " ++ converted)
      (convert_numbers_in_text rest).
Proof.
  intros Hpre Hint. destruct (int_decimal _ Hint) as [Hne Hdec].
  unfold convert_numbers_in_text.
  rewrite ordinal_pass_prefix by exact Hpre.
  assert (E1 : Re.sub ordinal_re replace_ordinal (digits ++ lit "-" ++ rest)
               = (number_to_uzbek_words n ++ lit " инчи ")
                 ++ Re.sub ordinal_re replace_ordinal rest).
  { destruct digits as [|d ds]; [contradiction|].
    simpl in Hdec. apply andb_true_iff in Hdec. destruct Hdec as [Hd Hds].
    unfold Re.sub. cbn [app Re.sub_from].
    assert (Em : ordinal_re None (d :: ds ++ lit "-" ++ rest)
                 = Some (S (length ds + 1))).
    { unfold ordinal_re, Re.m_plus, Re.m_char at 1. rewrite Hd.
      rewrite (@star_run_some is_decimal _ ds (lit "-" ++ rest) (Some d) 1);
        [reflexivity | exact Hds | apply hyphen_not_decimal | reflexivity]. }
    rewrite Em.
    change (lit "-" ++ rest) with ([0x2D%N] ++ rest).
    rewrite (app_assoc ds).
    assert (L : length ds + 1 = length (ds ++ [0x2D%N]))
      by (rewrite length_app; reflexivity).
    rewrite L. set (passed := ds ++ [0x2D%N]).
    change (d :: passed ++ rest) with ((d :: passed) ++ rest).
    change (S (length passed)) with (length (d :: passed)).
    rewrite firstn_length_app, sub_from_skip.
    unfold replace_ordinal, passed.
    change (d :: ds ++ [0x2D%N]) with ((d :: ds) ++ [0x2D%N]).
    rewrite removelast_last, Hint.
    f_equal. apply sub_from_blind, blind_plus. }
  rewrite E1, app_assoc.
  rewrite number_pass_prefix.
  - destruct (Re.sub_raising number_re replace_number
                (Re.sub ordinal_re replace_ordinal rest)); [|reflexivity].
    simpl. rewrite <- !app_assoc. reflexivity.
  - rewrite !no_digit_app, Hpre,
      (@plain_no_digit U _ (number_to_uzbek_words_plain n)),
      (@plain_no_digit U (lit " инчи ") eq_refl). reflexivity.
Qed.

(** The character after a number that is not part of it. *)
Definition ends_number (rest : str) : Prop :=
  match rest with
  | h :: _ =>
    is_decimal h = false /\ is_separator h = false /\ h <> 0x2D%N
  | [] => True
  end.

(** The character after a run of digits that is no ordinal. *)
Definition ends_run (rest : str) : Prop :=
  match rest with
  | h :: _ => is_decimal h = false /\ h <> 0x2D%N
  | [] => True
  end.

Lemma ends_number_run (rest : str) : ends_number rest -> ends_run rest.
Proof.
  destruct rest as [|h rest]; simpl; [auto|].
  intros (H1 & _ & H3). split; assumption.
Qed.

Lemma ordinal_pass_run (digits rest : str) :
  forallb is_decimal digits = true -> ends_run rest ->
  Re.sub ordinal_re replace_ordinal (digits ++ rest)
  = digits ++ Re.sub ordinal_re replace_ordinal rest.
Proof.
  intros Hd Hrest. unfold Re.sub.
  assert (G : forall prev,
             Re.sub_from ordinal_re replace_ordinal prev 0 (digits ++ rest)
             = digits ++ Re.sub_from ordinal_re replace_ordinal None 0 rest);
    [|apply G].
  induction digits as [|d ds IH]; intros prev;
    [apply sub_from_blind, blind_plus|].
  simpl in Hd. apply andb_true_iff in Hd. destruct Hd as [Hd Hds].
  cbn [app Re.sub_from].
  assert (Em : ordinal_re prev (d :: ds ++ rest) = None).
  { unfold ordinal_re, Re.m_plus, Re.m_char at 1. rewrite Hd.
    rewrite (@star_run_none is_decimal _ ds rest (Some d)); auto.
    - intros prev' c s Hc. unfold Re.m_char.
      destruct (char_eqb 0x2D%N c) eqn:E; [|reflexivity].
      apply char_eqb_eq in E. subst c. rewrite hyphen_not_decimal in Hc.
      discriminate.
    - intros prev'. unfold Re.m_char. destruct rest as [|h rest]; [reflexivity|].
      destruct Hrest as (_ & Hh).
      destruct (char_eqb 0x2D%N h) eqn:E; [|reflexivity].
      apply char_eqb_eq in E. congruence.
    - destruct rest as [|h rest]; [exact I | apply Hrest]. }
  rewrite Em. f_equal. apply IH, Hds.
Qed.

Lemma ordinal_pass_digits (digits rest : str) :
  forallb is_decimal digits = true -> ends_number rest ->
  Re.sub ordinal_re replace_ordinal (digits ++ rest)
  = digits ++ Re.sub ordinal_re replace_ordinal rest.
Proof. intros Hd Hrest. apply ordinal_pass_run, ends_number_run; auto. Qed.

Lemma sub_head (m : Re.matcher) (repl : str -> str) (rest : str) (P : str -> Prop) :
  (forall h s, rest = h :: s -> m None rest = None) ->
  (forall h s, rest = h :: s -> forall t, P (h :: t)) ->
  P [] -> P (Re.sub m repl rest).
Proof.
  intros Hm Hp Hnil. destruct rest as [|h s]; [exact Hnil|].
  unfold Re.sub. cbn [Re.sub_from]. rewrite (Hm h s eq_refl).
  apply (Hp h s eq_refl).
Qed.

(** The first pass keeps a first character that is no digit. *)
Lemma ordinal_pass_head (rest : str) :
  ends_number rest ->
  match Re.sub ordinal_re replace_ordinal rest with
  | h :: _ => is_decimal h = false /\ is_separator h = false
  | [] => True
  end.
Proof.
  intros Hrest. apply sub_head; [| |exact I].
  - intros h s ->. apply ordinal_re_needs_digit.
    destruct Hrest as (-> & _). reflexivity.
  - intros h s -> t. destruct Hrest as (H1 & H2 & _). auto.
Qed.

(** The second pass at a run of digits that ends the number: the words of
    the number, or the digits themselves when [int] refuses them. *)
Lemma number_pass_digits (digits r1 : str) :
  digits <> [] -> forallb is_decimal digits = true ->
  match r1 with
  | h :: _ => is_decimal h = false /\ is_separator h = false
  | [] => True
  end ->
  Re.sub_raising number_re replace_number (digits ++ r1)
  = option_map
      (app match int digits with
           | Some n => number_to_uzbek_words n
           | None => digits
           end)
      (Re.sub_raising number_re replace_number r1).
Proof.
  intros Hne Hdec Hr1.
  destruct digits as [|d ds]; [contradiction|]. pose proof Hdec as Hall.
  simpl in Hdec. apply andb_true_iff in Hdec. destruct Hdec as [Hd Hds].
  unfold Re.sub_raising. cbn [app Re.sub_from_raising].
  assert (Em : number_re None (d :: ds ++ r1) = Some (S (length ds + 0))).
  { unfold number_re, Re.m_plus, Re.m_char at 1. rewrite Hd.
    rewrite (@star_run_some is_decimal _ ds r1 (Some d) 0);
      [reflexivity | exact Hds | |].
    - destruct r1; [exact I | apply Hr1].
    - unfold Re.m_opt, Re.m_char. destruct r1 as [|h r]; [reflexivity|].
      destruct Hr1 as [H1 H2]. rewrite H2. simpl. rewrite H1. reflexivity. }
  rewrite Em, Nat.add_0_r.
  change (d :: ds ++ r1) with ((d :: ds) ++ r1).
  change (S (length ds)) with (length (d :: ds)).
  rewrite firstn_length_app, sub_from_raising_skip.
  rewrite (@sub_from_raising_blind number_re replace_number
             (@blind_plus _ _) r1 (last_char (Some d) ds) None 0).
  assert (Hsep : forall c, is_separator c = true ->
                           contains c (d :: ds) = false).
  { intros c Hc. unfold contains.
    destruct (existsb (char_eqb c) (d :: ds)) eqn:E; [|reflexivity].
    apply existsb_exists in E. destruct E as (x & Hx & E).
    apply char_eqb_eq in E. subst x.
    assert (Hdx : is_decimal c = true).
    { rewrite forallb_forall in Hall. apply Hall, Hx. }
    rewrite (@separator_not_decimal U c Hc) in Hdx. discriminate. }
  unfold replace_number.
  rewrite (Hsep 0x2E%N eq_refl), (Hsep 0x2C%N eq_refl). simpl orb.
  cbv iota. cbv beta. destruct (int (d :: ds)); reflexivity.
Qed.

(** X5.  A run of decimal digits that [int] accepts, that stands after a
    text without digits and is followed by the end of the text or by a
    character that is no digit, separator or hyphen, is replaced by the
    words of the number; the rest of the text is converted as if it stood
    alone. *)
Theorem integer_in_text (pre digits rest : str) (n : Z) :
  no_digit pre = true -> int digits = Some n -> ends_number rest ->
  convert_numbers_in_text (pre ++ digits ++ rest)
  = option_map
      (fun converted => pre ++ number_to_uzbek_words n ++ converted)
      (convert_numbers_in_text rest).
Proof.
  intros Hpre Hint Hrest. destruct (int_decimal _ Hint) as [Hne Hdec].
  unfold convert_numbers_in_text.
  rewrite ordinal_pass_prefix by exact Hpre.
  rewrite ordinal_pass_digits by assumption.
  rewrite number_pass_prefix by exact Hpre.
  rewrite (@number_pass_digits digits _ Hne Hdec
             (@ordinal_pass_head rest Hrest)), Hint.
  destruct (Re.sub_raising number_re replace_number
              (Re.sub ordinal_re replace_ordinal rest)); reflexivity.
Qed.

(** X24.  A run of more decimal digits than [int] accepts (4300), in the
    same place, is left in the text as it is: the [except] of
    [replace_number] returns the match. *)
Theorem long_integer_in_text (pre digits rest : str) :
  no_digit pre = true -> forallb is_decimal digits = true ->
  int_max_str_digits < length digits -> ends_number rest ->
  convert_numbers_in_text (pre ++ digits ++ rest)
  = option_map (fun converted => pre ++ digits ++ converted)
               (convert_numbers_in_text rest).
Proof.
  intros Hpre Hdec Hlong Hrest.
  assert (Hne : digits <> []) by (intros ->; simpl in Hlong; lia).
  assert (Hint : int digits = None).
  { unfold int. destruct digits as [|d ds]; [reflexivity|].
    apply Nat.leb_gt in Hlong. rewrite Hlong. reflexivity. }
  unfold convert_numbers_in_text.
  rewrite ordinal_pass_prefix by exact Hpre.
  rewrite ordinal_pass_digits by assumption.
  rewrite number_pass_prefix by exact Hpre.
  rewrite (@number_pass_digits digits _ Hne Hdec
             (@ordinal_pass_head rest Hrest)), Hint.
  destruct (Re.sub_raising number_re replace_number
              (Re.sub ordinal_re replace_ordinal rest)); reflexivity.
Qed.

(** ** The branch of the decimals on a long run of digits *)

(** [0-9] *)
Definition ascii_digit (c : char) : bool :=
  ((0x30 <=? c) && (c <=? 0x39))%N.

Definition ascii_digit_checked (c : char) : bool :=
  implb (ascii_digit c)
        ((c <? 0x80)%N && negb (isspace c) && negb (is_separator c)).

Lemma ascii_digit_facts (c : char) :
  ascii_digit c = true ->
  is_decimal c = true /\ isspace c = false /\ is_separator c = false.
Proof.
  intros H.
  assert (Hlt : (c < N.of_nat 0x3A)%N).
  { unfold ascii_digit in H. apply andb_true_iff in H. destruct H as [_ H].
    apply N.leb_le in H. lia. }
  pose proof (@below_spec 0x3A ascii_digit_checked
                ltac:(vm_compute; reflexivity) c Hlt) as G.
  unfold ascii_digit_checked in G. rewrite H in G. cbn [implb] in G.
  apply andb_true_iff in G. destruct G as [G G3].
  apply andb_true_iff in G. destruct G as [G1 G2].
  apply negb_true_iff in G2, G3. repeat split; try assumption.
  unfold is_decimal. rewrite (decimal_ascii c G1).
  unfold ascii_digit in H. rewrite H. reflexivity.
Qed.

Lemma subst_absent (a : char) (new s : str) :
  (forall c, In c s -> c <> a) -> flat_map (subst_char a new) s = s.
Proof.
  induction s as [|c s IH]; intros H; [reflexivity|].
  cbn [flat_map]. unfold subst_char at 1.
  rewrite (proj2 (char_eqb_neq a c)); [|intros E; apply (H c); simpl; auto].
  simpl. f_equal. apply IH. intros x Hx. apply H. right. exact Hx.
Qed.

(** The first part of [s.split(sep)] when [sep] begins with a character
    that the text before it does not hold. *)
Lemma split_sep_first (h : char) (sep' a b cur : str) :
  (forall c, In c a -> c <> h) ->
  exists parts,
    split_sep_from (h :: sep') 0 cur (a ++ (h :: sep') ++ b)
    = (cur ++ a) :: parts.
Proof.
  revert cur. induction a as [|c a IH]; intros cur Ha.
  - cbn [app split_sep_from].
    assert (E : startswith (h :: sep' ++ b) (h :: sep') = true).
    { cbn [startswith]. rewrite char_eqb_refl. simpl.
      clear. induction sep' as [|x sep' IH]; [reflexivity|].
      cbn [app startswith]. rewrite char_eqb_refl. exact IH. }
    rewrite E, app_nil_r. eexists. reflexivity.
  - cbn [app split_sep_from].
    assert (E : startswith (c :: a ++ h :: sep' ++ b) (h :: sep') = false).
    { cbn [startswith].
      rewrite (proj2 (char_eqb_neq h c)); [reflexivity|].
      intros E. apply (Ha c); simpl; auto. }
    rewrite E.
    destruct (IH (cur ++ [c])) as [parts Hp];
      [intros x Hx; apply Ha; right; exact Hx|].
    cbn [app] in Hp. rewrite Hp, <- app_assoc. eexists. reflexivity.
Qed.

(** With more digits before the separator than [int] accepts,
    [replace_number] raises. *)
Lemma replace_number_long (digits after : str) (sep : char) :
  forallb ascii_digit digits = true ->
  int_max_str_digits < length digits ->
  is_separator sep = true ->
  replace_number (digits ++ sep :: after) = None.
Proof.
  intros Hd Hlong Hsep. rewrite forallb_forall in Hd.
  assert (Hfacts : forall c, In c digits ->
            is_decimal c = true /\ isspace c = false
            /\ is_separator c = false).
  { intros c Hc. apply ascii_digit_facts, Hd, Hc. }
  assert (Hno : forall a, is_separator a = true \/ a = 0x20%N ->
                forall c, In c digits -> c <> a).
  { intros a Ha c Hc ->. destruct (Hfacts _ Hc) as (_ & H2 & H3).
    destruct Ha as [Ha | ->]; [congruence|]. vm_compute in H2.
    discriminate. }
  unfold replace_number.
  assert (Hin : contains 0x2E%N (digits ++ sep :: after)
                || contains 0x2C%N (digits ++ sep :: after) = true).
  { unfold contains. rewrite !existsb_app. cbn [existsb].
    unfold is_separator in Hsep. apply orb_true_iff in Hsep.
    destruct Hsep as [E|E]; apply char_eqb_eq in E; subst sep;
      rewrite char_eqb_refl, ?orb_true_r; reflexivity. }
  rewrite Hin.
  assert (Hshape : exists rest,
            replace (replace (digits ++ sep :: after) (lit ".")
                             (lit " вергул "))
                    (lit ",") (lit " вергул ")
            = digits ++ lit " вергул " ++ rest).
  { change (lit ",") with [0x2C%N]. change (lit ".") with [0x2E%N].
    rewrite !replace_char, flat_map_app.
    rewrite (@subst_absent 0x2E%N _ digits
               (Hno 0x2E%N (or_introl (@eq_refl bool true)))).
    rewrite flat_map_app.
    rewrite (@subst_absent 0x2C%N _ digits
               (Hno 0x2C%N (or_introl (@eq_refl bool true)))).
    unfold is_separator in Hsep. apply orb_true_iff in Hsep.
    destruct Hsep as [E|E]; apply char_eqb_eq in E; subst sep.
    - cbn [flat_map]. unfold subst_char at 2. rewrite char_eqb_refl.
      rewrite flat_map_app.
      change (flat_map (subst_char 0x2C%N (lit " вергул "))
                       (lit " вергул "))
        with (lit " вергул ").
      eexists. reflexivity.
    - cbn [flat_map]. unfold subst_char at 2.
      change (char_eqb 0x2E%N 0x2C%N) with false. cbv iota.
      cbn [app flat_map]. unfold subst_char at 1. rewrite char_eqb_refl.
      eexists. reflexivity. }
  destruct Hshape as [rest ->].
  unfold split_sep.
  destruct (@split_sep_first 0x20%N (lit "вергул ") digits rest []
              (Hno 0x20%N (or_intror eq_refl))) as [parts Hp].
  match goal with
  | |- context [for_each _ ?l _] =>
    replace l with (([] ++ digits) :: parts) by (symmetry; exact Hp)
  end.
  cbn [app for_each].
  assert (Hpart : decimal_part [] digits = None).
  { unfold decimal_part.
    assert (Hsolid : solid digits = true).
    { apply forallb_forall. intros c Hc. apply negb_true_iff.
      apply (Hfacts c Hc). }
    rewrite (strip_solid digits Hsolid).
    assert (Hdig : str_isdigit digits = true).
    { unfold str_isdigit. destruct digits as [|d ds];
        [simpl in Hlong; lia|].
      apply forallb_forall. intros c Hc. apply (Hfacts c Hc). }
    rewrite Hdig. unfold int.
    destruct digits as [|d ds]; [reflexivity|].
    apply Nat.leb_gt in Hlong. rewrite Hlong. reflexivity. }
  rewrite Hpart. reflexivity.
Qed.

(** X25.  A decimal whose digits before the separator are more than [int]
    accepts (4300) makes the conversion raise: in the branch of the
    decimals [int] is called outside any [try], and nothing catches its
    [ValueError]. *)
Theorem long_decimal_raises (pre digits rest : str) (sep : char) :
  no_digit pre = true -> forallb ascii_digit digits = true ->
  int_max_str_digits < length digits -> is_separator sep = true ->
  convert_numbers_in_text (pre ++ digits ++ sep :: rest) = None.
Proof.
  intros Hpre Hd Hlong Hsep.
  assert (Hdec : forallb is_decimal digits = true).
  { rewrite forallb_forall in *. intros c Hc.
    apply (ascii_digit_facts c (Hd c Hc)). }
  pose proof (@separator_not_decimal U sep Hsep) as Hsd.
  assert (Hnh : sep <> 0x2D%N).
  { intros ->. vm_compute in Hsep. discriminate. }
  unfold convert_numbers_in_text.
  rewrite ordinal_pass_prefix by exact Hpre.
  rewrite (@ordinal_pass_run digits (sep :: rest) Hdec (conj Hsd Hnh)).
  rewrite number_pass_prefix by exact Hpre.
  unfold Re.sub at 1. cbn [Re.sub_from].
  rewrite (@ordinal_re_needs_digit None sep rest);
    [|rewrite Hsd; reflexivity].
  set (r2 := Re.sub_from ordinal_re replace_ordinal (Some sep) 0 rest).
  destruct digits as [|d ds]; [simpl in Hlong; lia|].
  pose proof Hdec as Hdec'. simpl in Hdec'.
  apply andb_true_iff in Hdec'. destruct Hdec' as [Hd0 Hds].
  destruct (Re.m_star is_decimal Re.m_end (Some sep) r2) as [n2|] eqn:E2;
    [|exfalso; eapply (@total_star is_decimal Re.m_end total_end); eauto].
  assert (Em : number_re None ((d :: ds) ++ sep :: r2)
               = Some (S (length ds + S n2))).
  { unfold number_re, Re.m_plus, Re.m_char at 1. cbn [app]. rewrite Hd0.
    rewrite (@star_run_some is_decimal _ ds (sep :: r2) (Some d) (S n2));
      [reflexivity | exact Hds | exact Hsd |].
    unfold Re.m_opt, Re.m_char. rewrite Hsep, E2. reflexivity. }
  unfold Re.sub_raising.
  change ((d :: ds) ++ sep :: r2) with (d :: ds ++ sep :: r2) in *.
  cbn [Re.sub_from_raising]. rewrite Em.
  assert (Ef : firstn (S (length ds + S n2)) (d :: ds ++ sep :: r2)
               = (d :: ds) ++ sep :: firstn n2 r2).
  { change (d :: ds ++ sep :: r2) with ((d :: ds) ++ sep :: r2).
    rewrite firstn_app.
    replace (S (length ds + S n2) - length (d :: ds)) with (S n2)
      by (simpl; lia).
    rewrite firstn_all2 by (simpl; lia). reflexivity. }
  rewrite Ef, (@replace_number_long (d :: ds) (firstn n2 r2) sep Hd Hlong
                 Hsep).
  reflexivity.
Qed.

End NumbersInText2.

Section NumbersInText2Examples.
Import Basic.

Lemma convert_numbers_without_digits_witness :
  no_digit (lit "Salom dunyo!") = true
  /\ convert_numbers_in_text (lit "Salom dunyo!")
     = Some (lit "Salom dunyo!").
Proof.
  assert (H : no_digit (lit "Salom dunyo!") = true) by reflexivity.
  exact (conj H (@convert_numbers_without_digits Basic.data _ H)).
Defined.

Lemma ordinal_in_text_witness :
  no_digit (lit "Bugun ") = true /\ int (lit "15") = Some 15%Z
  /\ convert_numbers_in_text (lit "Bugun " ++ lit "15" ++ lit "-" ++ lit "aprel")
     = option_map
         (fun converted =>
            lit "Bugun " ++ number_to_uzbek_words 15 ++ lit " инчи "
            ++ converted)
         (convert_numbers_in_text (lit "aprel")).
Proof.
  assert (H1 : no_digit (lit "Bugun ") = true) by reflexivity.
  assert (H2 : int (lit "15") = Some 15%Z) by reflexivity.
  exact (conj H1 (conj H2
    (@ordinal_in_text Basic.data _ _ (lit "aprel") _ H1 H2))).
Defined.

Lemma integer_in_text_witness :
  no_digit (lit "Men ") = true /\ int (lit "25") = Some 25%Z
  /\ ends_number (lit " yoshdaman")
  /\ convert_numbers_in_text (lit "Men " ++ lit "25" ++ lit " yoshdaman")
     = option_map
         (fun converted => lit "Men " ++ number_to_uzbek_words 25 ++ converted)
         (convert_numbers_in_text (lit " yoshdaman")).
Proof.
  assert (H1 : no_digit (lit "Men ") = true) by reflexivity.
  assert (H2 : int (lit "25") = Some 25%Z) by reflexivity.
  assert (H3 : ends_number (lit " yoshdaman")).
  { repeat split. vm_compute. discriminate. }
  exact (conj H1 (conj H2 (conj H3
    (@integer_in_text Basic.data _ _ _ _ H1 H2 H3)))).
Defined.

(** 4300 zeros and a seven: one digit more than [int] accepts. *)
Definition long_number : str := repeat 0x30%N 4300 ++ lit "7".

Lemma long_integer_in_text_witness :
  no_digit (lit "Men ") = true
  /\ forallb is_decimal long_number = true
  /\ int_max_str_digits < length long_number
  /\ ends_number (lit " ta")
  /\ convert_numbers_in_text (lit "Men " ++ long_number ++ lit " ta")
     = option_map (fun converted => lit "Men " ++ long_number ++ converted)
                  (convert_numbers_in_text (lit " ta")).
Proof.
  assert (H1 : no_digit (lit "Men ") = true) by reflexivity.
  assert (H2 : forallb is_decimal long_number = true)
    by (vm_compute; reflexivity).
  assert (H3 : int_max_str_digits < length long_number)
    by (apply Nat.ltb_lt; vm_compute; reflexivity).
  assert (H4 : ends_number (lit " ta")).
  { repeat split. vm_compute. discriminate. }
  exact (conj H1 (conj H2 (conj H3 (conj H4
    (@long_integer_in_text Basic.data _ _ _ H1 H2 H3 H4))))).
Defined.

Lemma long_decimal_raises_witness :
  no_digit (lit "narx ") = true
  /\ forallb ascii_digit long_number = true
  /\ int_max_str_digits < length long_number
  /\ is_separator 0x2C%N = true
  /\ convert_numbers_in_text (lit "narx " ++ long_number ++ 0x2C%N :: lit "5")
     = None.
Proof.
  assert (H1 : no_digit (lit "narx ") = true) by reflexivity.
  assert (H2 : forallb ascii_digit long_number = true)
    by (vm_compute; reflexivity).
  assert (H3 : int_max_str_digits < length long_number)
    by (apply Nat.ltb_lt; vm_compute; reflexivity).
  assert (H4 : is_separator 0x2C%N = true) by reflexivity.
  exact (conj H1 (conj H2 (conj H3 (conj H4
    (@long_decimal_raises Basic.data _ _ (lit "5") _ H1 H2 H3 H4))))).
Defined.

End NumbersInText2Examples.

(* ===================================================================== *)
(** * More properties: transliteration *)
(* ===================================================================== *)

Section TransliterateFixed.

Lemma startswith_in (old s : str) (x : char) :
  startswith s old = true -> In x old -> In x s.
Proof.
  revert s. induction old as [|o old IH]; intros s H Hx; [contradiction|].
  destruct s as [|c s]; [discriminate|]. simpl in H.
  apply andb_true_iff in H. destruct H as [E H]. apply char_eqb_eq in E.
  destruct Hx as [<-|Hx]; [left; symmetry; exact E | right; eauto].
Qed.

(** A pattern with a character that the text does not hold is not found. *)
Lemma replace_absent (s old new : str) (x : char) :
  In x old -> ~ In x s -> replace s old new = s.
Proof.
  intros Hx. unfold replace. induction s as [|c s IH]; intros Hs;
    [reflexivity|].
  cbn [replace_from].
  destruct (startswith (c :: s) old) eqn:E.
  - exfalso. apply Hs. eapply startswith_in; eauto.
  - f_equal. apply IH. intros H. apply Hs. right. exact H.
Qed.

(** The characters on which no step of [latin_to_cyrillic] acts: no ASCII
    letter but [c], [w], [C], [W], and none of the apostrophe variants
    U+0060, U+02BB, U+02BC. *)
Definition settled (c : char) : bool :=
  (negb (ascii_letter c) || existsb (char_eqb c) (lit "cwCW"))
  && negb (existsb (char_eqb c) [0x60; 0x2BB; 0x2BC]%N).

Lemma settled_not_key (c : char) :
  settled c = true -> ~ In c (single_keys LATIN_TO_CYRILLIC).
Proof.
  intros Hs Hin.
  assert (B : (c < N.of_nat 128)%N).
  { assert (K : forallb (fun k => (k <? 128)%N)
                        (single_keys LATIN_TO_CYRILLIC) = true)
      by (vm_compute; reflexivity).
    rewrite forallb_forall in K. apply N.ltb_lt. apply (K c Hin). }
  pose proof (@below_spec 128
    (fun c => implb (settled c)
                    (negb (existsb (char_eqb c)
                                   (single_keys LATIN_TO_CYRILLIC))))
    ltac:(vm_compute; reflexivity) c B) as G.
  cbv beta in G. rewrite Hs in G. cbn [implb] in G.
  apply negb_true_iff, not_in_existsb in G. contradiction.
Qed.

Lemma settled_not_variant (c : char) :
  settled c = true -> ~ In c [0x60; 0x2BB; 0x2BC]%N.
Proof.
  unfold settled. rewrite andb_true_iff, negb_true_iff.
  intros [_ H]. apply not_in_existsb. exact H.
Qed.

(** Every key of the table holds the key of a single-character entry. *)
Definition key_checked (entry : str * str) : bool :=
  existsb (fun x => existsb (char_eqb x) (single_keys LATIN_TO_CYRILLIC))
          (fst entry).

Lemma key_has_single (entry : str * str) :
  In entry LATIN_TO_CYRILLIC ->
  exists x, In x (fst entry) /\ In x (single_keys LATIN_TO_CYRILLIC).
Proof.
  intros Hin.
  assert (K : forallb key_checked LATIN_TO_CYRILLIC = true)
    by (vm_compute; reflexivity).
  rewrite forallb_forall in K. specialize (K entry Hin).
  unfold key_checked in K. apply existsb_exists in K.
  destruct K as (x & Hx & E). apply existsb_exists in E.
  destruct E as (y & Hy & E). apply char_eqb_eq in E. subst y.
  exists x. auto.
Qed.

Lemma replace_same (s : str) (a : char) : replace s [a] [a] = s.
Proof.
  rewrite replace_char. induction s as [|c s IH]; [reflexivity|].
  simpl. rewrite IH. unfold subst_char.
  destruct (char_eqb a c) eqn:E; [|reflexivity].
  apply char_eqb_eq in E. subst. reflexivity.
Qed.

Lemma settled_unchanged (text : str) :
  forallb settled text = true -> latin_to_cyrillic text = text.
Proof.
  intros H. rewrite forallb_forall in H.
  assert (Hkey : forall x, In x (single_keys LATIN_TO_CYRILLIC) ->
                           ~ In x text).
  { intros x Hx Hin. exact (@settled_not_key x (H x Hin) Hx). }
  assert (Hvar : forall x, In x [0x60; 0x2BB; 0x2BC]%N -> ~ In x text).
  { intros x Hx Hin. exact (@settled_not_variant x (H x Hin) Hx). }
  unfold latin_to_cyrillic.
  assert (E1 : normalize_apostrophes text = text).
  { unfold normalize_apostrophes, apostrophe_variants. cbn [fold_left].
    change (lit "'") with [0x27%N]. rewrite !replace_same.
    rewrite (@replace_absent text [0x60%N] _ 0x60%N);
      [|left; reflexivity | apply Hvar; simpl; auto].
    rewrite (@replace_absent text [0x2BB%N] _ 0x2BB%N);
      [|left; reflexivity | apply Hvar; simpl; auto].
    apply (@replace_absent text [0x2BC%N] _ 0x2BC%N);
      [left; reflexivity | apply Hvar; simpl; auto]. }
  rewrite E1.
  assert (G : forall f : str -> str * str -> str,
             (forall s e, f s e = s \/ f s e = replace s (fst e) (snd e)) ->
             fold_left f LATIN_TO_CYRILLIC text = text).
  { intros f Hf.
    apply fold_left_invariant with (I := fun s => s = text); [reflexivity|].
    intros s e -> Hin. destruct (Hf text e) as [-> | ->]; [reflexivity|].
    destruct (@key_has_single e Hin) as (x & Hx & Hk).
    apply (@replace_absent text (fst e) (snd e) x Hx (Hkey x Hk)). }
  rewrite (G replace_multi), (G replace_single); [reflexivity| |].
  - intros s [latin cyr]. unfold replace_single.
    destruct (length latin =? 1)%nat; auto.
  - intros s [latin cyr]. unfold replace_multi.
    destruct (1 <? length latin)%nat; auto.
Qed.

(** X6.  A text without ASCII letters other than [c], [w], [C], [W] and
    without the apostrophe variants U+0060, U+02BB, U+02BC (a text already
    in Cyrillic, digits, blanks, punctuation) is left unchanged by
    [latin_to_cyrillic]. *)
Theorem latin_to_cyrillic_settled (text : str) :
  forallb settled text = true -> latin_to_cyrillic text = text.
Proof. apply settled_unchanged. Qed.

Lemma replace_char_removes (s new : str) (a : char) :
  ~ In a new -> ~ In a (replace s [a] new).
Proof.
  intros Hn. rewrite replace_char. induction s as [|c s IH]; [auto|].
  simpl. rewrite in_app_iff. unfold subst_char at 1.
  destruct (char_eqb a c) eqn:E; [tauto|].
  apply char_eqb_neq in E. simpl. intros [[H|[]]|H]; [congruence | tauto].
Qed.

Lemma replace_keeps_out (s old new : str) (a : char) :
  ~ In a new -> ~ In a s -> ~ In a (replace s old new).
Proof.
  intros Hn Hs Hin.
  assert (F : Forall (fun c => c <> a) (replace s old new)).
  { apply replace_forall; apply Forall_forall; intros c Hc ->; auto. }
  rewrite Forall_forall in F. exact (F a Hin eq_refl).
Qed.

(** After [latin_to_cyrillic] none of the apostrophe variants U+0060,
    U+02BB, U+02BC is left. *)
Lemma latin_to_cyrillic_no_variant (text : str) (v : char) :
  In v [0x60; 0x2BB; 0x2BC]%N -> ~ In v (latin_to_cyrillic text).
Proof.
  intros Hv.
  assert (Hq : ~ In v [0x27%N]).
  { intros [E|[]]. subst v. simpl in Hv.
    repeat (destruct Hv as [Hv|Hv]; [discriminate|]). exact Hv. }
  assert (Hnorm : ~ In v (normalize_apostrophes text)).
  { unfold normalize_apostrophes, apostrophe_variants. cbn [fold_left].
    change (lit "'") with [0x27%N]. rewrite !replace_same.
    simpl in Hv. destruct Hv as [<-|[<-|[<-|[]]]].
    - apply replace_keeps_out; [exact Hq|].
      apply replace_keeps_out; [exact Hq|].
      apply replace_char_removes. exact Hq.
    - apply replace_keeps_out; [exact Hq|].
      apply replace_char_removes. exact Hq.
    - apply replace_char_removes. exact Hq. }
  assert (Hval : forall e, In e LATIN_TO_CYRILLIC -> ~ In v (snd e)).
  { intros e He Hin.
    assert (K : forallb (fun e => forallb settled (snd e))
                        LATIN_TO_CYRILLIC = true)
      by (vm_compute; reflexivity).
    rewrite forallb_forall in K. specialize (K e He).
    rewrite forallb_forall in K.
    exact (@settled_not_variant v (K v Hin) Hv). }
  unfold latin_to_cyrillic.
  apply fold_left_invariant with (I := fun s => ~ In v s).
  - apply fold_left_invariant with (I := fun s => ~ In v s); [exact Hnorm|].
    intros s [latin cyr] Hs Hin. unfold replace_multi.
    destruct (1 <? length latin)%nat; [|exact Hs].
    apply replace_keeps_out; [apply (Hval _ Hin) | exact Hs].
  - intros s [latin cyr] Hs Hin. unfold replace_single.
    destruct (length latin =? 1)%nat; [|exact Hs].
    apply replace_keeps_out; [apply (Hval _ Hin) | exact Hs].
Qed.

(** X7.  [latin_to_cyrillic] is idempotent: transliterating a
    transliterated text changes nothing. *)
Theorem latin_to_cyrillic_idempotent (text : str) :
  latin_to_cyrillic (latin_to_cyrillic text) = latin_to_cyrillic text.
Proof.
  apply settled_unchanged. apply forallb_forall. intros c Hc.
  pose proof (latin_to_cyrillic_letters text) as L.
  rewrite Forall_forall in L. specialize (L c Hc).
  unfold settled. apply andb_true_iff. split.
  - destruct (ascii_letter c) eqn:E; [|reflexivity]. cbn [negb orb].
    apply existsb_exists. exists c. split; [apply L; reflexivity|].
    apply char_eqb_refl.
  - apply negb_true_iff, not_in_existsb. intros Hv.
    exact (@latin_to_cyrillic_no_variant text c Hv Hc).
Qed.

End TransliterateFixed.

Section TransliterateFixedExamples.

Lemma latin_to_cyrillic_settled_witness :
  forallb settled (lit "Салом, дунё 25!") = true
  /\ latin_to_cyrillic (lit "Салом, дунё 25!") = lit "Салом, дунё 25!".
Proof.
  assert (H : forallb settled (lit "Салом, дунё 25!") = true)
    by (vm_compute; reflexivity).
  exact (conj H (@latin_to_cyrillic_settled _ H)).
Defined.

End TransliterateFixedExamples.

(* ===================================================================== *)
(** * More properties: acronyms *)
(* ===================================================================== *)

Section AcronymsTwice.
Context {U : Unicode.Data}.

(** No letter of the class [[A-ZА-ЯЁҚҒҲЎ]]. *)
Definition no_capital (s : str) : bool :=
  forallb (fun c => negb (acronym_class c)) s.

Lemma acronym_re_needs_capital (prev : option char) (c : char) (s : str) :
  negb (acronym_class c) = true -> acronym_re prev (c :: s) = None.
Proof.
  intros H. apply acronym_re_outside. simpl. apply negb_true_iff, H.
Qed.

Lemma no_capital_unchanged (text : str) :
  no_capital text = true -> process_acronyms_in_text text = text.
Proof.
  intros H. unfold process_acronyms_in_text, Re.sub.
  apply (sub_from_none _ acronym_re replace_acronym
           acronym_re_needs_capital text None H).
Qed.

(** X8.  A text that holds no capital letter of the class of the pattern
    is returned as it is. *)
Theorem process_acronyms_without_capitals (text : str) :
  no_capital text = true -> process_acronyms_in_text text = text.
Proof. apply no_capital_unchanged. Qed.

Lemma no_capital_app (a b : str) :
  no_capital (a ++ b) = no_capital a && no_capital b.
Proof. apply forallb_app. Qed.

Lemma no_capital_stops (s : str) : no_capital s = true -> stops_outside s.
Proof.
  intros H pre' c ->. rewrite no_capital_app in H.
  apply andb_true_iff in H. destruct H as [_ H]. simpl in H.
  rewrite andb_true_r in H. apply negb_true_iff, H.
Qed.

(** The first run of capitals of a text. *)
Lemma first_run (t : str) :
  no_capital t = true
  \/ exists pre run post,
       t = pre ++ run ++ post /\ no_capital pre = true
       /\ run <> [] /\ forallb acronym_class run = true
       /\ starts_outside post.
Proof.
  induction t as [|c t IH]; [left; reflexivity|].
  destruct (acronym_class c) eqn:E.
  - right. exists [], (c :: take_while acronym_class t),
      (drop_while acronym_class t).
    destruct (take_drop_while acronym_class t) as (H1 & H2 & H3).
    repeat split.
    + simpl. rewrite <- H1. reflexivity.
    + discriminate.
    + simpl. rewrite E, H2. reflexivity.
    + unfold starts_outside. destruct (drop_while acronym_class t); auto.
  - destruct IH as [IH | (pre & run & post & -> & H1 & H2 & H3 & H4)].
    + left. simpl. rewrite E, IH. reflexivity.
    + right. exists (c :: pre), run, post. repeat split; auto.
      simpl. rewrite E, H1. reflexivity.
Qed.

(** Processing keeps a first character that is outside the class. *)
Lemma process_outside_head (post : str) :
  starts_outside post ->
  starts_outside (process_acronyms_in_text post)
  /\ right_delimited (process_acronyms_in_text post) = right_delimited post.
Proof.
  intros H. destruct post as [|h s]; [split; reflexivity|].
  unfold process_acronyms_in_text, Re.sub. cbn [Re.sub_from].
  rewrite (acronym_re_outside None (h :: s) H). split; [exact H | reflexivity].
Qed.

(** The names of the letters hold no capital of the class. *)
Definition name_plain (c : char) : bool :=
  implb (acronym_class c)
    match letter_get LETTER_NAMES_CYRILLIC c with
    | Some name => no_capital name
    | None =>
      match letter_get LETTER_NAMES_LATIN c with
      | Some name => no_capital name
      | None =>
        ((0x410 <=? c) && (c <=? 0x42F))%N
        && negb (acronym_class (c + 0x20)%N)
      end
    end.

Lemma letter_name_no_capital (c : char) :
  acronym_class c = true -> no_capital (letter_name c) = true.
Proof.
  intros Hc.
  pose proof (@below_spec 0x500 name_plain ltac:(vm_compute; reflexivity) c
                (@Basic.capital_below c (acronym_class_capital c Hc))) as H.
  unfold name_plain in H. rewrite Hc in H. cbn [implb] in H.
  unfold letter_name.
  destruct (letter_get LETTER_NAMES_CYRILLIC c); [exact H|].
  destruct (letter_get LETTER_NAMES_LATIN c); [exact H|].
  apply andb_true_iff in H. destruct H as [H1 H2].
  rewrite (lower_cyrillic_capital c H1). unfold no_capital. simpl.
  rewrite H2. reflexivity.
Qed.

Lemma join_no_capital (names : list str) :
  forallb no_capital names = true ->
  no_capital (join (lit "-") names) = true.
Proof.
  induction names as [|a names IH]; [reflexivity|].
  simpl forallb. rewrite andb_true_iff. intros [Ha Hn].
  destruct names as [|b names]; [exact Ha|].
  change (join (lit "-") (a :: b :: names))
    with (a ++ lit "-" ++ join (lit "-") (b :: names)).
  rewrite !no_capital_app, Ha, (IH Hn). reflexivity.
Qed.

Lemma spell_out_no_capital (run : str) :
  forallb acronym_class run = true ->
  no_capital (spell_out_acronym run) = true.
Proof.
  intros H. unfold spell_out_acronym. apply join_no_capital.
  rewrite forallb_forall in *. intros name Hn.
  apply in_map_iff in Hn. destruct Hn as (c & <- & Hc).
  apply letter_name_no_capital, H, Hc.
Qed.

(** A maximal run between a text that stops outside the class and a text
    that starts outside it. *)
Lemma process_around_run (pre run post : str) :
  stops_outside pre -> starts_outside post ->
  run <> [] -> forallb acronym_class run = true ->
  process_acronyms_in_text (pre ++ run ++ post)
  = process_acronyms_in_text pre
    ++ (if (2 <=? length run)%nat && delimited pre post
        then spell_out_acronym run else run)
    ++ process_acronyms_in_text post.
Proof.
  intros Hpre Hpost Hne Hrun.
  unfold process_acronyms_in_text, Re.sub.
  rewrite (@sub_from_app acronym_re replace_acronym pre (run ++ post)
             (acronym_re_local (run ++ post) Hpre) None 0 ltac:(lia)).
  f_equal.
  destruct run as [|r run']; [contradiction|].
  pose proof Hrun as Hrun0.
  simpl in Hrun. apply andb_true_iff in Hrun. destruct Hrun as [Hr Hrun'].
  cbn [app].
  rewrite (sub_run replace_acronym (last_char None pre) r run' post
             Hr Hrun' Hpost).
  rewrite (sub_outside replace_acronym (last_char (Some r) run') None post
             Hpost).
  f_equal. unfold delimited.
  rewrite (replace_acronym_run Hne Hrun0).
  destruct (2 <=? length (r :: run'))%nat;
    destruct (left_delimited (last_char None pre) && right_delimited post);
    reflexivity.
Qed.

(** X9.  [process_acronyms_in_text] is idempotent: a spelled acronym holds
    no capital of the class, and the runs that were left unchanged have
    the same neighbours the second time. *)
Theorem process_acronyms_idempotent (text : str) :
  process_acronyms_in_text (process_acronyms_in_text text)
  = process_acronyms_in_text text.
Proof.
  remember (length text) as n eqn:Hn. revert text Hn.
  induction n as [n IH] using lt_wf_ind. intros text Hn.
  destruct (first_run text)
    as [H | (pre & run & post & -> & Hpre & Hne & Hrun & Hpost)].
  - rewrite (no_capital_unchanged text H).
    apply no_capital_unchanged, H.
  - assert (IHpost : process_acronyms_in_text (process_acronyms_in_text post)
                     = process_acronyms_in_text post).
    { apply (IH (length post)); [|reflexivity].
      subst n. rewrite !length_app.
      destruct run; [contradiction | simpl; lia]. }
    destruct (process_outside_head post Hpost) as [Hpost' Hrd].
    rewrite (@process_around_run pre run post
               (@no_capital_stops pre Hpre) Hpost Hne Hrun), (no_capital_unchanged pre Hpre).
    destruct ((2 <=? length run)%nat && delimited pre post) eqn:D.
    + (* the run was spelled *)
      set (X := spell_out_acronym run).
      assert (HX : no_capital (pre ++ X) = true).
      { rewrite no_capital_app, Hpre. apply spell_out_no_capital, Hrun. }
      rewrite app_assoc.
      unfold process_acronyms_in_text at 1, Re.sub.
      rewrite (@sub_from_app acronym_re replace_acronym (pre ++ X)
                 (process_acronyms_in_text post)
                 (@acronym_re_local U (pre ++ X) _ (@no_capital_stops _ HX)) None 0
                 ltac:(lia)).
      rewrite (sub_from_none _ acronym_re replace_acronym
                 acronym_re_needs_capital (pre ++ X) None HX).
      rewrite (sub_outside replace_acronym _ None _ Hpost').
      fold (Re.sub acronym_re replace_acronym
              (process_acronyms_in_text post)).
      fold (process_acronyms_in_text (process_acronyms_in_text post)).
      rewrite IHpost. reflexivity.
    + (* the run was kept *)
      rewrite (@process_around_run pre run (process_acronyms_in_text post)
                 (@no_capital_stops pre Hpre) Hpost' Hne Hrun), (no_capital_unchanged pre Hpre), IHpost.
      unfold delimited in *. rewrite Hrd, D. reflexivity.
Qed.

End AcronymsTwice.

Section AcronymsTwiceExamples.
Import Basic.

Lemma process_acronyms_without_capitals_witness :
  no_capital (lit "salom, dunyo 25") = true
  /\ process_acronyms_in_text (lit "salom, dunyo 25") = lit "salom, dunyo 25".
Proof.
  assert (H : no_capital (lit "salom, dunyo 25") = true) by reflexivity.
  exact (conj H (@process_acronyms_without_capitals Basic.data _ H)).
Defined.

End AcronymsTwiceExamples.

(* ===================================================================== *)
(** * More properties: the three steps of [_generate_speech] together *)
(* ===================================================================== *)

Section PlainText.
Context {U : Unicode.Data}.

(** A character that none of the three steps touches: no capital of the
    class of the acronyms, no decimal digit, no ASCII letter but [c] and
    [w], no apostrophe variant. *)
Definition untouched (c : char) : bool :=
  settled c && negb (acronym_class c) && negb (is_decimal c).

(** X23.  A text of such characters (Cyrillic lower-case words, blanks,
    punctuation) goes through the acronyms, the numbers and the
    transliteration unchanged, whichever script is found to prevail. *)
Theorem normalize_plain_text (text : str) :
  forallb untouched text = true ->
  normalize text
  = Some (text, (count is_latin text >? count is_cyrillic text)%Z).
Proof.
  intros H. rewrite forallb_forall in H.
  assert (H1 : forallb settled text = true).
  { apply forallb_forall. intros c Hc. specialize (H c Hc).
    unfold untouched in H.
    apply andb_true_iff in H. destruct H as [H _].
    apply andb_true_iff in H. tauto. }
  assert (H2 : no_capital text = true).
  { apply forallb_forall. intros c Hc. specialize (H c Hc).
    unfold untouched in H.
    apply andb_true_iff in H. destruct H as [H _].
    apply andb_true_iff in H. tauto. }
  assert (H3 : no_digit text = true).
  { apply forallb_forall. intros c Hc. specialize (H c Hc).
    unfold untouched in H.
    apply andb_true_iff in H. tauto. }
  unfold normalize. rewrite (@no_capital_unchanged U text H2).
  assert (E : convert_numbers_in_text text = Some text).
  { unfold convert_numbers_in_text, Re.sub, Re.sub_raising.
    rewrite (sub_from_none _ ordinal_re replace_ordinal
               ordinal_re_needs_digit text None H3).
    apply (sub_from_raising_none _ number_re replace_number
             number_re_needs_digit text None H3). }
  rewrite E. unfold transliterate_if_latin.
  destruct (count is_latin text >? count is_cyrillic text)%Z;
    [|reflexivity].
  rewrite (@settled_unchanged text H1). reflexivity.
Qed.

End PlainText.

Section PlainTextExamples.
Import Basic.

Lemma normalize_plain_text_witness :
  forallb untouched (lit "салом, дунё!") = true
  /\ normalize (lit "салом, дунё!") = Some (lit "салом, дунё!", false).
Proof.
  assert (H : forallb untouched (lit "салом, дунё!") = true)
    by (vm_compute; reflexivity).
  exact (conj H (@normalize_plain_text Basic.data _ H)).
Defined.

End PlainTextExamples.

(* ===================================================================== *)
(** * More properties: the splitter *)
(* ===================================================================== *)

Section LoopAccumulates.

Variables A B X : Type.
Variable f : A -> B -> A.
Variable mu : A -> list X.
Variable g : B -> list X.

(** A loop whose every step appends [g b] to the measure [mu]. *)
Lemma fold_left_accumulates (l : list B) (a : A) :
  (forall a b, In b l -> mu (f a b) = mu a ++ g b) ->
  mu (fold_left f l a) = mu a ++ flat_map g l.
Proof.
  revert a. induction l as [|b l IH]; intros a H; simpl.
  - rewrite app_nil_r. reflexivity.
  - rewrite IH; [|intros; apply H; right; assumption].
    rewrite H, <- app_assoc; [reflexivity | left; reflexivity].
Qed.

End LoopAccumulates.

Section WhitespaceFacts.

Lemma content_app (a b : str) : content (a ++ b) = content a ++ content b.
Proof. apply filter_app. Qed.

Lemma content_solid (s : str) : solid s = true -> content s = s.
Proof.
  induction s as [|c s IH]; simpl; [reflexivity|].
  rewrite andb_true_iff. intros [-> H]. simpl. rewrite (IH H). reflexivity.
Qed.

Lemma content_lstrip (s : str) : content (lstrip s) = content s.
Proof.
  unfold lstrip. induction s as [|c s IH]; simpl; [reflexivity|].
  destruct (isspace c) eqn:E; simpl; [exact IH|]. rewrite E. reflexivity.
Qed.

Lemma rstrip_snoc (s : str) (c : char) :
  rstrip (s ++ [c]) = if isspace c then rstrip s else s ++ [c].
Proof.
  unfold rstrip. rewrite rev_app_distr. simpl.
  destruct (isspace c); [reflexivity|].
  simpl. rewrite rev_involutive. reflexivity.
Qed.

Lemma content_rstrip (s : str) : content (rstrip s) = content s.
Proof.
  induction s as [|c s IH] using rev_ind; [reflexivity|].
  rewrite rstrip_snoc. destruct (isspace c) eqn:E; [|reflexivity].
  rewrite IH. unfold content. rewrite filter_app. simpl. rewrite E.
  simpl. rewrite app_nil_r. reflexivity.
Qed.

Lemma content_strip (s : str) : content (strip s) = content s.
Proof. unfold strip. rewrite content_rstrip. apply content_lstrip. Qed.

Lemma nonempty_false (s : str) : nonempty s = false -> s = [].
Proof. destruct s; [reflexivity | discriminate]. Qed.

Lemma blank_content (s : str) : nonempty (strip s) = false -> content s = [].
Proof.
  intros H. rewrite <- content_strip, (@nonempty_false _ H). reflexivity.
Qed.

(** [s.split()] joined without separators is the content of [s]. *)
Lemma concat_split_ws_from (s cur : str) :
  concat (split_ws_from cur s) = cur ++ content s.
Proof.
  revert cur. induction s as [|c s IH]; intros cur; simpl.
  - destruct cur; simpl; rewrite ?app_nil_r; reflexivity.
  - destruct (isspace c); simpl.
    + destruct cur; simpl; rewrite IH; reflexivity.
    + rewrite IH, <- app_assoc. reflexivity.
Qed.

Lemma concat_split_ws (s : str) : concat (split_ws s) = content s.
Proof. apply concat_split_ws_from. Qed.

Lemma split_ws_from_nonempty (s cur : str) :
  Forall (fun word => word <> []) (split_ws_from cur s).
Proof.
  revert cur. induction s as [|c s IH]; intros cur; simpl.
  - destruct cur; repeat constructor. discriminate.
  - destruct (isspace c); [|apply IH].
    destruct cur; [apply IH|]. constructor; [discriminate | apply IH].
Qed.

Lemma split_ws_from_snoc_space (s cur : str) (c : char) :
  isspace c = true -> split_ws_from cur (s ++ [c]) = split_ws_from cur s.
Proof.
  intros Hc. revert cur. induction s as [|d s IH]; intros cur; simpl.
  - rewrite Hc. destruct cur; reflexivity.
  - destruct (isspace d); [|apply IH].
    destruct cur; rewrite IH; reflexivity.
Qed.

Lemma split_ws_lstrip (s : str) : split_ws (lstrip s) = split_ws s.
Proof.
  unfold split_ws, lstrip. induction s as [|c s IH]; simpl; [reflexivity|].
  destruct (isspace c) eqn:E; [exact IH|]. simpl. rewrite E. reflexivity.
Qed.

Lemma split_ws_rstrip (s : str) : split_ws (rstrip s) = split_ws s.
Proof.
  induction s as [|c s IH] using rev_ind; [reflexivity|].
  rewrite rstrip_snoc. destruct (isspace c) eqn:E; [|reflexivity].
  rewrite IH. unfold split_ws. symmetry.
  apply split_ws_from_snoc_space, E.
Qed.

Lemma split_ws_strip (s : str) : split_ws (strip s) = split_ws s.
Proof. unfold strip. rewrite split_ws_rstrip. apply split_ws_lstrip. Qed.

Lemma split_ws_from_solid_app (word s cur : str) :
  solid word = true ->
  split_ws_from cur (word ++ s) = split_ws_from (cur ++ word) s.
Proof.
  revert cur. induction word as [|c word IH]; intros cur H; simpl.
  - rewrite app_nil_r. reflexivity.
  - simpl in H. apply andb_true_iff in H. destruct H as [Hc H].
    apply negb_true_iff in Hc. rewrite Hc, (IH _ H), <- app_assoc.
    reflexivity.
Qed.

Lemma split_ws_word (word : str) :
  solid word = true -> word <> [] -> split_ws word = [word].
Proof.
  intros H Hne. unfold split_ws.
  rewrite <- (app_nil_r word) at 1.
  rewrite (@split_ws_from_solid_app word [] [] H). simpl.
  destruct word; [contradiction | reflexivity].
Qed.

Lemma split_ws_from_space_app (a b cur : str) (c : char) :
  isspace c = true ->
  split_ws_from cur (a ++ c :: b) = split_ws_from cur a ++ split_ws b.
Proof.
  intros Hc. revert cur. induction a as [|d a IH]; intros cur; simpl.
  - rewrite Hc. destruct cur; reflexivity.
  - destruct (isspace d); [|apply IH].
    destruct cur; rewrite IH; reflexivity.
Qed.

End WhitespaceFacts.

Section WordLevel.

Lemma skipn_all_nil (i : nat) (word : str) :
  length word <= i -> skipn i word = [].
Proof. intros H. apply skipn_all2, H. Qed.

(** The slices of [range(0, len(word), m)] cover the word. *)
Lemma concat_slices_from (m : nat) (word : str) (fuel i : nat) :
  0 < m -> length word <= i + fuel ->
  concat (map (fun i => slice word i (i + m))
              (range_from fuel i (length word) m))
  = skipn i word.
Proof.
  intros Hm. revert i. induction fuel as [|fuel IH]; intros i Hf; simpl.
  - symmetry. apply skipn_all_nil. lia.
  - destruct (Nat.ltb_spec i (length word)) as [Hi|Hi].
    + simpl. rewrite IH by lia. unfold slice.
      replace (i + m - i) with m by lia.
      rewrite Nat.add_comm, <- skipn_skipn. apply firstn_skipn.
    + symmetry. apply skipn_all_nil, Hi.
Qed.

Lemma concat_char_slices (word : str) (max_length : Z) :
  (0 < max_length)%Z -> concat (char_slices word max_length) = word.
Proof.
  intros H. unfold char_slices, range.
  rewrite concat_slices_from; [reflexivity | lia | lia].
Qed.

Lemma flush_content (chunks : list str) (cur : str) :
  content (concat (flush chunks cur)) = content (concat chunks) ++ content cur.
Proof.
  unfold flush. destruct cur as [|c cur]; simpl nonempty; cbv iota.
  - rewrite app_nil_r. reflexivity.
  - rewrite concat_app, content_app. simpl concat.
    rewrite app_nil_r, content_strip. reflexivity.
Qed.

Definition state_content (st : state) : str :=
  content (concat (fst st)) ++ content (snd st).

Lemma word_step_content (max_length : Z) (st : state) (word : str) :
  (0 < max_length)%Z -> solid word = true ->
  state_content (word_step max_length st word) = state_content st ++ word.
Proof.
  intros Hm Hw. destruct st as [chunks cur].
  unfold word_step, state_content.
  destruct (len word >? max_length)%Z; cbn [fst snd].
  - rewrite concat_app, content_app, flush_content,
            (@concat_char_slices word max_length Hm), (@content_solid word Hw).
    simpl. rewrite app_nil_r, <- app_assoc. reflexivity.
  - destruct (len cur + len word + 1 >? max_length)%Z; cbn [fst snd].
    + rewrite flush_content, (@content_solid word Hw), <- app_assoc.
      reflexivity.
    + destruct cur as [|c cur]; simpl nonempty; cbv iota; cbn [fst snd].
      * rewrite (@content_solid word Hw). simpl. rewrite app_nil_r.
        reflexivity.
      * rewrite !content_app, (@content_solid word Hw).
        change (content (lit " ")) with (@nil char).
        rewrite <- app_assoc. reflexivity.
Qed.

(** X10.  The word-level splitting loses nothing and adds nothing but
    whitespace, also when it cuts a word that is longer than the limit:
    the chunks hold the non-whitespace characters of the text, in order. *)
Theorem split_by_words_keeps_content (text : str) (max_length : Z) :
  (0 < max_length)%Z ->
  content (concat (_split_by_words text max_length)) = content text.
Proof.
  intros Hm. unfold _split_by_words.
  pose proof (@fold_left_accumulates state str char (word_step max_length)
                state_content (fun word => word) (split_ws text) ([], []))
    as H.
  destruct (fold_left _ _ _) as [chunks cur].
  rewrite flush_content. unfold state_content in H at 2. cbn [fst snd] in H.
  unfold state_content in H at 2. cbn [fst snd] in H. simpl in H.
  rewrite H.
  - rewrite flat_map_concat_map, map_id. apply concat_split_ws.
  - intros st word Hin. apply word_step_content; [exact Hm|].
    pose proof (split_ws_solid text) as Hs.
    rewrite Forall_forall in Hs. apply Hs, Hin.
Qed.

Lemma flush_words (chunks : list str) (cur : str) :
  flat_map split_ws (flush chunks cur) = flat_map split_ws chunks ++ split_ws cur.
Proof.
  unfold flush. destruct cur as [|c cur]; simpl nonempty; cbv iota.
  - rewrite app_nil_r. reflexivity.
  - rewrite flat_map_app. simpl flat_map.
    rewrite app_nil_r, split_ws_strip. reflexivity.
Qed.

Definition state_words (st : state) : list str :=
  flat_map split_ws (fst st) ++ split_ws (snd st).

Lemma word_step_words (max_length : Z) (st : state) (word : str) :
  (len word <= max_length)%Z -> solid word = true -> word <> [] ->
  state_words (word_step max_length st word) = state_words st ++ [word].
Proof.
  intros Hm Hw Hne. destruct st as [chunks cur].
  unfold word_step, state_words.
  destruct (Z.gtb_spec (len word) max_length) as [Hgt|_]; [lia|].
  destruct (len cur + len word + 1 >? max_length)%Z; cbn [fst snd].
  - rewrite flush_words, (@split_ws_word word Hw Hne), <- app_assoc. reflexivity.
  - destruct cur as [|c cur]; simpl nonempty; cbv iota; cbn [fst snd].
    + rewrite (@split_ws_word word Hw Hne).
      change (split_ws []) with (@nil str). rewrite app_nil_r. reflexivity.
    + unfold split_ws at 2.
      change (lit " " ++ word) with (0x20%N :: word).
      rewrite split_ws_from_space_app by reflexivity.
      fold (split_ws (c :: cur)).
      rewrite (@split_ws_word word Hw Hne), <- app_assoc. reflexivity.
Qed.

(** X11.  When no word of the text is longer than the limit, the
    word-level splitting cuts no word: the words of the chunks are the
    words of the text, in order. *)
Theorem split_by_words_keeps_words (text : str) (max_length : Z) :
  forallb (fun word => (len word <=? max_length)%Z) (split_ws text) = true ->
  flat_map split_ws (_split_by_words text max_length) = split_ws text.
Proof.
  intros Hall. unfold _split_by_words.
  pose proof (@fold_left_accumulates state str str (word_step max_length)
                state_words (fun word => [word]) (split_ws text) ([], []))
    as H.
  destruct (fold_left _ _ _) as [chunks cur].
  rewrite flush_words. unfold state_words in H at 2. cbn [fst snd] in H.
  unfold state_words in H at 2. cbn [fst snd] in H. simpl in H.
  rewrite H.
  - clear. induction (split_ws text) as [|w l IH]; simpl; congruence.
  - intros st word Hin. apply word_step_words.
    + rewrite forallb_forall in Hall. apply Z.leb_le, Hall, Hin.
    + pose proof (split_ws_solid text) as Hs.
      rewrite Forall_forall in Hs. apply Hs, Hin.
    + pose proof (split_ws_from_nonempty text []) as Hs.
      rewrite Forall_forall in Hs. apply Hs, Hin.
Qed.

End WordLevel.

Section SentenceLevel.

(** [re.split] with one group loses nothing: the pieces and the matched
    separators, concatenated, are the text. *)
Lemma concat_split_from (m : Re.matcher) (s : str) :
  forall prev skip cur,
    concat (Re.split_from m prev skip cur s) = cur ++ skipn skip s.
Proof.
  induction s as [|c s IH]; intros prev skip cur.
  - simpl. rewrite skipn_nil. reflexivity.
  - cbn [Re.split_from]. destruct skip as [|k].
    + destruct (m prev (c :: s)) as [[|k]|].
      * rewrite IH. simpl. rewrite <- app_assoc. reflexivity.
      * cbn [concat]. rewrite IH. simpl.
        rewrite firstn_skipn. reflexivity.
      * rewrite IH. simpl. rewrite <- app_assoc. reflexivity.
    + rewrite IH. reflexivity.
Qed.

Lemma concat_pair_up (sentences : list str) :
  concat (reconstruct sentences) = concat sentences.
Proof.
  unfold reconstruct.
  assert (H : forall n l, length l <= n ->
            concat (pair_up l
                    ++ (if Nat.odd (length l) then [last l []] else []))
            = concat l).
  { induction n as [|n IH]; intros l Hl.
    - destruct l; [reflexivity | simpl in Hl; lia].
    - destruct l as [|a [|b l]]; [reflexivity | reflexivity |].
      change (pair_up (a :: b :: l)) with ((a ++ b) :: pair_up l).
      change (Nat.odd (length (a :: b :: l))) with (Nat.odd (length l)).
      change (last (a :: b :: l) []) with (last (b :: l) []).
      assert (E : (if Nat.odd (length l) then [last (b :: l) []] else [])
                  = (if Nat.odd (length l) then [last l []] else [])).
      { destruct l; reflexivity. }
      rewrite E. simpl. simpl in Hl.
      rewrite IH by lia. rewrite <- app_assoc. reflexivity. }
  apply (H (length sentences)). lia.
Qed.

Lemma concat_sentence_units (text : str) :
  concat (sentence_units text) = text.
Proof.
  unfold sentence_units, Re.split.
  rewrite concat_pair_up, concat_split_from. reflexivity.
Qed.

(** X12.  The sentence units of a text (a sentence with its closing
    punctuation and the whitespace after it), concatenated, are the
    text. *)
Theorem sentence_units_cover (text : str) :
  concat (sentence_units text) = text.
Proof. apply concat_sentence_units. Qed.

Lemma sentence_step_content (max_length : Z) (st : state) (sentence : str) :
  (len sentence <= max_length)%Z ->
  state_content (sentence_step max_length st sentence)
  = state_content st ++ content sentence.
Proof.
  intros Hm. destruct st as [chunks cur].
  unfold sentence_step, state_content.
  destruct (Z.gtb_spec (len sentence) max_length) as [Hgt|_]; [lia|].
  assert (Hkeep : content (concat chunks) ++ content (cur ++ sentence)
                  = (content (concat chunks) ++ content cur)
                    ++ content sentence).
  { rewrite content_app, app_assoc. reflexivity. }
  destruct (len cur + len sentence >? max_length)%Z; cbn [fst snd];
    [|exact Hkeep].
  destruct (nonempty cur && (len cur >=? 2000)%Z); cbn [fst snd];
    [|exact Hkeep].
  rewrite concat_app, content_app. simpl concat.
  rewrite app_nil_r, content_strip. reflexivity.
Qed.

Lemma filter_blank_content (chunks : list str) :
  content (concat (filter (fun chunk => nonempty (strip chunk)) chunks))
  = content (concat chunks).
Proof.
  induction chunks as [|a chunks IH]; [reflexivity|].
  cbn [filter]. destruct (nonempty (strip a)) eqn:E; cbn [concat];
    rewrite ?content_app, IH; [reflexivity|].
  rewrite (@blank_content a E). reflexivity.
Qed.

(** X13.  When every sentence unit of the text fits in the (clamped)
    ceiling, [split_text] loses nothing but whitespace: the chunks hold the
    non-whitespace characters of the text, in order. *)
Theorem split_text_keeps_content (text : str) (max_length : Z) :
  forallb (fun unit => (len unit <=? clamp max_length)%Z)
          (sentence_units text) = true ->
  content (concat (split_text text max_length)) = content text.
Proof.
  intros Hall. unfold split_text.
  destruct (negb (nonempty text) || negb (nonempty (strip text))) eqn:Eb.
  - simpl. symmetry. apply orb_true_iff in Eb.
    destruct Eb as [E|E]; apply negb_true_iff in E.
    + rewrite (@nonempty_false _ E). reflexivity.
    + apply blank_content, E.
  - destruct (len text <=? clamp max_length)%Z.
    + simpl. rewrite app_nil_r. reflexivity.
    + pose proof (@fold_left_accumulates state str char
                    (sentence_step (clamp max_length))
                    state_content content (sentence_units text) ([], []))
        as H.
      destruct (fold_left _ _ _) as [chunks cur].
      rewrite filter_blank_content, flush_content.
      unfold state_content in H at 2. cbn [fst snd] in H.
      unfold state_content in H at 2. cbn [fst snd] in H. simpl in H.
      rewrite H.
      * rewrite <- (concat_sentence_units text) at 2.
        clear. induction (sentence_units text) as [|u l IH]; simpl;
          [reflexivity|]. rewrite content_app, IH. reflexivity.
      * intros st unit Hin. apply sentence_step_content.
        rewrite forallb_forall in Hall. apply Z.leb_le, Hall, Hin.
Qed.

End SentenceLevel.

Section SplitterExamples2.

Lemma split_by_words_keeps_content_witness :
  (0 < 4)%Z
  /\ content (concat (_split_by_words (lit " ab  cdefghij k ") 4))
     = content (lit " ab  cdefghij k ").
Proof.
  assert (H : (0 < 4)%Z) by lia.
  exact (conj H (@split_by_words_keeps_content (lit " ab  cdefghij k ") 4 H)).
Defined.

Lemma split_by_words_keeps_words_witness :
  forallb (fun word => (len word <=? 5)%Z) (split_ws (lit " ab  cde fg h "))
  = true
  /\ flat_map split_ws (_split_by_words (lit " ab  cde fg h ") 5)
     = split_ws (lit " ab  cde fg h ").
Proof.
  assert (H : forallb (fun word => (len word <=? 5)%Z)
                (split_ws (lit " ab  cde fg h ")) = true) by reflexivity.
  exact (conj H (@split_by_words_keeps_words (lit " ab  cde fg h ") 5 H)).
Defined.

Lemma split_text_keeps_content_witness :
  forallb (fun unit => (len unit <=? clamp 3000)%Z)
          (sentence_units two_sentences) = true
  /\ content (concat (split_text two_sentences 3000))
     = content two_sentences.
Proof.
  assert (H : forallb (fun unit => (len unit <=? clamp 3000)%Z)
                (sentence_units two_sentences) = true)
    by (vm_compute; reflexivity).
  exact (conj H (@split_text_keeps_content two_sentences 3000 H)).
Defined.

End SplitterExamples2.

(* ===================================================================== *)
(** * More properties: bot/text_processor.py, the cleaning of a text *)
(* ===================================================================== *)

Section Chains.

(** [R prev next] allows [next] after [prev]; [None] is the start or the
    end of the string. *)
Variable R : option char -> option char -> bool.

Fixpoint links (prev : option char) (s : str) : bool :=
  match s with
  | [] => true
  | c :: s' => R prev (Some c) && links (Some c) s'
  end.

Definition chain (prev : option char) (s : str) : bool :=
  links prev s && R (last_char prev s) None.

Lemma last_char_app (prev : option char) (a b : str) :
  last_char prev (a ++ b) = last_char (last_char prev a) b.
Proof. revert prev. induction a as [|c a IH]; intros prev; simpl; auto. Qed.

Lemma links_app (prev : option char) (a b : str) :
  links prev (a ++ b) = links prev a && links (last_char prev a) b.
Proof.
  revert prev. induction a as [|c a IH]; intros prev; simpl; [reflexivity|].
  rewrite IH, andb_assoc. reflexivity.
Qed.

Lemma chain_app (prev : option char) (a b : str) :
  chain prev (a ++ b) = links prev a && chain (last_char prev a) b.
Proof.
  unfold chain. rewrite links_app, last_char_app, andb_assoc. reflexivity.
Qed.

Lemma chain_cons (prev : option char) (c : char) (s : str) :
  chain prev (c :: s) = R prev (Some c) && chain (Some c) s.
Proof. unfold chain. simpl. rewrite andb_assoc. reflexivity. Qed.

Lemma startswith_app (old s : str) :
  startswith s old = true -> s = old ++ skipn (length old) s.
Proof.
  revert s. induction old as [|o old IH]; intros s H; [reflexivity|].
  destruct s as [|c s]; [discriminate|].
  simpl in H. apply andb_true_iff in H. destruct H as [Hc H].
  apply char_eqb_eq in Hc. subst c. simpl. f_equal. apply IH, H.
Qed.

Lemma replace_from_skip (old new : str) (k : nat) (s : str) :
  replace_from old new k s = replace_from old new 0 (skipn k s).
Proof.
  revert k. induction s as [|c s IH]; intros k.
  - rewrite skipn_nil. reflexivity.
  - destruct k as [|k]; [reflexivity|]. simpl. apply IH.
Qed.

(** A replacement that begins and ends as the replaced string does keeps
    the neighbours of every character. *)
Lemma replace_chain (a : char) (old' new' : str) :
  last_char (Some a) new' = last_char (Some a) old' ->
  links (Some a) new' = true ->
  forall s prev,
    chain prev s = true ->
    chain prev (replace s (a :: old') (a :: new')) = true.
Proof.
  intros Hlast Hnew s.
  remember (length s) as n eqn:Hn. revert s Hn.
  induction n as [n IH] using lt_wf_ind. intros s Hn prev H.
  destruct s as [|c s]; [exact H|].
  unfold replace. cbn [replace_from].
  destruct (startswith (c :: s) (a :: old')) eqn:E.
  - pose proof (startswith_app _ _ E) as Es.
    rewrite replace_from_skip.
    replace (skipn (length (a :: old') - 1) s)
      with (skipn (length (a :: old')) (c :: s))
      by (simpl; rewrite Nat.sub_0_r; reflexivity).
    set (rest := skipn (length (a :: old')) (c :: s)) in *.
    rewrite Es in H. rewrite chain_app in *. cbn [links last_char] in *.
    apply andb_true_iff in H. destruct H as [H1 H2].
    apply andb_true_iff in H1. destruct H1 as [H0 H1].
    rewrite H0, Hnew, Hlast. simpl.
    apply (IH (length rest)); [|reflexivity | exact H2].
    subst n. rewrite Es. rewrite length_app. simpl. lia.
  - rewrite chain_cons in *. apply andb_true_iff in H. destruct H as [H0 H1].
    rewrite H0. simpl.
    apply (IH (length s)); [subst n; simpl; lia | reflexivity | exact H1].
Qed.

End Chains.

Section Tidy.

(** In a tidy string the only whitespace is a single blank between two
    characters that are not whitespace. *)
Definition tidy_link (prev next : option char) : bool :=
  match next with
  | Some c =>
    if isspace c
    then char_eqb c 0x20%N
         && match prev with Some p => negb (isspace p) | None => false end
    else true
  | None => match prev with Some p => negb (isspace p) | None => true end
  end.

Definition tidy (s : str) : bool := chain tidy_link None s.

(** No period follows a period. *)
Definition single_link (prev next : option char) : bool :=
  match prev, next with
  | Some p, Some c => negb (char_eqb 0x2E%N p && char_eqb 0x2E%N c)
  | _, _ => true
  end.

Definition starts_with_period (s : str) : bool :=
  match s with c :: _ => char_eqb 0x2E%N c | [] => false end.

Definition is_period (prev : option char) : bool :=
  match prev with Some p => char_eqb 0x2E%N p | None => false end.

Lemma double_period_links (s : str) (prev : option char) :
  negb (links single_link prev s)
  = is_period prev && starts_with_period s || contains_str s (lit "..").
Proof.
  revert prev. induction s as [|c s IH]; intros prev.
  - simpl. rewrite andb_false_r. reflexivity.
  - cbn [links contains_str]. rewrite negb_andb, IH.
    change (startswith (c :: s) (lit ".."))
      with (char_eqb 0x2E%N c && startswith s [0x2E%N]).
    assert (E : startswith s [0x2E%N] = starts_with_period s).
    { destruct s as [|d s]; [reflexivity|]. simpl. apply andb_true_r. }
    rewrite E. cbn [is_period starts_with_period]. f_equal.
    destruct prev as [p|]; simpl; [|reflexivity].
    rewrite negb_involutive. reflexivity.
Qed.

Lemma single_links_iff (s : str) :
  chain single_link None s = true <-> contains_str s (lit "..") = false.
Proof.
  unfold chain.
  assert (E : single_link (last_char None s) None = true).
  { destruct (last_char None s); reflexivity. }
  rewrite E, andb_true_r.
  pose proof (double_period_links s None) as H. simpl in H.
  rewrite <- H. destruct (links single_link None s); simpl; split; congruence.
Qed.

(** A round of the loop shortens the string. *)
Lemma replace_periods_length (s : str) (k : nat) :
  length (replace_from (lit "..") (lit ".") k s) <= length s - k.
Proof.
  revert k. induction s as [|c s IH]; intros k; [simpl; lia|].
  cbn [replace_from]. destruct k as [|k].
  - destruct (startswith (c :: s) (lit "..")) eqn:E.
    + change (length (lit "..") - 1) with 1.
      change (lit "." ++ replace_from (lit "..") (lit ".") 1 s)
        with (0x2E%N :: replace_from (lit "..") (lit ".") 1 s).
      specialize (IH 1). simpl length.
      destruct s as [|d s]; [simpl in E; rewrite andb_false_r in E;
                             discriminate|].
      simpl length in *. lia.
    + specialize (IH 0). simpl length. lia.
  - specialize (IH k). simpl length. lia.
Qed.

Lemma replace_periods_shorter (s : str) :
  contains_str s (lit "..") = true ->
  length (replace s (lit "..") (lit ".")) < length s.
Proof.
  unfold replace. induction s as [|c s IH]; [discriminate|].
  cbn [contains_str replace_from]. intros H.
  destruct (startswith (c :: s) (lit "..")) eqn:E.
  - change (length (lit "..") - 1) with 1.
    change (lit "." ++ replace_from (lit "..") (lit ".") 1 s)
      with (0x2E%N :: replace_from (lit "..") (lit ".") 1 s).
    pose proof (replace_periods_length s 1) as L.
    destruct s as [|d s]; [simpl in E; rewrite andb_false_r in E;
                           discriminate|].
    simpl length in *. lia.
  - simpl in H. specialize (IH H). simpl length. lia.
Qed.

(** The loop [while '..' in result] ends within [len(result)] rounds, and
    then [result] holds no two periods in a row. *)
Lemma collapse_periods_done (fuel : nat) (result : str) :
  length result <= fuel ->
  contains_str (collapse_periods fuel result) (lit "..") = false.
Proof.
  revert result. induction fuel as [|fuel IH]; intros result H.
  - destruct result; [reflexivity | simpl in H; lia].
  - cbn [collapse_periods].
    destruct (contains_str result (lit "..")) eqn:E; [|exact E].
    apply IH. pose proof (replace_periods_shorter result E). lia.
Qed.

Lemma collapse_periods_keeps (P : str -> Prop) :
  (forall s, P s -> P (replace s (lit "..") (lit "."))) ->
  forall fuel result, P result -> P (collapse_periods fuel result).
Proof.
  intros HP. induction fuel as [|fuel IH]; intros result H; [exact H|].
  cbn [collapse_periods].
  destruct (contains_str result (lit "..")); [|exact H].
  apply IH, HP, H.
Qed.

Lemma solid_links (word : str) (prev : option char) :
  solid word = true -> links tidy_link prev word = true.
Proof.
  revert prev. induction word as [|c word IH]; intros prev H; [reflexivity|].
  simpl in H. apply andb_true_iff in H. destruct H as [Hc H].
  apply negb_true_iff in Hc. cbn [links]. rewrite (IH _ H), andb_true_r.
  unfold tidy_link. rewrite Hc. reflexivity.
Qed.

Lemma solid_last (word : str) (prev : option char) :
  solid word = true -> word <> [] ->
  exists z, last_char prev word = Some z /\ isspace z = false.
Proof.
  revert prev. induction word as [|c word IH]; intros prev H Hne;
    [contradiction|].
  simpl in H. apply andb_true_iff in H. destruct H as [Hc H].
  apply negb_true_iff in Hc. destruct word as [|d word].
  - exists c. auto.
  - apply (IH (Some c) H). discriminate.
Qed.

Lemma join_words_chain (words : list str) :
  Forall (fun word => solid word = true /\ word <> []) words ->
  words <> [] ->
  forall prev, chain tidy_link prev (join (lit " ") words) = true.
Proof.
  induction words as [|w words IH]; intros Hw Hne prev; [contradiction|].
  inversion Hw as [|w' l' [Hs Hn] Hrest]; subst.
  destruct (@solid_last w prev Hs Hn) as (z & Hz & Hsp).
  destruct words as [|w2 words].
  - simpl. unfold chain. rewrite (@solid_links w prev Hs), Hz. simpl.
    rewrite Hsp. reflexivity.
  - change (join (lit " ") (w :: w2 :: words))
      with (w ++ 0x20%N :: join (lit " ") (w2 :: words)).
    rewrite chain_app, (@solid_links w prev Hs), Hz, chain_cons.
    rewrite IH; [|exact Hrest | discriminate].
    simpl. rewrite Hsp. reflexivity.
Qed.

Lemma join_split_tidy (s : str) : tidy (join (lit " ") (split_ws s)) = true.
Proof.
  unfold tidy. destruct (split_ws s) as [|w words] eqn:E; [reflexivity|].
  rewrite <- E. apply join_words_chain; [|rewrite E; discriminate].
  pose proof (split_ws_solid s) as H1.
  pose proof (split_ws_from_nonempty s []) as H2.
  fold (split_ws s) in H2. rewrite Forall_forall in *.
  intros word Hin. split; [apply H1 | apply H2]; exact Hin.
Qed.

(** What [prev] says about the word being read. *)
Definition fits (prev : option char) (cur : str) : Prop :=
  match cur with
  | [] => match prev with Some p => isspace p = true | None => True end
  | _ => exists p, prev = Some p /\ isspace p = false
  end.

Lemma split_ws_from_not_nil (s cur : str) :
  cur <> [] -> split_ws_from cur s <> [].
Proof.
  revert cur. induction s as [|c s IH]; intros cur H; simpl.
  - destruct cur; [contradiction | discriminate].
  - destruct (isspace c).
    + destruct cur; [contradiction | discriminate].
    + apply IH. destruct cur; discriminate.
Qed.

Lemma tidy_split_join (s : str) :
  forall cur prev,
    fits prev cur -> chain tidy_link prev s = true ->
    join (lit " ") (split_ws_from cur s) = cur ++ s.
Proof.
  induction s as [|c s IH]; intros cur prev Hf H.
  - simpl. rewrite app_nil_r. destruct cur; reflexivity.
  - rewrite chain_cons in H. apply andb_true_iff in H. destruct H as [H0 H1].
    cbn [split_ws_from]. unfold tidy_link in H0.
    destruct (isspace c) eqn:Ec.
    + apply andb_true_iff in H0. destruct H0 as [Hb Hp].
      apply char_eqb_eq in Hb. subst c.
      destruct prev as [p|]; [|discriminate]. apply negb_true_iff in Hp.
      destruct cur as [|x cur];
        [simpl in Hf; rewrite Hf in Hp; discriminate|].
      destruct s as [|d s]; [discriminate|].
      pose proof H1 as H1'. rewrite chain_cons in H1'.
      apply andb_true_iff in H1'. destruct H1' as [Hd _].
      unfold tidy_link in Hd. destruct (isspace d) eqn:Ed;
        [rewrite andb_false_r in Hd; discriminate|].
      pose proof (IH [] (Some 0x20%N) eq_refl H1) as E.
      assert (Hn : split_ws_from [] (d :: s) <> []).
      { simpl. rewrite Ed. apply split_ws_from_not_nil. discriminate. }
      destruct (split_ws_from [] (d :: s)) as [|w ws] eqn:Ew;
        [contradiction|].
      change (join (lit " ") ((x :: cur) :: w :: ws))
        with ((x :: cur) ++ 0x20%N :: join (lit " ") (w :: ws)).
      rewrite E. reflexivity.
    + rewrite (IH (cur ++ [c]) (Some c)); [rewrite <- app_assoc; reflexivity
                                          | | exact H1].
      destruct cur; simpl; exists c; auto.
Qed.

Lemma tidy_normal (s : str) :
  tidy s = true -> join (lit " ") (split_ws s) = s.
Proof. intros H. apply (tidy_split_join s [] None I H). Qed.

Lemma tidy_strip (s : str) : tidy s = true -> strip s = s.
Proof.
  intros H. unfold strip.
  assert (El : lstrip s = s).
  { destruct s as [|c s]; [reflexivity|].
    unfold tidy in H. rewrite chain_cons in H.
    apply andb_true_iff in H. destruct H as [H _]. unfold tidy_link in H.
    unfold lstrip. simpl. destruct (isspace c); [|reflexivity].
    rewrite andb_false_r in H. discriminate. }
  rewrite El.
  destruct s as [|c s] using rev_ind; [reflexivity|].
  rewrite rstrip_snoc.
  unfold tidy, chain in H. apply andb_true_iff in H. destruct H as [_ H].
  rewrite last_char_app in H. simpl in H. apply negb_true_iff in H.
  rewrite H. reflexivity.
Qed.

End Tidy.

Section Cleaning.
Context {U : Unicode.Data} {C : Unicode.Casing}.

(** The three facts on the cleaned text that the theorems below share. *)
Lemma remove_hashtag_shape (text hashtag : str) :
  tidy (remove_hashtag text hashtag) = true
  /\ contains_str (remove_hashtag text hashtag) (lit "..") = false.
Proof.
  unfold remove_hashtag.
  set (r0 := replace (replace _ [0x0A%N] _) [0x0D%N] _).
  set (r1 := join (lit " ") (split_ws r0)).
  set (r2 := collapse_periods (length r1) r1).
  set (r3 := replace r2 (lit ". . ") (lit ". ")).
  assert (T1 : tidy r1 = true) by apply join_split_tidy.
  assert (T2 : tidy r2 = true).
  { apply (@collapse_periods_keeps (fun s => tidy s = true)); [|exact T1].
    intros s Hs.
    apply (@replace_chain tidy_link 0x2E%N [0x2E%N] [] eq_refl eq_refl s None
             Hs). }
  assert (D2 : chain single_link None r2 = true).
  { apply single_links_iff. apply collapse_periods_done. lia. }
  assert (T3 : tidy r3 = true).
  { apply (@replace_chain tidy_link 0x2E%N (lit " . ") (lit " ")
             eq_refl eq_refl r2 None T2). }
  assert (D3 : chain single_link None r3 = true).
  { apply (@replace_chain single_link 0x2E%N (lit " . ") (lit " ")
             eq_refl eq_refl r2 None D2). }
  rewrite (@tidy_strip r3 T3). split; [exact T3|].
  apply single_links_iff, D3.
Qed.

(** X14.  The cleaned text is normalized: splitting it at whitespace and
    joining the words with single blanks gives it back (so that it holds
    no line break, no run of blanks and no blank at either end), and it
    holds no two periods in a row. *)
Theorem remove_hashtag_normalized (text hashtag : str) :
  let cleaned := remove_hashtag text hashtag in
  join (lit " ") (split_ws cleaned) = cleaned
  /\ strip cleaned = cleaned
  /\ contains_str cleaned (lit "..") = false.
Proof.
  destruct (remove_hashtag_shape text hashtag) as [T D]. cbv zeta.
  split; [apply tidy_normal, T | split; [apply tidy_strip, T | exact D]].
Qed.

(** X15.  [process_text] returns the cleaned text when it holds a letter
    and [None] in every other case: after the cleaning, the checks for an
    empty and for a blank text add nothing to the check for a letter. *)
Theorem process_text_letter (text hashtag : str) :
  process_text text hashtag
  = if existsb isalpha (remove_hashtag text hashtag)
    then Some (remove_hashtag text hashtag) else None.
Proof.
  destruct (remove_hashtag_shape text hashtag) as [T _].
  unfold process_text, validate_text.
  rewrite (@tidy_strip _ T).
  destruct (remove_hashtag text hashtag) as [|c s]; [reflexivity|].
  unfold truth. cbn [negb orb].
  destruct (existsb isalpha (c :: s)); reflexivity.
Qed.

End Cleaning.

Section CleaningExamples.
Import Basic AsciiCasing.

(** The hashtag in two spellings, a line break and a run of periods. *)
Example process_text_example :
  process_text (lit "#audio Salom.." ++ [0x0A%N] ++ lit "dunyo  #AUDIO")
               (lit "#audio")
  = Some (lit "Salom. dunyo")
  /\ process_text (lit " #audio 2024 ") (lit "#audio") = None.
Proof. split; vm_compute; reflexivity. Qed.

End CleaningExamples.

(* ===================================================================== *)
(** * More properties: bot/cache.py *)
(* ===================================================================== *)

Section CacheFacts.

Variable bytes : Type.
Variable sha256_hexdigest : list N -> str.

(** [text.encode()] returns: the text holds no surrogate. *)
Definition encodable (text : str) : bool :=
  match encode text with Some _ => true | None => false end.

Lemma encodable_hash (text : str) :
  encodable text = true ->
  exists key, Cache._get_hash sha256_hexdigest text = Some key.
Proof.
  unfold encodable, Cache._get_hash.
  destruct (encode text); [intros _; eexists; reflexivity | discriminate].
Qed.

Definition keys (d : list (str * bytes)) : list str := map fst d.

(** [len(self.cache)] *)
Definition size (self : Cache.t bytes) : Z :=
  Z.of_nat (length (Cache.cache self)).

Fixpoint distinct (l : list str) : bool :=
  match l with
  | [] => true
  | k :: l' => negb (Cache.list_has l' k) && distinct l'
  end.

(** The keys of [cache] are the entries of [access_order], each once. *)
Definition consistent (self : Cache.t bytes) : bool :=
  distinct (keys (Cache.cache self))
  && distinct (Cache.access_order self)
  && forallb (Cache.list_has (Cache.access_order self))
             (keys (Cache.cache self))
  && forallb (Cache.has_key (Cache.cache self)) (Cache.access_order self).

Definition agree (d : list (str * bytes)) (l : list str) : Prop :=
  NoDup (keys d) /\ NoDup l /\ forall k, In k (keys d) <-> In k l.

Lemma str_eq_dec (a b : str) : a = b \/ a <> b.
Proof.
  destruct (str_eqb a b) eqn:E.
  - left. apply str_eqb_eq, E.
  - right. intros H. apply str_eqb_eq in H. congruence.
Qed.

Lemma str_eqb_same (a : str) : str_eqb a a = true.
Proof. apply str_eqb_eq. reflexivity. Qed.

Lemma str_eqb_differ (a b : str) : a <> b -> str_eqb a b = false.
Proof.
  intros H. destruct (str_eqb a b) eqn:E; [|reflexivity].
  apply str_eqb_eq in E. contradiction.
Qed.

Lemma list_has_In (l : list str) (k : str) :
  Cache.list_has l k = true <-> In k l.
Proof.
  unfold Cache.list_has. rewrite existsb_exists. split.
  - intros (x & Hx & E). apply str_eqb_eq in E. subst. exact Hx.
  - intros H. exists k. split; [exact H | apply str_eqb_same].
Qed.

Lemma list_has_not_In (l : list str) (k : str) :
  Cache.list_has l k = false <-> ~ In k l.
Proof.
  rewrite <- list_has_In. destruct (Cache.list_has l k); split; congruence.
Qed.

Lemma distinct_NoDup (l : list str) : distinct l = true <-> NoDup l.
Proof.
  induction l as [|k l IH]; simpl.
  - split; [constructor | reflexivity].
  - rewrite andb_true_iff, negb_true_iff, list_has_not_In, IH. split.
    + intros [H1 H2]. constructor; assumption.
    + intros H. inversion H. split; assumption.
Qed.

Lemma lookup_None (d : list (str * bytes)) (k : str) :
  Cache.lookup d k = None <-> ~ In k (keys d).
Proof.
  induction d as [|[k' v] d IH]; simpl.
  - split; [auto | reflexivity].
  - destruct (str_eqb k k') eqn:E.
    + apply str_eqb_eq in E. subst. split; [discriminate|].
      intros H. exfalso. apply H. left. reflexivity.
    + rewrite IH. split.
      * intros H [H1|H1]; [|exact (H H1)]. subst.
        rewrite str_eqb_same in E. discriminate.
      * intros H H1. apply H. right. exact H1.
Qed.

Lemma has_key_In (d : list (str * bytes)) (k : str) :
  Cache.has_key d k = true <-> In k (keys d).
Proof.
  unfold Cache.has_key. pose proof (lookup_None d k) as H.
  destruct (Cache.lookup d k); split; try congruence.
  - intros _. destruct (in_dec (list_eq_dec N.eq_dec) k (keys d)) as [Hi|Hn];
      [exact Hi|]. apply H in Hn. discriminate.
  - intros Hi. exfalso. destruct H as [H _]. exact (H eq_refl Hi).
Qed.

Lemma has_key_not_In (d : list (str * bytes)) (k : str) :
  Cache.has_key d k = false <-> ~ In k (keys d).
Proof.
  rewrite <- has_key_In. destruct (Cache.has_key d k); split; congruence.
Qed.

Lemma consistent_agree (self : Cache.t bytes) :
  consistent self = true
  <-> agree (Cache.cache self) (Cache.access_order self).
Proof.
  unfold consistent, agree.
  rewrite !andb_true_iff, !distinct_NoDup, !forallb_forall. split.
  - intros [[[H1 H2] H3] H4]. split; [exact H1|]. split; [exact H2|].
    intros k. split; intros H.
    + apply list_has_In, H3, H.
    + apply has_key_In, H4, H.
  - intros (H1 & H2 & H3). repeat split; try assumption.
    + intros k H. apply list_has_In, H3, H.
    + intros k H. apply has_key_In, H3, H.
Qed.

(** [l.remove(k)] *)
Lemma list_remove_some (l : list str) (k : str) :
  In k l -> exists r, Cache.list_remove l k = Some r.
Proof.
  induction l as [|k' l IH]; intros H; [contradiction|]. simpl.
  destruct (str_eqb k k') eqn:E; [eexists; reflexivity|].
  destruct H as [H|H]; [subst; rewrite str_eqb_same in E; discriminate|].
  destruct (IH H) as [r ->]. eexists. reflexivity.
Qed.

Lemma list_remove_spec (l r : list str) (k : str) :
  NoDup l -> Cache.list_remove l k = Some r ->
  NoDup r /\ (forall x, In x r <-> In x l /\ x <> k)
  /\ length l = S (length r).
Proof.
  revert r. induction l as [|k' l IH]; intros r Hn H; [discriminate|].
  inversion Hn as [|? ? Hk Hl]; subst. simpl in H.
  destruct (str_eqb k k') eqn:E.
  - apply str_eqb_eq in E. subst k'. injection H as <-.
    split; [exact Hl|]. split; [|reflexivity].
    intros x. split.
    + intros Hx. split; [right; exact Hx|]. intros ->. contradiction.
    + intros [[Hx|Hx] Hne]; [congruence | exact Hx].
  - destruct (Cache.list_remove l k) as [r'|] eqn:Er; [|discriminate].
    injection H as <-. destruct (IH r' Hl eq_refl) as (N & Sx & L).
    assert (Hkk : k' <> k).
    { intros ->. rewrite str_eqb_same in E. discriminate. }
    split; [|split].
    + constructor; [|exact N]. intros Hx. apply Sx in Hx. tauto.
    + intros x. simpl. rewrite Sx. split.
      * intros [->|[Hx Hne]]; auto.
      * intros [[->|Hx] Hne]; auto.
    + simpl. rewrite L. reflexivity.
Qed.

(** [del d[k]] on the keys is [remove]. *)
Lemma delete_keys (d : list (str * bytes)) (k : str) :
  option_map keys (Cache.delete d k) = Cache.list_remove (keys d) k.
Proof.
  induction d as [|[k' v] d IH]; [reflexivity|]. simpl.
  destruct (str_eqb k k'); [reflexivity|].
  rewrite <- IH. destruct (Cache.delete d k); reflexivity.
Qed.

Lemma lookup_delete_other (d r : list (str * bytes)) (k x : str) :
  Cache.delete d k = Some r -> x <> k ->
  Cache.lookup r x = Cache.lookup d x.
Proof.
  revert r. induction d as [|[k' v] d IH]; intros r H Hx; [discriminate|].
  simpl in H. destruct (str_eqb k k') eqn:E.
  - apply str_eqb_eq in E. subst k'. injection H as <-. simpl.
    rewrite (@str_eqb_differ _ _ Hx). reflexivity.
  - destruct (Cache.delete d k) as [r'|]; [|discriminate].
    injection H as <-. simpl. rewrite (IH r' eq_refl Hx). reflexivity.
Qed.

(** [d[k] = v] *)
Lemma lookup_assign_same (d : list (str * bytes)) (k : str) (v : bytes) :
  Cache.lookup (Cache.assign d k v) k = Some v.
Proof.
  induction d as [|[k' v'] d IH]; simpl.
  - rewrite str_eqb_same. reflexivity.
  - destruct (str_eqb k k') eqn:E; simpl; rewrite E; [reflexivity | exact IH].
Qed.

Lemma lookup_assign_other (d : list (str * bytes)) (k x : str) (v : bytes) :
  x <> k -> Cache.lookup (Cache.assign d k v) x = Cache.lookup d x.
Proof.
  intros Hx. induction d as [|[k' v'] d IH]; simpl.
  - rewrite (@str_eqb_differ _ _ Hx). reflexivity.
  - destruct (str_eqb k k') eqn:E; simpl.
    + apply str_eqb_eq in E. subst k'. rewrite (@str_eqb_differ _ _ Hx).
      reflexivity.
    + rewrite IH. reflexivity.
Qed.

Lemma keys_assign (d : list (str * bytes)) (k : str) (v : bytes) :
  keys (Cache.assign d k v)
  = if Cache.has_key d k then keys d else keys d ++ [k].
Proof.
  unfold Cache.has_key.
  induction d as [|[k' v'] d IH]; simpl; [reflexivity|].
  destruct (str_eqb k k') eqn:E; simpl; [reflexivity|].
  rewrite IH. destruct (Cache.lookup d k); reflexivity.
Qed.

Lemma NoDup_snoc (l : list str) (k : str) :
  NoDup l -> ~ In k l -> NoDup (l ++ [k]).
Proof.
  intros Hl Hk. induction Hl as [|x l Hx Hl IH]; simpl.
  - constructor; [auto | constructor].
  - constructor.
    + rewrite in_app_iff. simpl. intros [H|[H|[]]]; [contradiction|].
      subst. apply Hk. left. reflexivity.
    + apply IH. intros H. apply Hk. right. exact H.
Qed.

(** The end of [set]: the entry is written and its key moves to the end of
    [access_order]. *)
Definition touch (l : list str) (k : str) : option (list str) :=
  if Cache.list_has l k then Cache.list_remove l k else Some l.

Lemma touch_spec (l : list str) (k : str) :
  NoDup l ->
  exists order,
    touch l k = Some order /\ NoDup (order ++ [k])
    /\ forall x, In x (order ++ [k]) <-> In x l \/ x = k.
Proof.
  intros Hl. unfold touch. destruct (Cache.list_has l k) eqn:E.
  - apply list_has_In in E. destruct (@list_remove_some l k E) as [r Hr].
    destruct (@list_remove_spec _ _ k Hl Hr) as (N & Sx & _).
    exists r. split; [exact Hr|]. split.
    + apply NoDup_snoc; [exact N|]. intros H. apply Sx in H. tauto.
    + intros x. rewrite in_app_iff, Sx. simpl.
      destruct (str_eq_dec x k) as [->|Hne]; intuition congruence.
  - apply list_has_not_In in E. exists l. split; [reflexivity|]. split.
    + apply NoDup_snoc; assumption.
    + intros x. rewrite in_app_iff. simpl. intuition congruence.
Qed.

Lemma assign_spec (d : list (str * bytes)) (k : str) (v : bytes) :
  NoDup (keys d) ->
  NoDup (keys (Cache.assign d k v))
  /\ (forall x, In x (keys (Cache.assign d k v)) <-> In x (keys d) \/ x = k)
  /\ length (Cache.assign d k v)
     = if Cache.has_key d k then length d else S (length d).
Proof.
  intros Hd.
  assert (L : length (Cache.assign d k v) = length (keys (Cache.assign d k v)))
    by (unfold keys; rewrite length_map; reflexivity).
  rewrite L, keys_assign. destruct (Cache.has_key d k) eqn:E.
  - apply has_key_In in E. split; [exact Hd|]. split.
    + intros x. intuition congruence.
    + unfold keys. apply length_map.
  - apply has_key_not_In in E. split; [apply NoDup_snoc; assumption|]. split.
    + intros x. rewrite in_app_iff. simpl. intuition congruence.
    + rewrite length_app. unfold keys. rewrite length_map. simpl. lia.
Qed.

(** [get] under the invariant: no exception, the stored value, the same
    entries. *)
Lemma get_spec (self : Cache.t bytes) (text key : str) :
  agree (Cache.cache self) (Cache.access_order self) ->
  Cache._get_hash sha256_hexdigest text = Some key ->
  exists self',
    Cache.get sha256_hexdigest self text
    = Some (self', Cache.lookup (Cache.cache self) key)
    /\ agree (Cache.cache self') (Cache.access_order self')
    /\ Cache.cache self' = Cache.cache self
    /\ Cache.max_size self' = Cache.max_size self.
Proof.
  intros (Hd & Hl & Hs) Hk. unfold Cache.get. rewrite Hk.
  destruct (Cache.has_key (Cache.cache self) key) eqn:E.
  - pose proof E as Ek. apply has_key_In, Hs in Ek.
    destruct (@list_remove_some _ _ Ek) as [r Hr]. rewrite Hr.
    destruct (@touch_spec _ key Hl) as (order & Ht & N & Sx).
    unfold touch in Ht.
    rewrite (proj2 (list_has_In _ _) Ek), Hr in Ht. injection Ht as <-.
    eexists. split; [reflexivity|]. simpl.
    split; [|split; reflexivity].
    split; [exact Hd|]. split; [exact N|].
    intros k. rewrite Sx, Hs. intuition congruence.
  - exists self. unfold Cache.has_key in E.
    destruct (Cache.lookup (Cache.cache self) key); [discriminate|].
    split; [reflexivity|]. repeat split; try assumption; apply Hs.
Qed.

(** The eviction under the invariant. *)
Lemma evict_spec (self : Cache.t bytes) (oldest : str) (rest : list str) :
  agree (Cache.cache self) (Cache.access_order self) ->
  Cache.access_order self = oldest :: rest ->
  exists d,
    Cache.evict self
    = Some {| Cache.max_size := Cache.max_size self; Cache.cache := d;
              Cache.access_order := rest |}
    /\ agree d rest
    /\ length (Cache.cache self) = S (length d)
    /\ Cache.lookup d oldest = None
    /\ forall k, k <> oldest ->
         Cache.lookup d k = Cache.lookup (Cache.cache self) k.
Proof.
  intros (Hd & Hl & Hs) Ho. unfold Cache.evict. rewrite Ho in *.
  assert (Hin : In oldest (keys (Cache.cache self))).
  { apply Hs. left. reflexivity. }
  pose proof (delete_keys (Cache.cache self) oldest) as Hk.
  destruct (@list_remove_some _ _ Hin) as [r Hr]. rewrite Hr in Hk.
  destruct (Cache.delete (Cache.cache self) oldest) as [d|] eqn:Ed;
    [|discriminate].
  simpl in Hk. injection Hk as Hk. subst r.
  destruct (@list_remove_spec _ _ oldest Hd Hr) as (N & Sx & L).
  inversion Hl as [|? ? Hnot Hrest]; subst.
  exists d. split; [reflexivity|]. split; [|split; [|split]].
  - split; [exact N|]. split; [exact Hrest|].
    intros k. rewrite Sx, Hs. simpl. split.
    + intros [[H|H] Hne]; [congruence | exact H].
    + intros H. split; [right; exact H|]. intros ->. contradiction.
  - unfold keys in L. rewrite !length_map in L. exact L.
  - apply lookup_None. intros H. apply Sx in H. tauto.
  - intros k Hne. apply (@lookup_delete_other _ _ _ _ Ed Hne).
Qed.

(** What [set] leaves of the entries under other keys. *)
Definition remaining (self : Cache.t bytes) (key : str) (k : str)
  : option bytes :=
  if (size self >=? Cache.max_size self)%Z
     && negb (Cache.has_key (Cache.cache self) key)
  then match Cache.access_order self with
       | oldest :: _ =>
         if str_eqb k oldest then None else Cache.lookup (Cache.cache self) k
       | [] => Cache.lookup (Cache.cache self) k
       end
  else Cache.lookup (Cache.cache self) k.

(** [set] under the invariant, for a cache with room for one entry. *)
Lemma set_spec (self : Cache.t bytes) (text key : str)
  (audio_bytes : bytes) :
  agree (Cache.cache self) (Cache.access_order self) ->
  (1 <= Cache.max_size self)%Z -> (size self <= Cache.max_size self)%Z ->
  Cache._get_hash sha256_hexdigest text = Some key ->
  exists self',
    Cache.set sha256_hexdigest self text audio_bytes = Some self'
    /\ agree (Cache.cache self') (Cache.access_order self')
    /\ (size self' <= Cache.max_size self')%Z
    /\ Cache.max_size self' = Cache.max_size self
    /\ Cache.lookup (Cache.cache self') key = Some audio_bytes
    /\ forall k, k <> key ->
         Cache.lookup (Cache.cache self') k = remaining self key k.
Proof.
  intros Ha Hm Hsz Hkey. unfold Cache.set, remaining. rewrite Hkey.
  fold (size self).
  assert (Step : forall s1 : Cache.t bytes,
            agree (Cache.cache s1) (Cache.access_order s1) ->
            (Z.of_nat (if Cache.has_key (Cache.cache s1) key
                       then length (Cache.cache s1)
                       else S (length (Cache.cache s1)))
             <= Cache.max_size s1)%Z ->
            exists self',
              match touch (Cache.access_order s1) key with
              | Some order =>
                Some {| Cache.max_size := Cache.max_size s1;
                        Cache.cache :=
                          Cache.assign (Cache.cache s1) key audio_bytes;
                        Cache.access_order := order ++ [key] |}
              | None => None
              end = Some self'
              /\ agree (Cache.cache self') (Cache.access_order self')
              /\ (size self' <= Cache.max_size self')%Z
              /\ Cache.max_size self' = Cache.max_size s1
              /\ Cache.lookup (Cache.cache self') key = Some audio_bytes
              /\ forall k, k <> key ->
                   Cache.lookup (Cache.cache self') k
                   = Cache.lookup (Cache.cache s1) k).
  { intros s1 (Hd & Hl & Hs) Hlen.
    destruct (@touch_spec _ key Hl) as (order & Ht & N & Sx). rewrite Ht.
    destruct (@assign_spec _ key audio_bytes Hd) as (Nd & Sd & Ld).
    eexists. split; [reflexivity|]. unfold size. simpl.
    split; [|split; [|split; [|split]]].
    - split; [exact Nd|]. split; [exact N|].
      intros k. rewrite Sd, Sx, Hs. reflexivity.
    - rewrite Ld. exact Hlen.
    - reflexivity.
    - apply lookup_assign_same.
    - intros k Hk. apply lookup_assign_other, Hk. }
  destruct ((size self >=? Cache.max_size self)%Z
            && negb (Cache.has_key (Cache.cache self) key)) eqn:Efull.
  - apply andb_true_iff in Efull. destruct Efull as [Hge Habs].
    apply negb_true_iff in Habs. pose proof Habs as Hnot.
    apply has_key_not_In in Hnot.
    assert (Hold : exists oldest rest,
              Cache.access_order self = oldest :: rest).
    { destruct (Cache.access_order self) as [|oldest rest] eqn:Eo;
        [|eauto].
      exfalso. destruct Ha as (_ & _ & Hs).
      unfold size in *. destruct (Cache.cache self) as [|[k v] d];
        [simpl in Hge; lia|].
      apply (proj1 (Hs k)). left. reflexivity. }
    destruct Hold as (oldest & rest & Eo).
    + destruct (@evict_spec self oldest rest Ha Eo)
        as (d & Ev & Ad & Ld & Lo & Lk).
      rewrite Ev, Eo. cbn [Cache.max_size Cache.cache Cache.access_order].
      assert (Hnd : Cache.has_key d key = false).
      { apply has_key_not_In. intros H. destruct Ad as (_ & _ & Sd).
        apply Sd in H. apply Hnot. destruct Ha as (_ & _ & Hs).
        apply Hs. rewrite Eo. right. exact H. }
      assert (Hrest : Cache.list_has rest key = false).
      { apply list_has_not_In. intros H. apply Hnot.
        destruct Ha as (_ & _ & Hs). apply Hs. rewrite Eo. right. exact H. }
      destruct (Step {| Cache.max_size := Cache.max_size self;
                        Cache.cache := d; Cache.access_order := rest |})
        as (self' & E & A' & Z' & M' & V' & K').
      * exact Ad.
      * simpl. rewrite Hnd. unfold size in Hsz. lia.
      * unfold touch in E. simpl in E. rewrite Hrest in E.
        rewrite Hrest. exists self'. split; [exact E|].
        split; [exact A'|]. split; [exact Z'|]. split; [exact M'|].
        split; [exact V'|]. intros k Hk. rewrite (K' k Hk). simpl.
        destruct (str_eqb k oldest) eqn:Ek.
        -- apply str_eqb_eq in Ek. subst k. exact Lo.
        -- apply Lk. intros ->. rewrite str_eqb_same in Ek. discriminate.
  - destruct (Step self Ha) as (self' & E & A' & Z' & M' & V' & K').
    + apply andb_false_iff in Efull. unfold size in *.
      destruct (Cache.has_key (Cache.cache self) key); [exact Hsz|].
      destruct Efull as [H|H]; [|discriminate]. lia.
    + unfold touch in E. exists self'. split; [exact E|].
      split; [exact A'|]. split; [exact Z'|]. split; [exact M'|].
      split; [exact V'|]. exact K'.
Qed.

(** X16.  A value that was stored is read back: on a consistent cache with
    room for one entry or more, for a text that can be encoded, [set]
    raises nothing and stores the audio under the hash of the text, and
    the [get] that follows returns it. *)
Theorem cache_set_then_get (self : Cache.t bytes) (text : str)
  (audio_bytes : bytes) :
  consistent self = true ->
  (1 <= Cache.max_size self)%Z -> (size self <= Cache.max_size self)%Z ->
  encodable text = true ->
  exists stored read,
    Cache.set sha256_hexdigest self text audio_bytes = Some stored
    /\ Cache.get sha256_hexdigest stored text
       = Some (read, Some audio_bytes).
Proof.
  intros Hc Hm Hs He. apply consistent_agree in Hc.
  destruct (encodable_hash text He) as [key Hk].
  destruct (@set_spec _ text key audio_bytes Hc Hm Hs Hk)
    as (stored & E & A & _ & _ & V & _).
  destruct (@get_spec _ text key A Hk) as (read & G & _).
  exists stored, read. split; [exact E|]. rewrite G, V. reflexivity.
Qed.

(** X17.  [get] on a consistent cache, for a text that can be encoded,
    raises nothing, returns the value stored under the hash of the text
    ([None] when there is none) and changes neither the entries nor the
    capacity; the cache stays consistent.  For a text that cannot be
    encoded, [get] raises. *)
Theorem cache_get_keeps_entries (self : Cache.t bytes) (text : str) :
  consistent self = true ->
  (encodable text = true ->
   exists after key,
     Cache._get_hash sha256_hexdigest text = Some key
     /\ Cache.get sha256_hexdigest self text
        = Some (after, Cache.lookup (Cache.cache self) key)
     /\ Cache.cache after = Cache.cache self
     /\ Cache.max_size after = Cache.max_size self
     /\ consistent after = true)
  /\ (encodable text = false ->
      Cache.get sha256_hexdigest self text = None).
Proof.
  intros Hc. apply consistent_agree in Hc. split.
  - intros He. destruct (encodable_hash text He) as [key Hk].
    destruct (@get_spec _ text key Hc Hk) as (after & G & A & C & M).
    exists after, key. repeat split; try assumption.
    apply consistent_agree, A.
  - unfold encodable, Cache.get, Cache._get_hash.
    destruct (encode text); [discriminate | reflexivity].
Qed.

(** X18.  When the cache is full and the key, the hash of a text that can
    be encoded, is new, [set] evicts the entry at the head of
    [access_order], and only this one: every other entry is kept, and the
    new entry is stored. *)
Theorem cache_set_evicts_oldest (self : Cache.t bytes) (text key : str)
  (audio_bytes : bytes) (oldest : str) (rest : list str) :
  consistent self = true ->
  (1 <= Cache.max_size self)%Z -> size self = Cache.max_size self ->
  Cache._get_hash sha256_hexdigest text = Some key ->
  Cache.has_key (Cache.cache self) key = false ->
  Cache.access_order self = oldest :: rest ->
  exists after,
    Cache.set sha256_hexdigest self text audio_bytes = Some after
    /\ size after = Cache.max_size self
    /\ Cache.lookup (Cache.cache after) oldest = None
    /\ Cache.lookup (Cache.cache after) key = Some audio_bytes
    /\ (forall k, k <> oldest -> k <> key ->
          Cache.lookup (Cache.cache after) k
          = Cache.lookup (Cache.cache self) k)
    /\ Cache.access_order after = rest ++ [key].
Proof.
  intros Hc Hm Hs Hkey Habs Ho. apply consistent_agree in Hc.
  assert (Hne : oldest <> key).
  { intros E. apply has_key_not_In in Habs. apply Habs.
    destruct Hc as (_ & _ & Sx). apply Sx. rewrite Ho, E. left. reflexivity. }
  destruct (@evict_spec self oldest rest Hc Ho) as (d & Ev & Ad & Ld & _).
  assert (Hrest : Cache.list_has rest key = false).
  { apply list_has_not_In. intros H. apply has_key_not_In in Habs.
    apply Habs. destruct Hc as (_ & _ & Sx). apply Sx. rewrite Ho.
    right. exact H. }
  assert (Hnd : Cache.has_key d key = false).
  { apply has_key_not_In. intros H. destruct Ad as (_ & _ & Sd).
    apply Sd in H. apply list_has_not_In in Hrest. contradiction. }
  destruct (@set_spec _ text key audio_bytes Hc Hm ltac:(lia) Hkey)
    as (after & E & _ & _ & _ & V & K).
  exists after. split; [exact E|].
  assert (Full : (size self >=? Cache.max_size self)%Z
                 && negb (Cache.has_key (Cache.cache self) key) = true).
  { rewrite Habs, Hs. simpl. rewrite andb_true_r. apply Z.geb_le. lia. }
  assert (Shape : after
            = {| Cache.max_size := Cache.max_size self;
                 Cache.cache := Cache.assign d key audio_bytes;
                 Cache.access_order := rest ++ [key] |}).
  { unfold Cache.set in E. rewrite Hkey in E. fold (size self) in E.
    rewrite Full, Ev in E.
    cbn [Cache.max_size Cache.cache Cache.access_order] in E.
    rewrite Hrest in E. injection E as <-. reflexivity. }
  split; [|split; [|split; [exact V | split]]].
  - rewrite Shape. unfold size in *. simpl.
    destruct Ad as (Nd & _).
    destruct (@assign_spec _ key audio_bytes Nd) as (_ & _ & L).
    rewrite L, Hnd. lia.
  - rewrite (K oldest Hne). unfold remaining. rewrite Full, Ho, str_eqb_same.
    reflexivity.
  - intros k H1 H2. rewrite (K k H2). unfold remaining.
    rewrite Full, Ho, (@str_eqb_differ _ _ H1). reflexivity.
  - rewrite Shape. reflexivity.
Qed.

(** A call of one of the three methods. *)
Inductive call : Type :=
| Get (text : str)
| Set_ (text : str) (audio_bytes : bytes)
| Clear.

(** The cache after the call; [None] is an exception. *)
Definition after_call (self : Cache.t bytes) (c : call)
  : option (Cache.t bytes) :=
  match c with
  | Get text => option_map fst (Cache.get sha256_hexdigest self text)
  | Set_ text audio_bytes =>
    Cache.set sha256_hexdigest self text audio_bytes
  | Clear => Some (Cache.clear self)
  end.

Fixpoint after_calls (self : Cache.t bytes) (calls : list call)
  : option (Cache.t bytes) :=
  match calls with
  | [] => Some self
  | c :: calls' =>
    match after_call self c with
    | Some self' => after_calls self' calls'
    | None => None
    end
  end.

(** The text of the call can be encoded. *)
Definition call_encodable (c : call) : bool :=
  match c with
  | Get text => encodable text
  | Set_ text _ => encodable text
  | Clear => true
  end.

Lemma after_calls_spec (calls : list call) (self : Cache.t bytes) :
  forallb call_encodable calls = true ->
  agree (Cache.cache self) (Cache.access_order self) ->
  (1 <= Cache.max_size self)%Z -> (size self <= Cache.max_size self)%Z ->
  exists self',
    after_calls self calls = Some self'
    /\ agree (Cache.cache self') (Cache.access_order self')
    /\ (size self' <= Cache.max_size self')%Z
    /\ Cache.max_size self' = Cache.max_size self.
Proof.
  revert self. induction calls as [|c calls IH]; intros self He Ha Hm Hs.
  - exists self. auto.
  - simpl in He. apply andb_true_iff in He. destruct He as [Hc He].
    cbn [after_calls].
    assert (Hstep : exists s1,
              after_call self c = Some s1
              /\ agree (Cache.cache s1) (Cache.access_order s1)
              /\ (size s1 <= Cache.max_size s1)%Z
              /\ Cache.max_size s1 = Cache.max_size self).
    { destruct c as [text|text audio_bytes|]; cbn [after_call].
      - destruct (encodable_hash text Hc) as [key Hk].
        destruct (@get_spec _ text key Ha Hk) as (s1 & G & A & C & M).
        rewrite G. exists s1. simpl. split; [reflexivity|].
        split; [exact A|]. split; [|exact M].
        unfold size in *. rewrite C, M. exact Hs.
      - destruct (encodable_hash text Hc) as [key Hk].
        destruct (@set_spec _ text key audio_bytes Ha Hm Hs Hk)
          as (s1 & E & A & Z' & M & _).
        exists s1. auto.
      - eexists. split; [reflexivity|]. unfold size. simpl.
        split; [|split; [lia | reflexivity]].
        split; [constructor|]. split; [constructor|]. tauto. }
    destruct Hstep as (s1 & E & A & Z' & M). rewrite E.
    destruct (IH s1 He A ltac:(lia) Z') as (self' & R & A' & Z'' & M').
    exists self'. split; [exact R|]. split; [exact A'|].
    split; [exact Z''|]. congruence.
Qed.

(** X19.  On a cache created with a capacity of one entry or more, no
    sequence of calls of [get], [set] and [clear] on texts that can be
    encoded raises an exception, and the cache never holds more entries
    than its capacity; its keys stay the entries of [access_order]. *)
Theorem cache_calls_within_capacity (max_size : Z) (calls : list call) :
  (1 <= max_size)%Z ->
  forallb call_encodable calls = true ->
  exists self,
    after_calls (Cache.init bytes max_size) calls = Some self
    /\ (size self <= max_size)%Z
    /\ Cache.max_size self = max_size
    /\ consistent self = true.
Proof.
  intros Hm He.
  destruct (@after_calls_spec calls (Cache.init bytes max_size) He)
    as (self & R & A & Z' & M).
  - simpl. split; [constructor|]. split; [constructor|]. tauto.
  - exact Hm.
  - unfold size. simpl. lia.
  - simpl in M. exists self. split; [exact R|]. rewrite M in Z'.
    split; [exact Z'|]. split; [exact M|]. apply consistent_agree, A.
Qed.

(** X20.  A cache created with a capacity of zero or less cannot store
    anything: the first [set] pops from the empty [access_order], which
    raises [IndexError]. *)
Theorem cache_without_capacity_fails (max_size : Z) (text : str)
  (audio_bytes : bytes) :
  (max_size <= 0)%Z ->
  Cache.set sha256_hexdigest (Cache.init bytes max_size) text audio_bytes
  = None.
Proof.
  intros Hm. unfold Cache.set.
  destruct (Cache._get_hash sha256_hexdigest text); [|reflexivity]. simpl.
  destruct (Z.geb_spec 0 max_size) as [_|H]; [reflexivity | lia].
Qed.

End CacheFacts.

Section CacheExamples.

(** A cache of two entries, full; in the examples the digest of the bytes
    is the bytes themselves. *)
Definition full_cache : Cache.t nat :=
  {| Cache.max_size := 2;
     Cache.cache := [(lit "a", 1); (lit "b", 2)];
     Cache.access_order := [lit "b"; lit "a"] |}.

Lemma cache_set_then_get_witness :
  exists stored read,
    Cache.set (fun data => data) full_cache (lit "c") 3 = Some stored
    /\ Cache.get (fun data => data) stored (lit "c") = Some (read, Some 3).
Proof.
  apply (@cache_set_then_get nat (fun data => data) full_cache (lit "c") 3).
  - reflexivity.
  - simpl. lia.
  - unfold size. simpl. lia.
  - reflexivity.
Defined.

Lemma cache_get_keeps_entries_witness :
  encodable (lit "a") = true
  /\ exists after key,
       Cache._get_hash (fun data => data) (lit "a") = Some key
       /\ Cache.get (fun data => data) full_cache (lit "a")
          = Some (after, Cache.lookup (Cache.cache full_cache) key)
       /\ Cache.cache after = Cache.cache full_cache
       /\ Cache.max_size after = Cache.max_size full_cache
       /\ consistent after = true.
Proof.
  assert (H : encodable (lit "a") = true) by reflexivity.
  split; [exact H|].
  apply (proj1 (@cache_get_keeps_entries nat (fun data => data) full_cache
                  (lit "a") eq_refl) H).
Defined.

Lemma cache_set_evicts_oldest_witness :
  exists after,
    Cache.set (fun data => data) full_cache (lit "c") 3 = Some after
    /\ size after = Cache.max_size full_cache
    /\ Cache.lookup (Cache.cache after) (lit "b") = None
    /\ Cache.lookup (Cache.cache after) (lit "c") = Some 3
    /\ (forall k, k <> lit "b" -> k <> lit "c" ->
          Cache.lookup (Cache.cache after) k
          = Cache.lookup (Cache.cache full_cache) k)
    /\ Cache.access_order after = [lit "a"] ++ [lit "c"].
Proof.
  apply (@cache_set_evicts_oldest nat (fun data => data) full_cache (lit "c")
           (lit "c") 3 (lit "b") [lit "a"]).
  - reflexivity.
  - simpl. lia.
  - reflexivity.
  - reflexivity.
  - reflexivity.
  - reflexivity.
Defined.

Lemma cache_calls_within_capacity_witness :
  exists self,
    after_calls (fun data => data) (Cache.init nat 1)
      [Set_ (lit "a") 1; Get nat (lit "a"); Set_ (lit "b") 2; Clear nat]
    = Some self
    /\ (size self <= 1)%Z
    /\ Cache.max_size self = 1%Z
    /\ consistent self = true.
Proof.
  apply (@cache_calls_within_capacity nat (fun data => data) 1
           [Set_ (lit "a") 1; Get nat (lit "a"); Set_ (lit "b") 2; Clear nat]).
  - lia.
  - reflexivity.
Defined.

Lemma cache_without_capacity_fails_witness :
  Cache.set (fun data => data) (Cache.init nat 0) (lit "a") 1 = None.
Proof.
  apply (@cache_without_capacity_fails nat (fun data => data) 0 (lit "a") 1).
  lia.
Defined.

(** A text with a lone surrogate cannot be hashed: [get] and [set]
    raise.  The bytes of "ў" are D1 9E. *)
Example cache_surrogate_raises :
  encodable [0xD800%N] = false
  /\ Cache.get (fun data => data) full_cache [0xD800%N] = None
  /\ Cache.set (fun data => data) full_cache [0xD800%N] 3 = None
  /\ encode (lit "ў") = Some [0xD1; 0x9E]%N.
Proof. split; [|split; [|split]]; reflexivity. Qed.

End CacheExamples.

(* ===================================================================== *)
(** * More properties: bot/states.py *)
(* ===================================================================== *)

Section UserStates.

(** No user id is a key twice, as in a [dict]. *)
Fixpoint unique_ids (d : states) : bool :=
  match d with
  | [] => true
  | (k, _) :: d' =>
    match state_get d' k with Some _ => false | None => unique_ids d' end
  end.

Lemma state_get_assign_same (d : states) (user_id : Z) (state : str) :
  state_get (state_assign d user_id state) user_id = Some state.
Proof.
  induction d as [|[k v] d IH]; simpl.
  - rewrite Z.eqb_refl. reflexivity.
  - destruct (Z.eqb user_id k) eqn:E; simpl; rewrite E;
      [reflexivity | exact IH].
Qed.

Lemma state_get_assign_other (d : states) (user_id other : Z) (state : str) :
  other <> user_id ->
  state_get (state_assign d user_id state) other = state_get d other.
Proof.
  intros H. induction d as [|[k v] d IH]; simpl.
  - rewrite (proj2 (Z.eqb_neq other user_id) H). reflexivity.
  - destruct (Z.eqb user_id k) eqn:E; simpl.
    + apply Z.eqb_eq in E. subst k.
      rewrite (proj2 (Z.eqb_neq other user_id) H). reflexivity.
    + rewrite IH. reflexivity.
Qed.

Lemma unique_ids_assign (d : states) (user_id : Z) (state : str) :
  unique_ids d = true -> unique_ids (state_assign d user_id state) = true.
Proof.
  induction d as [|[k v] d IH]; intros H; [reflexivity|].
  simpl in H. destruct (state_get d k) eqn:G; [discriminate|]. simpl.
  destruct (Z.eqb user_id k) eqn:E; simpl.
  - rewrite G. exact H.
  - rewrite state_get_assign_other, G; [apply IH, H|].
    intros ->. rewrite Z.eqb_refl in E. discriminate.
Qed.

Lemma state_get_delete_other (d : states) (user_id other : Z) :
  other <> user_id ->
  state_get (state_delete d user_id) other = state_get d other.
Proof.
  intros H. induction d as [|[k v] d IH]; [reflexivity|]. simpl.
  destruct (Z.eqb user_id k) eqn:E; simpl.
  - apply Z.eqb_eq in E. subst k.
    rewrite (proj2 (Z.eqb_neq other user_id) H). reflexivity.
  - rewrite IH. reflexivity.
Qed.

Lemma state_get_delete_same (d : states) (user_id : Z) :
  unique_ids d = true -> state_get (state_delete d user_id) user_id = None.
Proof.
  induction d as [|[k v] d IH]; intros H; [reflexivity|].
  simpl in H. destruct (state_get d k) eqn:G; [discriminate|]. simpl.
  destruct (Z.eqb user_id k) eqn:E; simpl.
  - apply Z.eqb_eq in E. subst k. exact G.
  - rewrite E. apply IH, H.
Qed.

Lemma unique_ids_delete (d : states) (user_id : Z) :
  unique_ids d = true -> unique_ids (state_delete d user_id) = true.
Proof.
  induction d as [|[k v] d IH]; intros H; [reflexivity|].
  simpl in H. destruct (state_get d k) eqn:G; [discriminate|]. simpl.
  destruct (Z.eqb user_id k) eqn:E; simpl; [exact H|].
  rewrite state_get_delete_other, G; [apply IH, H|].
  intros ->. rewrite Z.eqb_refl in E. discriminate.
Qed.

(** X21.  The state that was set for a user is the state that is read for
    this user, whatever was there before, and the states of the other
    users are as they were. *)
Theorem set_user_state_read_back (_user_states : states) (user_id : Z)
  (state : str) :
  get_user_state (set_user_state _user_states user_id state) user_id = state
  /\ (forall other, other <> user_id ->
        get_user_state (set_user_state _user_states user_id state) other
        = get_user_state _user_states other)
  /\ (unique_ids _user_states = true ->
        unique_ids (set_user_state _user_states user_id state) = true).
Proof.
  unfold get_user_state, set_user_state. split; [|split].
  - rewrite state_get_assign_same. reflexivity.
  - intros other H. rewrite (@state_get_assign_other _ _ _ _ H). reflexivity.
  - apply unique_ids_assign.
Qed.

(** X22.  After [clear_user_state] the user is in the default state
    'tts_mode' again, whether a state was recorded or not, and the states
    of the other users are as they were. *)
Theorem clear_user_state_gives_default (_user_states : states)
  (user_id : Z) :
  unique_ids _user_states = true ->
  get_user_state (clear_user_state _user_states user_id) user_id
  = lit "tts_mode"
  /\ (forall other, other <> user_id ->
        get_user_state (clear_user_state _user_states user_id) other
        = get_user_state _user_states other)
  /\ unique_ids (clear_user_state _user_states user_id) = true.
Proof.
  intros H. unfold get_user_state, clear_user_state.
  destruct (state_get _user_states user_id) eqn:G; split; try split.
  - rewrite (@state_get_delete_same _ user_id H). reflexivity.
  - intros other Ho. rewrite (@state_get_delete_other _ _ _ Ho). reflexivity.
  - apply unique_ids_delete, H.
  - rewrite G. reflexivity.
  - reflexivity.
  - exact H.
Qed.

Lemma clear_user_state_gives_default_witness :
  unique_ids [(7, lit "idle"); (9, lit "tts_mode")]%Z = true
  /\ get_user_state
       (clear_user_state [(7, lit "idle"); (9, lit "tts_mode")]%Z 7) 7
     = lit "tts_mode".
Proof.
  assert (H : unique_ids [(7, lit "idle"); (9, lit "tts_mode")]%Z = true)
    by reflexivity.
  exact (conj H (proj1 (@clear_user_state_gives_default _ 7%Z H))).
Defined.

End UserStates.
